(** * smooth_hashtable: a shallow embedding of tree_list, fixed_hashmap and hashmap

    The development follows the three layers of the repository:

    - [TreeList]     : [tree_list_base] (the per-bucket container that is either a
                       singly linked list or a binary tree of [rb_node_type]),
    - [FixedHashmap] : [mmap_array] and [fixed_hashmap] (a flat table of buckets
                       with the [steal_elements] migration primitive),
    - [Hashmap]      : [hashmap] (two fixed tables and the [rehashing_] flag).

    C++ behaviour that is not a normal return is made explicit: every operation
    returns an [outcome], which is either a value or a [fault]. *)

From stdpp Require Import base numbers decidable option list.

Local Open Scope Z_scope.

(** ** Outcomes of a call *)

Inductive fault : Set :=
  | undefined_behaviour   (* null or dangling dereference, inactive union member,
                             out-of-bounds index, integer division by zero *)
  | out_of_range          (* [throw std::out_of_range] *)
  | assertion_failure     (* a failing [assert] *)
  | allocation_failure    (* the backing array cannot be obtained *)
  | length_error          (* [throw std::length_error] *)
  | out_of_fuel.          (* the loop bound of the model was too small *)

Inductive outcome (A : Type) : Type :=
  | Ok (a : A)
  | Fault (f : fault).
Arguments Ok {A} a.
Arguments Fault {A} f.

#[global] Instance outcome_ret : MRet outcome := @Ok.
#[global] Instance outcome_bind : MBind outcome := λ A B f x,
  match x with Ok a => f a | Fault e => Fault e end.
#[global] Instance outcome_fmap : FMap outcome := λ A B f x,
  match x with Ok a => Ok (f a) | Fault e => Fault e end.

Definition is_Ok {A} (x : outcome A) : Prop := ∃ a, x = Ok a.

(** The call ended the way the source ends it: with a value or with a fault
    of the source, not because a loop of the model ran out of its bound. *)
Definition fuel_suffices {A} (x : outcome A) : Prop := x ≠ Fault out_of_fuel.

Definition assert (b : bool) : outcome unit :=
  if b then Ok () else Fault assertion_failure.

(** [uint64_t] and [size_t] counters.  A counter of live nodes cannot reach
    [2^64] (every node occupies its own addresses), so [++] is modelled without
    wrap-around; [--] on zero wraps and is written out. *)
Definition size_max : Z := 2 ^ 64.
Definition decr (n : Z) : Z := if bool_decide (n = 0) then size_max - 1 else n - 1.

(** ** tree_list.h *)

Module TreeList.

Inductive node_color : Set := k_red | k_black.
Inductive data_struct_type : Set := k_linked_list | k_red_black_tree.
Inductive direction : Set := go_left | go_right.

#[global] Instance node_color_eq_dec : EqDecision node_color.
Proof. solve_decision. Defined.
#[global] Instance data_struct_type_eq_dec : EqDecision data_struct_type.
Proof. solve_decision. Defined.
#[global] Instance direction_eq_dec : EqDecision direction.
Proof. solve_decision. Defined.

(** A pointer to a node.  A list node is named by its position in the chain
    that starts at [head_]; a tree node by the child steps that lead from the
    node up to [root_] (its [parent_] chain, nearest parent first). *)
Inductive node_ref : Set :=
  | null_ref
  | list_ref (i : nat)
  | tree_ref (p : list direction).

#[global] Instance node_ref_eq_dec : EqDecision node_ref.
Proof. solve_decision. Defined.

(** [mixed_node_type]: the tag and the union of the two pointers.  Both
    comparison operators compare the pointer only. *)
Record mixed_node_type : Set := mixed_node {
  node_ds_type_ : data_struct_type;
  node_ptr_ : node_ref;
}.

Definition mixed_node_eq (a b : mixed_node_type) : bool :=
  bool_decide (node_ptr_ a = node_ptr_ b).
Definition mixed_node_is_null (a : mixed_node_type) : bool :=
  bool_decide (node_ptr_ a = null_ref).

(** The iterator built from a list node pointer, and the one built from a
    [mixed_node_type] that wraps a tree node pointer. *)
Definition list_iterator (r : node_ref) : mixed_node_type := mixed_node k_linked_list r.
Definition tree_iterator (r : node_ref) : mixed_node_type := mixed_node k_red_black_tree r.

Section tree_list_base.
Context {T : Type} (compare : T → T → bool).

(** [rb_node_type] with its subtrees; [rb_null] is the null pointer. *)
Inductive rb_node_type : Type :=
  | rb_null
  | rb_node (color_ : node_color) (left_ : rb_node_type) (data_ : T) (right_ : rb_node_type).

(** The constructor colours a new node red and leaves its links null. *)
Definition new_rb_node (data : T) : rb_node_type := rb_node k_red rb_null data rb_null.

Definition is_null (n : rb_node_type) : bool :=
  match n with rb_null => true | _ => false end.

Definition child (d : direction) (n : rb_node_type) : rb_node_type :=
  match n with
  | rb_null => rb_null
  | rb_node _ l _ r => match d with go_left => l | go_right => r end
  end.

Definition set_child (d : direction) (n s : rb_node_type) : rb_node_type :=
  match n with
  | rb_null => rb_null
  | rb_node c l x r =>
      match d with go_left => rb_node c s x r | go_right => rb_node c l x s end
  end.

(** The node that the pointer [p] names in the tree rooted at [t]. *)
Fixpoint node_at (t : rb_node_type) (p : list direction) : rb_node_type :=
  match p with
  | [] => t
  | d :: p' => child d (node_at t p')
  end.

(** The tree after the link that [p] names is redirected to [s]. *)
Fixpoint replace_at (t : rb_node_type) (p : list direction) (s : rb_node_type) : rb_node_type :=
  match p with
  | [] => s
  | d :: p' => replace_at t p' (set_child d (node_at t p') s)
  end.

(** The pointer stored in a link: null, or the node one step below [p]. *)
Definition child_ref (t : rb_node_type) (d : direction) (p : list direction) : node_ref :=
  if is_null (node_at t (d :: p)) then null_ref else tree_ref (d :: p).

Definition root_ref (t : rb_node_type) : node_ref :=
  if is_null t then null_ref else tree_ref [].

Definition parent_ref (p : list direction) : node_ref :=
  match p with [] => null_ref | _ :: p' => tree_ref p' end.

Fixpoint node_count (t : rb_node_type) : nat :=
  match t with
  | rb_null => 0%nat
  | rb_node _ l _ r => S (node_count l + node_count r)
  end.

Fixpoint inorder (t : rb_node_type) : list T :=
  match t with
  | rb_null => []
  | rb_node _ l x r => inorder l ++ x :: inorder r
  end.

(** The anonymous union of [head_] and [root_]: one pointer-sized slot that
    holds whichever member was written last. *)
Inductive root_union : Type :=
  | holds_head (chain : list T)
  | holds_root (t : rb_node_type).

Record tree_list_base : Type := mk_tree_list {
  head_root_ : root_union;
  size_ : Z;
  ds_type_ : data_struct_type;
}.

(** Reading a member of the union.  A null pointer reads as null through
    either member; a non-null pointer read through the other member names an
    object of the wrong type. *)
Definition read_head (b : tree_list_base) : outcome (list T) :=
  match head_root_ b with
  | holds_head l => Ok l
  | holds_root rb_null => Ok []
  | holds_root _ => Fault undefined_behaviour
  end.

Definition read_root (b : tree_list_base) : outcome rb_node_type :=
  match head_root_ b with
  | holds_root t => Ok t
  | holds_head [] => Ok rb_null
  | holds_head _ => Fault undefined_behaviour
  end.

Definition set_head (l : list T) (b : tree_list_base) : tree_list_base :=
  mk_tree_list (holds_head l) (size_ b) (ds_type_ b).
Definition set_root (t : rb_node_type) (b : tree_list_base) : tree_list_base :=
  mk_tree_list (holds_root t) (size_ b) (ds_type_ b).
Definition set_size (n : Z) (b : tree_list_base) : tree_list_base :=
  mk_tree_list (head_root_ b) n (ds_type_ b).
Definition set_ds_type (d : data_struct_type) (b : tree_list_base) : tree_list_base :=
  mk_tree_list (head_root_ b) (size_ b) d.

(** A zero-filled slot of [mmap_array], and what [tree_list()] builds. *)
Definition zeroed : tree_list_base := mk_tree_list (holds_head []) 0 k_linked_list.

Definition size (b : tree_list_base) : Z := size_ b.
Definition empty (b : tree_list_base) : bool := bool_decide (size_ b = 0).

(** *** List side *)

(** [list_insert] and [list_emplace]: the new node becomes the head. *)
Definition list_insert (data : T) (b : tree_list_base) : outcome (node_ref * tree_list_base) :=
  old ← read_head b;
  Ok (list_ref 0, set_size (size_ b + 1) (set_head (data :: old) b)).

Definition list_emplace := list_insert.

(** *** Tree side *)

(** [tree_insert_node]: the descent from [root_] (here [x]) and the link of
    [z] below the last node visited.  No colour is changed and no rotation is
    made. *)
Fixpoint tree_insert_node (z : rb_node_type) (x : rb_node_type) : rb_node_type :=
  match x with
  | rb_null => z
  | rb_node c l d r =>
      match z with
      | rb_null => x
      | rb_node _ _ zd _ =>
          if compare zd d then rb_node c (tree_insert_node z l) d r
          else rb_node c l d (tree_insert_node z r)
      end
  end.

(** Where [tree_insert_node] links a node with datum [zd]. *)
Fixpoint tree_insert_path (zd : T) (x : rb_node_type) (p : list direction) : list direction :=
  match x with
  | rb_null => p
  | rb_node _ l d r =>
      if compare zd d then tree_insert_path zd l (go_left :: p)
      else tree_insert_path zd r (go_right :: p)
  end.

Definition tree_insert (data : T) (b : tree_list_base) : outcome (node_ref * tree_list_base) :=
  let b1 := set_size (size_ b + 1) b in
  root ← read_root b1;
  Ok (tree_ref (tree_insert_path data root []),
      set_root (tree_insert_node (new_rb_node data) root) b1).

Definition tree_emplace (data : T) (b : tree_list_base) : outcome (node_ref * tree_list_base) :=
  root ← read_root b;
  let b1 := set_root (tree_insert_node (new_rb_node data) root) b in
  Ok (tree_ref (tree_insert_path data root []), set_size (size_ b1 + 1) b1).

(** [treefy]: [root_ = nullptr], then one new tree node per list node, in
    chain order.  [size_] is not touched. *)
Definition treefy (b : tree_list_base) : outcome tree_list_base :=
  chain ← read_head b;
  let root := foldl (λ t d, tree_insert_node (new_rb_node d) t) rb_null chain in
  Ok (set_ds_type k_red_black_tree (set_root root b)).

(** [traversal_un_treefy]: post-order; every visit calls [list_insert], which
    reads [head_] while the union still holds [root_].  [ds_type_] is left as
    it is. *)
Fixpoint traversal_un_treefy (node : rb_node_type) (b : tree_list_base) : outcome tree_list_base :=
  match node with
  | rb_null => Fault undefined_behaviour
  | rb_node _ l d r =>
      b1 ← (if is_null l then Ok b else traversal_un_treefy l b);
      b2 ← (if is_null r then Ok b1 else traversal_un_treefy r b1);
      '(_, b3) ← list_insert d b2;
      Ok b3
  end.

Definition un_treefy (b : tree_list_base) : outcome tree_list_base :=
  root ← read_root b;
  traversal_un_treefy root b.

Definition treefy_or_un_treefy (b : tree_list_base) : outcome tree_list_base :=
  match ds_type_ b with
  | k_linked_list => if bool_decide (10 ≤ size_ b) then treefy b else Ok b
  | k_red_black_tree => if bool_decide (size_ b ≤ 3) then un_treefy b else Ok b
  end.

(** [insert(P&&)] and [emplace]. *)
Definition insert (data : T) (b : tree_list_base) : outcome (mixed_node_type * tree_list_base) :=
  b1 ← treefy_or_un_treefy b;
  match ds_type_ b1 with
  | k_linked_list => '(r, b2) ← list_insert data b1; Ok (list_iterator r, b2)
  | k_red_black_tree => '(r, b2) ← tree_insert data b1; Ok (tree_iterator r, b2)
  end.

Definition emplace (data : T) (b : tree_list_base) : outcome (mixed_node_type * tree_list_base) :=
  b1 ← treefy_or_un_treefy b;
  match ds_type_ b1 with
  | k_linked_list => '(r, b2) ← list_emplace data b1; Ok (list_iterator r, b2)
  | k_red_black_tree => '(r, b2) ← tree_emplace data b1; Ok (tree_iterator r, b2)
  end.

(** *** Walking the tree *)

(** The loop of [walk_to_leftmost_minor] and of [tree_minimum], started at the
    non-null node [n] that [p] names. *)
Fixpoint descend_left (n : rb_node_type) (p : list direction) : list direction :=
  match n with
  | rb_node _ (rb_node _ _ _ _ as l) _ _ => descend_left l (go_left :: p)
  | _ => p
  end.

Definition walk_to_leftmost_minor (t : rb_node_type) (p : list direction) : outcome node_ref :=
  match node_at t p with
  | rb_null => Fault undefined_behaviour
  | n => Ok (tree_ref (descend_left n p))
  end.

Definition tree_minimum := walk_to_leftmost_minor.

(** The loop [while (parent != nullptr && node == parent->right())]. *)
Fixpoint climb_from_right (p : list direction) : node_ref :=
  match p with
  | [] => null_ref
  | go_left :: p' => tree_ref p'
  | go_right :: p' => climb_from_right p'
  end.

Definition walk_to_next_node (t : rb_node_type) (p : list direction) : outcome node_ref :=
  match node_at t p with
  | rb_null => Fault undefined_behaviour
  | rb_node _ _ _ r =>
      if is_null r then Ok (climb_from_right p)
      else walk_to_leftmost_minor t (go_right :: p)
  end.

Definition tree_successor (t : rb_node_type) (p : list direction) : outcome node_ref :=
  match node_at t p with
  | rb_null => Fault undefined_behaviour
  | rb_node _ _ _ r =>
      if is_null r then Ok (climb_from_right p)
      else tree_minimum t (go_right :: p)
  end.

(** *** Iterators *)

Definition begin (b : tree_list_base) : outcome mixed_node_type :=
  match ds_type_ b with
  | k_red_black_tree =>
      root ← read_root b;
      r ← walk_to_leftmost_minor root [];
      Ok (tree_iterator r)
  | k_linked_list =>
      chain ← read_head b;
      Ok (list_iterator (match chain with [] => null_ref | _ => list_ref 0 end))
  end.

Definition end_ : mixed_node_type := list_iterator null_ref.

(** The objects a non-null pointer can name in the current state. *)
Definition chain_of (b : tree_list_base) : list T :=
  match head_root_ b with holds_head l => l | holds_root _ => [] end.
Definition tree_of (b : tree_list_base) : rb_node_type :=
  match head_root_ b with holds_root t => t | holds_head _ => rb_null end.

(** [get_data]: [operator*] and [operator->]. *)
Definition get_data (b : tree_list_base) (it : mixed_node_type) : outcome T :=
  match node_ds_type_ it, node_ptr_ it with
  | k_linked_list, list_ref i =>
      match chain_of b !! i with Some d => Ok d | None => Fault undefined_behaviour end
  | k_red_black_tree, tree_ref p =>
      match node_at (tree_of b) p with
      | rb_node _ _ d _ => Ok d
      | rb_null => Fault undefined_behaviour
      end
  | _, _ => Fault undefined_behaviour
  end.

(** [increment]: [operator++]. *)
Definition increment (b : tree_list_base) (it : mixed_node_type) : outcome mixed_node_type :=
  match node_ds_type_ it, node_ptr_ it with
  | k_linked_list, list_ref i =>
      match chain_of b !! i with
      | Some _ =>
          Ok (list_iterator (match chain_of b !! S i with
                             | Some _ => list_ref (S i) | None => null_ref end))
      | None => Fault undefined_behaviour
      end
  | k_red_black_tree, tree_ref p =>
      r ← walk_to_next_node (tree_of b) p;
      Ok (mixed_node k_red_black_tree r)
  | _, _ => Fault undefined_behaviour
  end.

(** *** Rotations and deletion *)

Definition color_of (n : rb_node_type) : outcome node_color :=
  match n with rb_node c _ _ _ => Ok c | rb_null => Fault undefined_behaviour end.

Definition set_color (t : rb_node_type) (p : list direction) (c : node_color) : outcome rb_node_type :=
  match node_at t p with
  | rb_node _ l d r => Ok (replace_at t p (rb_node c l d r))
  | rb_null => Fault undefined_behaviour
  end.

(** [copy_from]: only the datum is copied. *)
Definition set_data (t : rb_node_type) (p : list direction) (d : T) : outcome rb_node_type :=
  match node_at t p with
  | rb_node c l _ r => Ok (replace_at t p (rb_node c l d r))
  | rb_null => Fault undefined_behaviour
  end.

(** [left_rotate(x)]: afterwards [y] stands where [x] stood and [x] is the left
    child of [y]. *)
Definition left_rotate (t : rb_node_type) (p : list direction) : outcome rb_node_type :=
  match node_at t p with
  | rb_node xc a xd (rb_node yc b yd c) =>
      Ok (replace_at t p (rb_node yc (rb_node xc a xd b) yd c))
  | _ => Fault undefined_behaviour
  end.

(** [right_rotate(y)]: afterwards [x] stands where [y] stood and [y] is the
    right child of [x]. *)
Definition right_rotate (t : rb_node_type) (p : list direction) : outcome rb_node_type :=
  match node_at t p with
  | rb_node yc (rb_node xc a xd b) yd c =>
      Ok (replace_at t p (rb_node xc a xd (rb_node yc b yd c)))
  | _ => Fault undefined_behaviour
  end.

Definition opposite (d : direction) : direction :=
  match d with go_left => go_right | go_right => go_left end.

(** The rotation that moves the node at [p] one step down on side [d]. *)
Definition rotate (d : direction) (t : rb_node_type) (p : list direction) : outcome rb_node_type :=
  match d with go_left => left_rotate t p | go_right => right_rotate t p end.

(** [!n || n->get_color() == k_black]. *)
Definition null_or_black (n : rb_node_type) : bool :=
  match n with rb_node k_red _ _ _ => false | _ => true end.

Definition ref_is_null_or_black (t : rb_node_type) (x : node_ref) : outcome bool :=
  match x with
  | null_ref => Ok true
  | tree_ref p => c ← color_of (node_at t p); Ok (bool_decide (c = k_black))
  | list_ref _ => Fault undefined_behaviour
  end.

(** One pass of the loop of [delete_fixup] for [x] on side [d] of
    [x_parent] (at [q]); the branch for the other side is the same with left
    and right exchanged.  The result is the tree and the new [x], [x_parent]. *)
Definition delete_fixup_step (d : direction) (t : rb_node_type) (x : node_ref)
    (q : list direction) : outcome (rb_node_type * node_ref * node_ref) :=
  let e := opposite d in
  wc ← color_of (node_at t (e :: q));
  (* Case 1 *)
  '(t1, q1, x1) ←
     (if bool_decide (wc = k_red) then
        ta ← set_color t (e :: q) k_black;
        tb ← set_color ta q k_red;
        tc ← rotate d tb q;
        Ok (tc, d :: q, match x with null_ref => null_ref | _ => tree_ref (d :: d :: q) end)
      else Ok (t, q, x));
  let w := e :: q1 in
  _ ← color_of (node_at t1 w);
  if null_or_black (node_at t1 (d :: w)) && null_or_black (node_at t1 (e :: w)) then
    (* Case 2 *)
    t2 ← set_color t1 w k_red;
    Ok (t2, tree_ref q1, parent_ref q1)
  else
    (* Case 3 *)
    t2 ←
      (if null_or_black (node_at t1 (e :: w)) then
         ta ← set_color t1 (d :: w) k_black;
         tb ← set_color ta w k_red;
         rotate e tb w
       else Ok t1);
    (* Case 4 *)
    pc ← color_of (node_at t2 q1);
    t3 ← set_color t2 w pc;
    t4 ← set_color t3 q1 k_black;
    t5 ← (if is_null (node_at t4 (e :: w)) then Ok t4 else set_color t4 (e :: w) k_black);
    t6 ← rotate d t5 q1;
    match root_ref t6 with
    | null_ref => Fault undefined_behaviour
    | r => Ok (t6, r, null_ref)
    end.

Fixpoint delete_fixup (fuel : nat) (t : rb_node_type) (x x_parent : node_ref) : outcome rb_node_type :=
  nb ← ref_is_null_or_black t x;
  if bool_decide (x ≠ root_ref t) && nb then
    match fuel, x_parent with
    | O, _ => Fault out_of_fuel
    | S fuel', tree_ref q =>
        let d := if bool_decide (x = child_ref t go_left q) then go_left else go_right in
        '(t', x', x_parent') ← delete_fixup_step d t x q;
        delete_fixup fuel' t' x' x_parent'
    | S _, _ => Fault undefined_behaviour
    end
  else
    match x with
    | tree_ref p => set_color t p k_black
    | _ => Ok t
    end.

(** [delete_node(z)].  [update_node] and [propagate_updates] change nothing in
    this class and are left out; the decrement of [size_] is made by the
    callers below, as the last statement of the function. *)
Definition delete_node (t : rb_node_type) (z : list direction) : outcome rb_node_type :=
  match node_at t z with
  | rb_null => Fault undefined_behaviour
  | rb_node _ zl _ zr =>
      yr ← (if is_null zl || is_null zr then Ok (tree_ref z) else tree_successor t z);
      match yr with
      | tree_ref y =>
          match node_at t y with
          | rb_null => Fault undefined_behaviour
          | rb_node yc yl yd yr' =>
              let xs := if is_null yl then yr' else yl in
              let x := if is_null xs then null_ref else tree_ref y in
              let x_parent := parent_ref y in
              let t1 := replace_at t y xs in
              t2 ← (if bool_decide (y ≠ z) then set_data t1 z yd else Ok t1);
              if bool_decide (yc = k_black)
              then delete_fixup (2 * node_count t2 + 2) t2 x x_parent
              else Ok t2
          end
      | _ => Fault undefined_behaviour
      end
  end.

(** [erase(iterator)]. *)
Definition erase (it : mixed_node_type) (b : tree_list_base)
    : outcome (mixed_node_type * tree_list_base) :=
  if mixed_node_is_null it then Ok (it, b)
  else
    match node_ds_type_ it, node_ptr_ it with
    | k_linked_list, list_ref i =>
        chain ← read_head b;
        if bool_decide (i < length chain)%nat then
          let chain' := delete i chain in
          let next := match chain' !! i with Some _ => list_ref i | None => null_ref end in
          Ok (list_iterator next, set_size (decr (size_ b)) (set_head chain' b))
        else Fault undefined_behaviour
    | k_red_black_tree, tree_ref p =>
        root ← read_root b;
        root' ← delete_node root p;
        Ok (it, set_size (decr (size_ b)) (set_root root' b))
    | _, _ => Fault undefined_behaviour
    end.

(** [clear]. *)
Definition clear_list (b : tree_list_base) : outcome tree_list_base :=
  match ds_type_ b with
  | k_red_black_tree => Ok b
  | k_linked_list =>
      chain ← read_head b;
      match chain with
      | [] => Ok b
      | _ => Ok (set_head [] (set_size (Nat.iter (length chain) decr (size_ b)) b))
      end
  end.

Definition clear_tree (b : tree_list_base) : outcome tree_list_base :=
  match ds_type_ b with
  | k_linked_list => Ok b
  | k_red_black_tree =>
      root ← read_root b;
      match root with
      | rb_null => Ok b
      | _ => Ok (set_root rb_null (set_size (Nat.iter (node_count root) decr (size_ b)) b))
      end
  end.

Definition clear (b : tree_list_base) : outcome tree_list_base :=
  b1 ← clear_list b;
  b2 ← clear_tree b1;
  _ ← assert (bool_decide (size_ b2 = 0));
  Ok (set_ds_type k_linked_list b2).

(** The elements in iteration order. *)
Definition elements (b : tree_list_base) : list T :=
  match head_root_ b with
  | holds_head l => l
  | holds_root t => inorder t
  end.

End tree_list_base.

Arguments rb_node_type : clear implicits.
Arguments root_union : clear implicits.
Arguments tree_list_base : clear implicits.

(** *** Search by value *)

Section tree_list_search.
Context {T : Type} `{EqDecision T} (compare : T → T → bool).

(** [list_search]: the first node of the chain whose datum [== data]; [i] is
    the position of the head of [chain] in the whole chain. *)
Fixpoint list_search_from (chain : list T) (i : nat) (data : T) : node_ref :=
  match chain with
  | [] => null_ref
  | d :: rest =>
      if bool_decide (d = data) then list_ref i else list_search_from rest (S i) data
  end.

Definition list_search (data : T) (b : tree_list_base T) : outcome node_ref :=
  chain ← read_head b;
  Ok (list_search_from chain 0 data).

(** [tree_search_normal]: the descent from [current], which [p] names. *)
Fixpoint tree_search_normal (current : rb_node_type T) (p : list direction) (data : T)
    : node_ref :=
  match current with
  | rb_null => null_ref
  | rb_node _ l d r =>
      if bool_decide (d = data) then tree_ref p
      else if compare data d then tree_search_normal l (go_left :: p) data
      else tree_search_normal r (go_right :: p) data
  end.

Definition tree_search (data : T) (b : tree_list_base T) : outcome node_ref :=
  root ← read_root b;
  Ok (tree_search_normal root [] data).

(** [find(const T&)]. *)
Definition find (data : T) (b : tree_list_base T) : outcome mixed_node_type :=
  match ds_type_ b with
  | k_linked_list => r ← list_search data b; Ok (list_iterator r)
  | k_red_black_tree => r ← tree_search data b; Ok (tree_iterator r)
  end.

End tree_list_search.

(** *** A loop over a bucket *)

Section tree_list_loop.
Context {T : Type}.

(** The loop [for (; it != end(); ++it)] that visits [*it], entered at [it];
    the result lists the elements visited. *)
Fixpoint visit_from (fuel : nat) (b : tree_list_base T) (it : mixed_node_type)
    : outcome (list T) :=
  if mixed_node_eq it end_ then Ok []
  else
    match fuel with
    | O => Fault out_of_fuel
    | S fuel' =>
        d ← get_data b it;
        it' ← increment b it;
        rest ← visit_from fuel' b it';
        Ok (d :: rest)
    end.

(** [for (auto it = begin(); it != end(); ++it)]. *)
Definition visit (fuel : nat) (b : tree_list_base T) : outcome (list T) :=
  it ← begin b; visit_from fuel b it.

End tree_list_loop.

End TreeList.

(** ** mmap_array.h and fixed_hashmap.h *)

Module FixedHashmap.

Definition k_max_steal_iterations : Z := 300.

(** Conversions between [int], [int64_t] and [size_t]. *)
Definition to_size_t (z : Z) : Z := z `mod` size_max.
Definition to_int (z : Z) : Z := (z + 2 ^ 31) `mod` 2 ^ 32 - 2 ^ 31.
Definition to_int64 (z : Z) : Z := (z + 2 ^ 63) `mod` 2 ^ 64 - 2 ^ 63.

(** [std::vector::reserve(n)] on the empty vector of pairs, [n] an
    [int64_t] converted to [size_t].  A request beyond [max_size()] throws
    [std::length_error]; [max_size()] is [PTRDIFF_MAX] divided by the size of
    a pair, which is at least 2, so that it never exceeds [vector_max_size].
    Below that bound the storage is assumed to be granted for every length
    that a non-negative [int] can hold and refused beyond that, as it is for
    [mmap_array]. *)
Definition vector_max_size : Z := 2 ^ 62 - 1.

Definition vector_reserve (n : Z) : outcome unit :=
  if bool_decide (vector_max_size < to_size_t n) then Fault length_error
  else if bool_decide (to_size_t n < 2 ^ 31) then Ok ()
  else Fault allocation_failure.

Section fixed_hashmap.
Context {Key Mapped Hash TablePtr : Type} `{EqDecision Key}.
Context (key_less : Key → Key → bool).     (* [operator<] of [Key] *)
Context (hash_call : Hash → Key → Z).      (* [hash_function_(key)], a [size_t] *)
Context (default_hash : Hash).             (* [Hash()] *)
Context (default_mapped : Mapped).         (* [Mapped()] *)

Abbreviation value_type := (Key * Mapped)%type.

(** [ComparePairFirst]. *)
Definition ComparePairFirst (a b : value_type) : bool := key_less a.1 b.1.

Abbreviation bucket_type := (TreeList.tree_list_base value_type).

(** [mmap_array<bucket_type>]: the slots in index order.  The array of a
    cleared or moved-from object has no slot. *)
Abbreviation mmap_array := (list bucket_type).

(** [mmap_array(size)]: zero-filled storage.  The storage is assumed to be
    granted for every length that a non-negative [int] can hold and refused
    beyond that. *)
Definition mmap_array_new (size : Z) : outcome mmap_array :=
  if bool_decide (size < 2 ^ 31)
  then Ok (replicate (Z.to_nat size) TreeList.zeroed)
  else Fault allocation_failure.

Definition mmap_array_size (a : mmap_array) : Z := Z.of_nat (length a).

(** [operator[]]: no bounds check. *)
Definition mmap_array_index (a : mmap_array) (i : Z) : outcome bucket_type :=
  if bool_decide (0 ≤ i) then
    match a !! Z.to_nat i with
    | Some b => Ok b
    | None => Fault undefined_behaviour
    end
  else Fault undefined_behaviour.

Definition mmap_array_store (a : mmap_array) (i : Z) (b : bucket_type) : mmap_array :=
  <[Z.to_nat i := b]> a.

Record fixed_hashmap : Type := mk_fixed_hashmap {
  table_ : mmap_array;
  size_ : Z;
  hash_function_ : Hash;
  stolen_bucket_ : Z;
}.

Definition set_table (t : mmap_array) (m : fixed_hashmap) : fixed_hashmap :=
  mk_fixed_hashmap t (size_ m) (hash_function_ m) (stolen_bucket_ m).
Definition set_size (n : Z) (m : fixed_hashmap) : fixed_hashmap :=
  mk_fixed_hashmap (table_ m) n (hash_function_ m) (stolen_bucket_ m).
Definition set_stolen_bucket (c : Z) (m : fixed_hashmap) : fixed_hashmap :=
  mk_fixed_hashmap (table_ m) (size_ m) (hash_function_ m) c.
Definition store_bucket (i : Z) (b : bucket_type) (m : fixed_hashmap) : fixed_hashmap :=
  set_table (mmap_array_store (table_ m) i b) m.

(** [fixed_hashmap(initial_size, hash)].  The parameter is an [int]: the
    argument is converted to [int] at the call, and the [int] to [size_t] for
    [table_]. *)
Definition fixed_hashmap_new (initial_size : Z) (hash : Hash) : outcome fixed_hashmap :=
  let n := to_int initial_size in
  table ← mmap_array_new (to_size_t n);
  Ok (mk_fixed_hashmap table 0 hash (n - 1)).

(** Move assignment from a temporary: the receiver takes every field of the
    temporary; its former array is released without a look at the slots. *)
Definition move_assign (self other : fixed_hashmap) : fixed_hashmap := other.

Definition swap (a b : fixed_hashmap) : fixed_hashmap * fixed_hashmap := (b, a).

Definition size (m : fixed_hashmap) : Z := size_ m.
Definition empty (m : fixed_hashmap) : bool := bool_decide (size_ m = 0).
Definition get_bucket_count (m : fixed_hashmap) : Z := mmap_array_size (table_ m).

(** [hash]: [hash_function_(key) % table_.size()]. *)
Definition hash (m : fixed_hashmap) (key : Key) : outcome Z :=
  if bool_decide (mmap_array_size (table_ m) = 0) then Fault undefined_behaviour
  else Ok (to_size_t (hash_call (hash_function_ m) key) `mod` mmap_array_size (table_ m)).

(** *** Iterators *)

Record iterator : Type := mk_iterator {
  it_table_ : TablePtr;
  bucket_it_ : TreeList.mixed_node_type;
  index_ : Z;
  end_ : bool;
}.

Definition iterator_eq (a b : iterator) : bool :=
  if end_ a && end_ b then true
  else if end_ a || end_ b then false
  else TreeList.mixed_node_eq (bucket_it_ a) (bucket_it_ b) && bool_decide (index_ a = index_ b).

Definition iterator_ne (a b : iterator) : bool := negb (iterator_eq a b).

(** The search for the next non-empty slot, shared by [begin] and by
    [increase]: [rest] are the slots from index [i] on. *)
Fixpoint first_nonempty (rest : list bucket_type) (i : Z)
    : outcome (option (TreeList.mixed_node_type * Z)) :=
  match rest with
  | [] => Ok None
  | b :: rest' =>
      if negb (TreeList.empty b) then it ← TreeList.begin b; Ok (Some (it, i))
      else first_nonempty rest' (i + 1)
  end.

Definition begin (this : TablePtr) (m : fixed_hashmap) : outcome iterator :=
  r ← first_nonempty (table_ m) 0;
  match r with
  | Some (it, i) => Ok (mk_iterator this it i false)
  | None => Ok (mk_iterator this TreeList.end_ 0 true)
  end.

Definition end_it (this : TablePtr) : iterator := mk_iterator this TreeList.end_ 0 true.

(** [increase]; [table] is the array that [it_table_] points to. *)
Definition increase (table : mmap_array) (it : iterator) : outcome iterator :=
  if end_ it then Fault out_of_range
  else
    bucket ← mmap_array_index table (index_ it);
    bi ← TreeList.increment bucket (bucket_it_ it);
    if negb (TreeList.mixed_node_eq bi TreeList.end_)
    then Ok (mk_iterator (it_table_ it) bi (index_ it) false)
    else
      r ← first_nonempty (drop (Z.to_nat (index_ it + 1)) table) (index_ it + 1);
      match r with
      | Some (bi', i) => Ok (mk_iterator (it_table_ it) bi' i false)
      | None => Ok (mk_iterator (it_table_ it) bi (mmap_array_size table) true)
      end.

Definition deref (table : mmap_array) (it : iterator) : outcome value_type :=
  bucket ← mmap_array_index table (index_ it);
  TreeList.get_data bucket (bucket_it_ it).

(** *** Lookup in one bucket *)

(** The loop [for (it = bucket.begin(); it != bucket.end(); ++it)
    if (it->first == key) ...], entered at [it]. *)
Fixpoint bucket_scan (fuel : nat) (bucket : bucket_type) (key : Key)
    (it : TreeList.mixed_node_type) : outcome (option TreeList.mixed_node_type) :=
  if TreeList.mixed_node_eq it TreeList.end_ then Ok None
  else
    match fuel with
    | O => Fault out_of_fuel
    | S fuel' =>
        d ← TreeList.get_data bucket it;
        if bool_decide (d.1 = key) then Ok (Some it)
        else it' ← TreeList.increment bucket it; bucket_scan fuel' bucket key it'
    end.

Definition bucket_find (bucket : bucket_type) (key : Key)
    : outcome (option TreeList.mixed_node_type) :=
  it ← TreeList.begin bucket;
  bucket_scan (length (TreeList.elements bucket)) bucket key it.

(** *** Operations *)

Definition insert (this : TablePtr) (kv : value_type) (m : fixed_hashmap)
    : outcome (iterator * bool * fixed_hashmap) :=
  index ← hash m kv.1;
  bucket ← mmap_array_index (table_ m) index;
  found ← bucket_find bucket kv.1;
  match found with
  | Some it => Ok (mk_iterator this it index false, false, m)
  | None =>
      '(it, bucket') ← TreeList.insert ComparePairFirst kv bucket;
      Ok (mk_iterator this it index false, true,
          set_size (size_ m + 1) (store_bucket index bucket' m))
  end.

(** [emplace] builds the pair and calls [emplace_with_key]. *)
Definition emplace (this : TablePtr) (kv : value_type) (m : fixed_hashmap)
    : outcome (iterator * bool * fixed_hashmap) :=
  index ← hash m kv.1;
  bucket ← mmap_array_index (table_ m) index;
  found ← bucket_find bucket kv.1;
  match found with
  | Some it => Ok (mk_iterator this it index false, false, m)
  | None =>
      '(it, bucket') ← TreeList.emplace ComparePairFirst kv bucket;
      Ok (mk_iterator this it index false, true,
          set_size (size_ m + 1) (store_bucket index bucket' m))
  end.

Definition erase (key : Key) (m : fixed_hashmap) : outcome (Z * fixed_hashmap) :=
  index ← hash m key;
  bucket ← mmap_array_index (table_ m) index;
  found ← bucket_find bucket key;
  match found with
  | Some it =>
      '(_, bucket') ← TreeList.erase it bucket;
      Ok (1, set_size (decr (size_ m)) (store_bucket index bucket' m))
  | None => Ok (0, m)
  end.

Definition contains (key : Key) (m : fixed_hashmap) : outcome bool :=
  index ← hash m key;
  bucket ← mmap_array_index (table_ m) index;
  found ← bucket_find bucket key;
  Ok (bool_decide (is_Some found)).

Definition find (this : TablePtr) (key : Key) (m : fixed_hashmap) : outcome iterator :=
  index ← hash m key;
  bucket ← mmap_array_index (table_ m) index;
  found ← bucket_find bucket key;
  match found with
  | Some it => Ok (mk_iterator this it index false)
  | None => Ok (mk_iterator this TreeList.end_ index true)
  end.

(** [at], non-const: a missing key is bound to [Mapped()]. *)
Definition at_ (key : Key) (m : fixed_hashmap) : outcome (Mapped * fixed_hashmap) :=
  index ← hash m key;
  bucket ← mmap_array_index (table_ m) index;
  found ← bucket_find bucket key;
  match found with
  | Some it => d ← TreeList.get_data bucket it; Ok (d.2, m)
  | None =>
      '(_, bucket') ← TreeList.emplace ComparePairFirst (key, default_mapped) bucket;
      Ok (default_mapped, set_size (size_ m + 1) (store_bucket index bucket' m))
  end.

(** [at], const: a missing key throws. *)
Definition at_const (key : Key) (m : fixed_hashmap) : outcome Mapped :=
  index ← hash m key;
  bucket ← mmap_array_index (table_ m) index;
  found ← bucket_find bucket key;
  match found with
  | Some it => d ← TreeList.get_data bucket it; Ok d.2
  | None => Fault out_of_range
  end.

(** [clear]: every slot is cleared, then the array is released. *)
Fixpoint clear_buckets (l : list bucket_type) : outcome unit :=
  match l with
  | [] => Ok ()
  | b :: l' => _ ← TreeList.clear b; clear_buckets l'
  end.

Definition clear (m : fixed_hashmap) : outcome fixed_hashmap :=
  _ ← clear_buckets (table_ m);
  Ok (set_size 0 (set_table [] m)).

(** *** steal_elements *)

(** The inner loop, on the slot under the cursor: [fuel] bounds the number of
    passes, each of which decrements [num_to_steal].  The pass that finds
    [stolen_elements] empty reserves storage for [num_to_steal] elements. *)
Fixpoint steal_from_bucket (fuel : nat) (num_to_steal : Z) (bucket : bucket_type)
    (stolen : list value_type) (size : Z)
    : outcome (Z * bucket_type * list value_type * Z) :=
  if bool_decide (0 < num_to_steal) && negb (TreeList.empty bucket) then
    match fuel with
    | O => Fault out_of_fuel
    | S fuel' =>
        _ ← (if bool_decide (stolen = []) then vector_reserve num_to_steal else Ok ());
        it ← TreeList.begin bucket;
        d ← TreeList.get_data bucket it;
        '(_, bucket') ← TreeList.erase it bucket;
        steal_from_bucket fuel' (num_to_steal - 1) bucket' (stolen ++ [d]) (decr size)
    end
  else Ok (num_to_steal, bucket, stolen, size).

(** The outer loop: every pass that does not leave the loop moves the cursor
    down by one. *)
Fixpoint steal_loop (fuel : nat) (start_bucket : Z) (num_to_steal : Z)
    (stolen : list value_type) (m : fixed_hashmap)
    : outcome (list value_type * fixed_hashmap) :=
  if bool_decide (0 < num_to_steal) && bool_decide (0 ≤ stolen_bucket_ m) then
    match fuel with
    | O => Fault out_of_fuel
    | S fuel' =>
        if bool_decide (k_max_steal_iterations <
                        (start_bucket - to_size_t (stolen_bucket_ m)) `mod` size_max)
        then Ok (stolen, m)
        else
          bucket ← mmap_array_index (table_ m) (stolen_bucket_ m);
          '(num', bucket', stolen', size') ←
            steal_from_bucket (Z.to_nat num_to_steal) num_to_steal bucket stolen (size_ m);
          let m1 := set_size size' (store_bucket (stolen_bucket_ m) bucket' m) in
          if bool_decide (stolen_bucket_ m = 0) then
            _ ← (if TreeList.empty bucket' then assert (bool_decide (size_ m1 = 0)) else Ok ());
            Ok (stolen', m1)
          else
            let m2 :=
              if TreeList.empty bucket' && bool_decide (0 < stolen_bucket_ m1)
              then set_stolen_bucket (stolen_bucket_ m1 - 1) m1 else m1 in
            steal_loop fuel' start_bucket num' stolen' m2
    end
  else Ok (stolen, m).

(** [steal_elements(int64_t num_to_steal)]: the argument is converted to
    [int64_t] at the call. *)
Definition steal_elements (num_to_steal : Z) (m : fixed_hashmap)
    : outcome (list value_type * fixed_hashmap) :=
  steal_loop (Z.to_nat (stolen_bucket_ m + 1)) (to_size_t (stolen_bucket_ m))
             (to_int64 num_to_steal) [] m.

(** The elements of the table in iteration order. *)
Definition elements (m : fixed_hashmap) : list value_type :=
  concat (TreeList.elements <$> table_ m).

End fixed_hashmap.

Arguments fixed_hashmap : clear implicits.
Arguments iterator : clear implicits.

(** *** A loop over a table *)

Section fixed_hashmap_loop.
Context {Key Mapped Hash TablePtr : Type}.

(** The loop [for (; it != end(); ++it)] that visits [*it], entered at [it],
    on the table [m]. *)
Fixpoint visit_from (fuel : nat) (this : TablePtr) (m : fixed_hashmap Key Mapped Hash)
    (it : iterator TablePtr) : outcome (list (Key * Mapped)) :=
  if iterator_ne it (end_it this) then
    match fuel with
    | O => Fault out_of_fuel
    | S fuel' =>
        d ← deref (table_ m) it;
        it' ← increase (table_ m) it;
        rest ← visit_from fuel' this m it';
        Ok (d :: rest)
    end
  else Ok [].

(** [for (auto it = begin(); it != end(); ++it)]. *)
Definition visit (fuel : nat) (this : TablePtr) (m : fixed_hashmap Key Mapped Hash)
    : outcome (list (Key * Mapped)) :=
  it ← begin this m; visit_from fuel this m it.

End fixed_hashmap_loop.

Abbreviation value_type Key Mapped := (Key * Mapped)%type.
Abbreviation bucket_type Key Mapped := (TreeList.tree_list_base (Key * Mapped)).
Abbreviation mmap_array Key Mapped := (list (TreeList.tree_list_base (Key * Mapped))).

End FixedHashmap.

(** ** hashmap.h *)

Module Hashmap.

Definition k_iter_end : bool := true.
Definition k_iter_valid : bool := false.
Definition k_item_found : bool := true.
Definition k_item_not_found : bool := false.
Definition k_num_items_to_steal : Z := 1.

(** The two arrays an inner iterator can point into: [&current_.table_] and
    [&old_.table_]. *)
Inductive table_ptr : Set := current_table | old_table.

#[global] Instance table_ptr_eq_dec : EqDecision table_ptr.
Proof. solve_decision. Defined.

Section hashmap.
Context {Key Mapped Hash : Type} `{EqDecision Key}.
Context (key_less : Key → Key → bool).
Context (hash_call : Hash → Key → Z).
Context (default_hash : Hash).
Context (default_mapped : Mapped).

Abbreviation fixed_map_type := (FixedHashmap.fixed_hashmap Key Mapped Hash).
Abbreviation fixed_iterator := (FixedHashmap.iterator table_ptr).
Abbreviation value_type := (Key * Mapped)%type.
Abbreviation fixed_insert := (FixedHashmap.insert key_less hash_call).
Abbreviation fixed_emplace := (FixedHashmap.emplace key_less hash_call).
Abbreviation fixed_at := (FixedHashmap.at_ key_less hash_call default_mapped).
Abbreviation fixed_at_const := (FixedHashmap.at_const hash_call).
Abbreviation fixed_erase := (FixedHashmap.erase hash_call).
Abbreviation fixed_find := (FixedHashmap.find hash_call).
Abbreviation fixed_contains := (FixedHashmap.contains hash_call).

Record hashmap : Type := mk_hashmap {
  current_ : fixed_map_type;
  old_ : fixed_map_type;
  rehashing_ : bool;
}.

Definition set_current (c : fixed_map_type) (m : hashmap) : hashmap :=
  mk_hashmap c (old_ m) (rehashing_ m).
Definition set_old (o : fixed_map_type) (m : hashmap) : hashmap :=
  mk_hashmap (current_ m) o (rehashing_ m).
Definition set_rehashing (r : bool) (m : hashmap) : hashmap :=
  mk_hashmap (current_ m) (old_ m) r.

(** [hashmap(initial_size, hash)]. *)
Definition hashmap_new (initial_size : Z) (hash : Hash) : outcome hashmap :=
  c ← FixedHashmap.fixed_hashmap_new initial_size hash;
  o ← FixedHashmap.fixed_hashmap_new initial_size hash;
  Ok (mk_hashmap c o false).

(** *** Iterators *)

(** [hashmap_iterator_base]; the pointers to [current_] and [old_] are the
    same in every iterator of a map and are not repeated here. *)
Record iterator : Type := mk_iterator {
  it_ : fixed_iterator;
  end_ : bool;
  which_ : Z;
}.

(** The five-argument constructor: the member initialiser of [which_] is
    [which_(0)]. *)
Definition iterator_new (which : Z) (it : fixed_iterator) (end_flag : bool) : iterator :=
  mk_iterator it end_flag 0.

Definition new_iterator := iterator_new.

(** The three-argument constructor: [it_(current->end()), which_(0)]. *)
Definition iterator_new_end (end_flag : bool) : iterator :=
  mk_iterator (FixedHashmap.end_it current_table) end_flag 0.

Definition iterator_eq (a b : iterator) : bool :=
  if end_ a && end_ b then true
  else if end_ a || end_ b then false
  else if negb (bool_decide (which_ a = which_ b)) then false
  else FixedHashmap.iterator_ne (it_ a) (it_ b).

Definition iterator_ne (a b : iterator) : bool := negb (iterator_eq a b).

(** The array behind a pointer held by an inner iterator. *)
Definition table_of (m : hashmap) (p : table_ptr) : FixedHashmap.mmap_array Key Mapped :=
  match p with
  | current_table => FixedHashmap.table_ (current_ m)
  | old_table => FixedHashmap.table_ (old_ m)
  end.

(** [++it_] and [*it_] on the inner iterator. *)
Definition inner_increase (m : hashmap) (it : fixed_iterator) : outcome fixed_iterator :=
  FixedHashmap.increase (table_of m (FixedHashmap.it_table_ it)) it.

Definition deref (m : hashmap) (it : iterator) : outcome value_type :=
  FixedHashmap.deref (table_of m (FixedHashmap.it_table_ (it_ it))) (it_ it).

Definition begin (m : hashmap) : outcome iterator :=
  it ← FixedHashmap.begin current_table (current_ m);
  if FixedHashmap.iterator_eq it (FixedHashmap.end_it current_table) then
    it ← FixedHashmap.begin old_table (old_ m);
    if FixedHashmap.iterator_eq it (FixedHashmap.end_it old_table)
    then Ok (new_iterator 0 it k_iter_end)
    else Ok (new_iterator 1 it k_iter_valid)
  else Ok (new_iterator 0 it k_iter_valid).

Definition end_it : iterator := iterator_new_end k_iter_end.

Definition increase (m : hashmap) (it : iterator) : outcome iterator :=
  if end_ it then Fault out_of_range
  else if bool_decide (which_ it = 0) then
    it1 ← inner_increase m (it_ it);
    if FixedHashmap.iterator_ne it1 (FixedHashmap.end_it current_table)
    then Ok (mk_iterator it1 (end_ it) (which_ it))
    else
      it2 ← FixedHashmap.begin old_table (old_ m);
      if FixedHashmap.iterator_eq it2 (FixedHashmap.end_it old_table)
      then Ok (mk_iterator it2 true 0)
      else Ok (mk_iterator it2 (end_ it) 1)
  else
    it1 ← inner_increase m (it_ it);
    if FixedHashmap.iterator_ne it1 (FixedHashmap.end_it old_table)
    then Ok (mk_iterator it1 (end_ it) (which_ it))
    else Ok (mk_iterator it1 true 0).

(** The loop [for (it = begin(); it != end(); ++it)] that visits the element
    under [it], entered at [it]; the result lists the elements visited. *)
Fixpoint iterate_from (fuel : nat) (m : hashmap) (it : iterator) : outcome (list value_type) :=
  if iterator_ne it end_it then
    match fuel with
    | O => Fault out_of_fuel
    | S fuel' =>
        d ← deref m it;
        it' ← increase m it;
        rest ← iterate_from fuel' m it';
        Ok (d :: rest)
    end
  else Ok [].

(** *** Resizing *)

Definition rehash (new_size : Z) (m : hashmap) : outcome hashmap :=
  _ ← assert (FixedHashmap.empty (old_ m));
  fresh ← FixedHashmap.fixed_hashmap_new new_size default_hash;
  let old1 := FixedHashmap.move_assign (old_ m) fresh in
  let '(old2, current2) := FixedHashmap.swap old1 (current_ m) in
  Ok (mk_hashmap current2 old2 true).

Definition shrink := rehash.

(** [maybe_rehash].  The products are [size_t] products of a node count or
    of a bucket count (below [2^31]) with at most 4; like the counters, they
    stay below [2^64] and are written without wrap-around. *)
Definition maybe_rehash (m : hashmap) : outcome hashmap :=
  if rehashing_ m then Ok m
  else
    let map_size := FixedHashmap.size (current_ m) in
    let bucket_size := FixedHashmap.get_bucket_count (current_ m) in
    if bool_decide (bucket_size * 3 ≤ map_size * 4)
    then rehash (bucket_size * 2) m
    else if bool_decide (map_size * 4 < bucket_size) && bool_decide (16 < bucket_size)
    then shrink (map_size * 3) m
    else Ok m.

Definition on_rehashing_finished (m : hashmap) : outcome hashmap :=
  fresh ← FixedHashmap.fixed_hashmap_new 1 default_hash;
  Ok (set_old (FixedHashmap.move_assign (old_ m) fresh) m).

(** The loop [for (auto& element : elements) current_.insert(...)]. *)
Fixpoint insert_all (elements : list value_type) (c : fixed_map_type) : outcome fixed_map_type :=
  match elements with
  | [] => Ok c
  | e :: rest =>
      '(_, _, c') ← fixed_insert current_table e c;
      insert_all rest c'
  end.

Definition move_progressively (m : hashmap) : outcome hashmap :=
  if negb (rehashing_ m) then Ok m
  else
    '(elements, old') ← FixedHashmap.steal_elements k_num_items_to_steal (old_ m);
    let m1 := set_old old' m in
    if bool_decide (elements = []) && FixedHashmap.empty old'
    then on_rehashing_finished (set_rehashing false m1)
    else
      c ← insert_all elements (current_ m1);
      Ok (set_current c m1).

(** *** Public operations *)

(** The part of [insert] between the migration step and the destructor of
    the guard. *)
Definition insert_body (kv : value_type) (m : hashmap) : outcome (iterator * bool * hashmap) :=
  if negb (rehashing_ m) then
    '(it, inserted, c) ← fixed_insert current_table kv (current_ m);
    Ok (iterator_new 0 it k_iter_valid, inserted, set_current c m)
  else
    it_old ← fixed_find old_table kv.1 (old_ m);
    if FixedHashmap.iterator_ne it_old (FixedHashmap.end_it old_table)
    then Ok (iterator_new 1 it_old k_iter_valid, k_item_not_found, m)
    else
      '(it, inserted, c) ← fixed_insert current_table kv (current_ m);
      Ok (iterator_new 0 it k_iter_valid, inserted, set_current c m).

Definition insert (kv : value_type) (m : hashmap) : outcome (iterator * bool * hashmap) :=
  m1 ← move_progressively m;
  '(it, inserted, m2) ← insert_body kv m1;
  m3 ← maybe_rehash m2;
  Ok (it, inserted, m3).

Definition emplace_body (kv : value_type) (m : hashmap) : outcome (iterator * bool * hashmap) :=
  if negb (rehashing_ m) then
    '(it, inserted, c) ← fixed_emplace current_table kv (current_ m);
    Ok (iterator_new 0 it k_iter_valid, inserted, set_current c m)
  else
    it_old ← fixed_find old_table kv.1 (old_ m);
    if FixedHashmap.iterator_ne it_old (FixedHashmap.end_it old_table)
    then Ok (iterator_new 1 it_old k_iter_valid, k_item_not_found, m)
    else
      '(it, inserted, c) ← fixed_emplace current_table kv (current_ m);
      Ok (iterator_new 0 it k_iter_valid, inserted, set_current c m).

Definition emplace (kv : value_type) (m : hashmap) : outcome (iterator * bool * hashmap) :=
  m1 ← move_progressively m;
  '(it, inserted, m2) ← emplace_body kv m1;
  m3 ← maybe_rehash m2;
  Ok (it, inserted, m3).

Definition at_body (key : Key) (m : hashmap) : outcome (Mapped * hashmap) :=
  if negb (rehashing_ m) then
    '(v, c) ← fixed_at key (current_ m);
    Ok (v, set_current c m)
  else
    it_old ← fixed_find old_table key (old_ m);
    if FixedHashmap.iterator_ne it_old (FixedHashmap.end_it old_table)
    then d ← FixedHashmap.deref (FixedHashmap.table_ (old_ m)) it_old; Ok (d.2, m)
    else
      '(v, c) ← fixed_at key (current_ m);
      Ok (v, set_current c m).

(** [at], non-const. *)
Definition at_ (key : Key) (m : hashmap) : outcome (Mapped * hashmap) :=
  m1 ← move_progressively m;
  '(v, m2) ← at_body key m1;
  m3 ← maybe_rehash m2;
  Ok (v, m3).

(** [operator[]], non-const. *)
Definition subscript := at_.

(** [at], const. *)
Definition at_const (key : Key) (m : hashmap) : outcome Mapped :=
  if negb (rehashing_ m) then fixed_at_const key (current_ m)
  else
    it_old ← fixed_find old_table key (old_ m);
    if FixedHashmap.iterator_ne it_old (FixedHashmap.end_it old_table)
    then d ← FixedHashmap.deref (FixedHashmap.table_ (old_ m)) it_old; Ok d.2
    else fixed_at_const key (current_ m).

Definition erase (key : Key) (m : hashmap) : outcome (Z * hashmap) :=
  m1 ← move_progressively m;
  '(n, m2) ←
    (if negb (rehashing_ m1) then
       '(n, c) ← fixed_erase key (current_ m1);
       Ok (n, set_current c m1)
     else
       '(num1, c) ← fixed_erase key (current_ m1);
       '(num2, o) ← fixed_erase key (old_ m1);
       m' ← maybe_rehash (set_old o (set_current c m1));
       Ok (num1 `max` num2, m'));
  m3 ← maybe_rehash m2;
  Ok (n, m3).

(** [find(const Key&)].  The statement in the [if (!rehashing_)] block builds
    an iterator and drops it; control continues below the block. *)
Definition find (key : Key) (m : hashmap) : outcome (iterator * hashmap) :=
  _ ← (if negb (rehashing_ m)
       then it ← fixed_find current_table key (current_ m); Ok ()
       else Ok ());
  let current_is_larger := bool_decide (FixedHashmap.size (old_ m) < FixedHashmap.size (current_ m)) in
  let larger := if current_is_larger then current_ m else old_ m in
  let smaller := if current_is_larger then old_ m else current_ m in
  let larger_ptr := if current_is_larger then current_table else old_table in
  let smaller_ptr := if current_is_larger then old_table else current_table in
  let larger_index := if current_is_larger then 0 else 1 in
  it ← fixed_find larger_ptr key larger;
  if FixedHashmap.iterator_ne it (FixedHashmap.end_it larger_ptr)
  then Ok (new_iterator larger_index it k_iter_valid, m)
  else
    it ← fixed_find smaller_ptr key smaller;
    if FixedHashmap.iterator_ne it (FixedHashmap.end_it smaller_ptr)
    then Ok (new_iterator (1 - larger_index) it k_iter_valid, m)
    else Ok (new_iterator 0 (FixedHashmap.end_it current_table) k_iter_end, m).

Definition contains (key : Key) (m : hashmap) : outcome (bool * hashmap) :=
  in_current ← fixed_contains key (current_ m);
  if (in_current : bool) then Ok (true, m)
  else in_old ← fixed_contains key (old_ m); Ok (in_old, m).

Definition size (m : hashmap) : Z :=
  FixedHashmap.size (current_ m) + FixedHashmap.size (old_ m).

Definition clear (m : hashmap) : outcome hashmap :=
  c ← FixedHashmap.clear (current_ m);
  o ← FixedHashmap.clear (old_ m);
  Ok (mk_hashmap c o false).

End hashmap.

Arguments hashmap : clear implicits.

Section hashmap_from_pairs.
Context {Key Mapped Hash : Type} `{EqDecision Key}.
Context (key_less : Key → Key → bool).
Context (hash_call : Hash → Key → Z).
Context (default_hash : Hash).

(** The loop [for (auto& pair : pairs) insert(pair)] of the constructor
    below. *)
Fixpoint insert_pairs (pairs : list (Key * Mapped)) (m : hashmap Key Mapped Hash)
    : outcome (hashmap Key Mapped Hash) :=
  match pairs with
  | [] => Ok m
  | kv :: rest =>
      '(_, _, m') ← insert key_less hash_call default_hash kv m;
      insert_pairs rest m'
  end.

(** [hashmap(pairs, initial_size, hash)]. *)
Definition hashmap_of_pairs (pairs : list (Key * Mapped)) (initial_size : Z) (hash : Hash)
    : outcome (hashmap Key Mapped Hash) :=
  m ← hashmap_new initial_size hash;
  insert_pairs pairs m.

End hashmap_from_pairs.

End Hashmap.

(** * Well-formedness and invariants *)

Module TreeListInv.
Import TreeList.
Section tree_list_inv.
Context {T : Type}.

(** Every node carries the colour the constructor gave it. *)
Fixpoint all_red (t : rb_node_type T) : Prop :=
  match t with
  | rb_null => True
  | rb_node c l _ r => c = k_red ∧ all_red l ∧ all_red r
  end.

(** The state of a bucket that the operations keep: [size_] counts the nodes,
    the tag names the member of the union that is in use, and a tree holds
    red nodes only. *)
Definition bucket_wf (b : tree_list_base T) : Prop :=
  TreeList.size_ b = Z.of_nat (length (elements b)) ∧
  match ds_type_ b, head_root_ b with
  | k_linked_list, holds_head _ => True
  | k_linked_list, holds_root t => t = rb_null
  | k_red_black_tree, holds_root t => all_red t
  | k_red_black_tree, holds_head _ => False
  end.

(** The elements that an in-order walk visits before it enters the subtree
    that [p] names, and those it visits after it has left that subtree. *)
Fixpoint before (t : rb_node_type T) (p : list direction) : list T :=
  match p with
  | [] => []
  | d :: p' =>
      match d with
      | go_left => before t p'
      | go_right =>
          match node_at t p' with
          | rb_node _ l x _ => before t p' ++ inorder l ++ [x]
          | rb_null => before t p'
          end
      end
  end.

Fixpoint after (t : rb_node_type T) (p : list direction) : list T :=
  match p with
  | [] => []
  | d :: p' =>
      match d with
      | go_left =>
          match node_at t p' with
          | rb_node _ _ x r => x :: inorder r ++ after t p'
          | rb_null => after t p'
          end
      | go_right => after t p'
      end
  end.

(** [it] names the element [d] of the bucket, which stands between [l1] and
    [l2] in iteration order. *)
Definition names (b : tree_list_base T) (it : mixed_node_type) (l1 : list T) (d : T) (l2 : list T) : Prop :=
  match node_ds_type_ it, node_ptr_ it, head_root_ b with
  | k_linked_list, list_ref i, holds_head l => l = l1 ++ d :: l2 ∧ i = length l1
  | k_red_black_tree, tree_ref p, holds_root t =>
      ∃ c l r, node_at t p = rb_node c l d r ∧
               l1 = before t p ++ inorder l ∧ l2 = inorder r ++ after t p
  | _, _, _ => False
  end.

(** The parent of the link that [p] names exists. *)
Definition link_ok (t : rb_node_type T) (p : list direction) : Prop :=
  match p with [] => True | _ :: p' => is_null (node_at t p') = false end.

(** The next [insert] attempts the transition back to a list. *)
Definition demotion_due (b : tree_list_base T) : Prop :=
  ds_type_ b = k_red_black_tree ∧ TreeList.size_ b ≤ 3.

(** A bucket that has only grown: a list holds at most ten elements and a
    tree more than three. *)
Definition grown (b : tree_list_base T) : Prop :=
  (ds_type_ b = k_linked_list → TreeList.size_ b ≤ 10) ∧
  (ds_type_ b = k_red_black_tree → 3 < TreeList.size_ b).

End tree_list_inv.
End TreeListInv.

Module RedBlack.
Import TreeList.
Section red_black.
Context {T : Type} (compare : T → T → bool).

(** The five properties of a red-black tree, as checks on a tree. *)
Definition root_is_black (t : rb_node_type T) : bool := null_or_black t.

Fixpoint red_nodes_have_black_children (t : rb_node_type T) : bool :=
  match t with
  | rb_null => true
  | rb_node c l _ r =>
      (if bool_decide (c = k_red) then null_or_black l && null_or_black r else true)
      && red_nodes_have_black_children l && red_nodes_have_black_children r
  end.

(** The number of black nodes on every path from [t] down to a null link, if
    all paths agree. *)
Fixpoint black_height (t : rb_node_type T) : option nat :=
  match t with
  | rb_null => Some 0%nat
  | rb_node c l _ r =>
      match black_height l, black_height r with
      | Some hl, Some hr =>
          if bool_decide (hl = hr)
          then Some (if bool_decide (c = k_black) then S hl else hl)
          else None
      | _, _ => None
      end
  end.

(** No element is followed by one that [compare] puts before it. *)
Fixpoint sorted (l : list T) : bool :=
  match l with
  | x :: (y :: _) as l' => negb (compare y x) && sorted l'
  | _ => true
  end.

Definition valid_red_black_tree (b : tree_list_base T) : bool :=
  let t := tree_of b in
  root_is_black t && red_nodes_have_black_children t
  && bool_decide (is_Some (black_height t))
  && sorted (inorder t)
  && bool_decide (Z.of_nat (node_count t) = TreeList.size_ b).

(** [insert] called once per element, in order. *)
Fixpoint insert_each (l : list T) (b : tree_list_base T) : outcome (tree_list_base T) :=
  match l with
  | [] => Ok b
  | x :: l' => '(_, b') ← insert compare x b; insert_each l' b'
  end.

(** [erase(begin())] called [n] times. *)
Fixpoint erase_front (n : nat) (b : tree_list_base T) : outcome (tree_list_base T) :=
  match n with
  | O => Ok b
  | S n' => it ← begin b; '(_, b') ← erase it b; erase_front n' b'
  end.

End red_black.
End RedBlack.

Module FixedHashmapInv.
Import FixedHashmap.
Section fixed_hashmap_inv.
Context {Key Mapped Hash : Type} `{EqDecision Key}.
Context (hash_call : Hash → Key → Z).
Implicit Types (m : fixed_hashmap Key Mapped Hash).

(** The elements of a run of slots, in iteration order. *)
Definition flat (l : list (bucket_type Key Mapped)) : list (value_type Key Mapped) :=
  concat (TreeList.elements <$> l).

Definition keys m : list Key := (elements m).*1.

(** The slot that [hash] computes for a key, when the table has a slot. *)
Definition index_of m (key : Key) : Z :=
  to_size_t (hash_call (hash_function_ m) key) `mod` get_bucket_count m.

(** Every slot is a well-formed bucket and [size_] counts the elements. *)
Definition table_ok m : Prop :=
  Forall TreeListInv.bucket_wf (table_ m) ∧
  size_ m = Z.of_nat (length (elements m)).

(** Every element sits in the slot of its key. *)
Definition placed m : Prop :=
  ∀ i b kv, table_ m !! i = Some b → kv ∈ TreeList.elements b →
            index_of m kv.1 = Z.of_nat i.

Definition table_wf m : Prop :=
  table_ok m ∧ placed m ∧ NoDup (keys m).

(** The cursor is a slot index or [-1], and every slot above it is empty. *)
Definition cursor_ok m : Prop :=
  -1 ≤ stolen_bucket_ m < get_bucket_count m ∧
  ∀ i b, stolen_bucket_ m < Z.of_nat i → table_ m !! i = Some b →
         TreeList.elements b = [].

(** The table after slot [i] has been rewritten and [size_] set to [n]. *)
Definition rewritten (i : nat) (b : bucket_type Key Mapped) (n : Z) m
    : fixed_hashmap Key Mapped Hash :=
  set_size n (store_bucket (Z.of_nat i) b m).

(** [m'] is [m] after at most [k] elements have left each slot: same
    length, same hash function, and every slot keeps its representation. *)
Definition drained (k : Z) m m' : Prop :=
  hash_function_ m' = hash_function_ m ∧
  length (table_ m') = length (table_ m) ∧
  ∀ i b', table_ m' !! i = Some b' →
    ∃ b, table_ m !! i = Some b ∧
         TreeList.ds_type_ b' = TreeList.ds_type_ b ∧
         TreeList.size_ b - k ≤ TreeList.size_ b' ∧
         ∀ x, x ∈ TreeList.elements b' → x ∈ TreeList.elements b.

(** Every slot that holds a tree holds more than [n] elements. *)
Definition tree_floor (n : Z) m : Prop :=
  Forall (λ b, TreeList.ds_type_ b = TreeList.k_red_black_tree → n < TreeList.size_ b)
         (table_ m).

(** No slot holds a tree of three or fewer elements. *)
Definition no_collapsed_tree m : Prop := tree_floor 3 m.

End fixed_hashmap_inv.
End FixedHashmapInv.

Module HashmapInv.
Import Hashmap.
Section hashmap_inv.
Context {Key Mapped Hash : Type} `{EqDecision Key}.
Context (key_less : Key → Key → bool).
Context (hash_call : Hash → Key → Z).
Context (default_hash : Hash).
Context (default_mapped : Mapped).
Implicit Types (m : hashmap Key Mapped Hash).

(** The public calls that change a map. *)
Inductive operation : Type :=
  | op_insert (kv : Key * Mapped)
  | op_emplace (kv : Key * Mapped)
  | op_at (key : Key)
  | op_subscript (key : Key)
  | op_erase (key : Key)
  | op_clear.

Definition run (op : operation) m : outcome (hashmap Key Mapped Hash) :=
  match op with
  | op_insert kv => '(_, _, m') ← insert key_less hash_call default_hash kv m; Ok m'
  | op_emplace kv => '(_, _, m') ← emplace key_less hash_call default_hash kv m; Ok m'
  | op_at key => '(_, m') ← at_ key_less hash_call default_hash default_mapped key m; Ok m'
  | op_subscript key =>
      '(_, m') ← subscript key_less hash_call default_hash default_mapped key m; Ok m'
  | op_erase key => '(_, m') ← erase key_less hash_call default_hash key m; Ok m'
  | op_clear => clear m
  end.

(** The statements of a mutating call that follow its first one, the call
    of [move_progressively]. *)
Definition run_after_step (op : operation) m : outcome (hashmap Key Mapped Hash) :=
  match op with
  | op_insert kv =>
      '(_, _, m2) ← insert_body key_less hash_call kv m; maybe_rehash default_hash m2
  | op_emplace kv =>
      '(_, _, m2) ← emplace_body key_less hash_call kv m; maybe_rehash default_hash m2
  | op_at key | op_subscript key =>
      '(_, m2) ← at_body key_less hash_call default_mapped key m; maybe_rehash default_hash m2
  | op_erase key =>
      '(_, m2) ←
        (if negb (rehashing_ m) then
           '(n, c) ← FixedHashmap.erase hash_call key (current_ m);
           Ok (n, set_current c m)
         else
           '(num1, c) ← FixedHashmap.erase hash_call key (current_ m);
           '(num2, o) ← FixedHashmap.erase hash_call key (old_ m);
           m' ← maybe_rehash default_hash (set_old o (set_current c m));
           Ok (num1 `max` num2, m'));
      maybe_rehash default_hash m2
  | op_clear => clear m
  end.

Fixpoint run_all (ops : list operation) m : outcome (hashmap Key Mapped Hash) :=
  match ops with
  | [] => Ok m
  | op :: ops' => m' ← run op m; run_all ops' m'
  end.

(** The number of elements that a call removes for good. *)
Definition erased_by (op : operation) : Z :=
  match op with op_erase _ => 1 | _ => 0 end.

(** The states a program can bring a map into: a constructor call followed
    by public calls that all return. *)
Definition reachable m : Prop :=
  ∃ (initial_size : Z) (hash : Hash) (ops : list operation),
    hashmap_new initial_size hash ≫= run_all ops = Ok m.

(** The bindings of the map: those of [current_], then those of [old_]. *)
Definition contents m : list (Key * Mapped) :=
  FixedHashmap.elements (current_ m) ++ FixedHashmap.elements (old_ m).

Definition bound m (k : Key) (v : Mapped) : Prop := (k, v) ∈ contents m.

(** What every public call maintains: both tables are well formed; no key
    sits in both; [old_] is empty unless a migration is under way, and during
    a migration its cursor has every slot above it empty; the cursor of
    [current_] is the one its constructor set; during a migration [current_]
    hashes with [Hash()]. *)
Record Inv m : Prop := mk_Inv {
  current_wf : FixedHashmapInv.table_wf hash_call (current_ m);
  old_wf : FixedHashmapInv.table_wf hash_call (old_ m);
  keys_unique : NoDup (contents m).*1;
  idle_old_empty : rehashing_ m = false → FixedHashmap.elements (old_ m) = [];
  busy_old_cursor :
    rehashing_ m = true →
    FixedHashmapInv.cursor_ok (old_ m) ∧ FixedHashmap.get_bucket_count (old_ m) ≠ 0;
  current_cursor :
    FixedHashmap.get_bucket_count (current_ m) = 0 ∨
    FixedHashmap.stolen_bucket_ (current_ m) = FixedHashmap.get_bucket_count (current_ m) - 1;
  no_slot_no_old :
    FixedHashmap.get_bucket_count (current_ m) = 0 → FixedHashmap.elements (old_ m) = [];
  current_bound : FixedHashmap.get_bucket_count (current_ m) < 2 ^ 31;
  busy_current_hash :
    rehashing_ m = true → FixedHashmap.hash_function_ (current_ m) = default_hash;
}.

(** The elements that the loop [for (it = begin(); it != end(); ++it)]
    visits. *)
Definition iterate (fuel : nat) m : outcome (list (Key * Mapped)) :=
  it ← begin m; iterate_from fuel m it.

End hashmap_inv.
End HashmapInv.

Module TreeListFacts.
Import TreeList.
Section tree_list_facts.
Context {T : Type} (compare : T → T → bool).

(** The descent of [tree_insert_node] and of [tree_search_normal] goes the
    same way at every node: [compare] sends the data of a left subtree to the
    left of its parent and those of a right subtree to the right. *)
Fixpoint search_tree (t : rb_node_type T) : Prop :=
  match t with
  | rb_null => True
  | rb_node _ l d r =>
      (∀ x, x ∈ inorder l → compare x d = true) ∧
      (∀ x, x ∈ inorder r → compare x d = false) ∧
      search_tree l ∧ search_tree r
  end.

Definition search_bucket (b : tree_list_base T) : Prop := search_tree (tree_of b).

End tree_list_facts.
End TreeListFacts.

Module IterationFacts.
Import FixedHashmap.
Section iteration_facts.
Context {Key Mapped TablePtr : Type}.

(** The iterator [it] of the table behind [this] stands at the element [d],
    and [rest] are the elements that follow [d] in slot order. *)
Definition position (this : TablePtr) (table : mmap_array Key Mapped) (it : iterator TablePtr)
    (d : Key * Mapped) (rest : list (Key * Mapped)) : Prop :=
  ∃ pre b post l1 l2,
    table = pre ++ b :: post ∧
    it_table_ it = this ∧ index_ it = Z.of_nat (length pre) ∧ end_ it = false ∧
    TreeListInv.names b (bucket_it_ it) l1 d l2 ∧
    rest = l2 ++ FixedHashmapInv.flat post.

End iteration_facts.
End IterationFacts.

Module HashmapFacts.
Import Hashmap.
Section hashmap_facts.
Context {Key Mapped Hash : Type} `{EqDecision Key}.
Implicit Types (m : hashmap Key Mapped Hash).

(** Unless a migration is under way, [current_] has no slot or is filled to
    less than three quarters. *)
Definition load_ok m : Prop :=
  rehashing_ m = false →
  FixedHashmap.get_bucket_count (current_ m) = 0 ∨
  FixedHashmap.size (current_ m) * 4 < FixedHashmap.get_bucket_count (current_ m) * 3.

(** The value of the first pair with key [k]. *)
Fixpoint first_binding (k : Key) (pairs : list (Key * Mapped)) : option Mapped :=
  match pairs with
  | [] => None
  | (k', v) :: rest => if bool_decide (k' = k) then Some v else first_binding k rest
  end.

End hashmap_facts.
End HashmapFacts.

(** ** Concrete tables and maps *)

Module Examples.

(** Keys are integers and the hasher returns the key. *)
Definition identity_hash (h : unit) (k : Z) : Z := k.

(** A table of three slots out of which nothing has been stolen yet. *)
Definition drained_table : FixedHashmap.fixed_hashmap Z Z unit :=
  FixedHashmap.mk_fixed_hashmap
    [TreeList.zeroed;
     TreeList.mk_tree_list (TreeList.holds_head [(4, 40); (1, 10)]) 2 TreeList.k_linked_list;
     TreeList.mk_tree_list (TreeList.holds_head [(2, 20)]) 1 TreeList.k_linked_list]
    3 () 2.

(** A list bucket with the given chain. *)
Definition chain (l : list (Z * Z)) : TreeList.tree_list_base (Z * Z) :=
  TreeList.mk_tree_list (TreeList.holds_head l) (Z.of_nat (length l)) TreeList.k_linked_list.

(** [hashmap m(2); m.insert({1, 10}); m.insert({2, 20});]: the second
    insertion has started a migration, and nothing has moved yet. *)
Definition migrating_map : Hashmap.hashmap Z Z unit :=
  Hashmap.mk_hashmap
    (FixedHashmap.mk_fixed_hashmap (replicate 4 TreeList.zeroed) 0 () 3)
    (FixedHashmap.mk_fixed_hashmap [chain [(2, 20)]; chain [(1, 10)]] 2 () 1)
    true.

Definition migrating_map_calls : list (HashmapInv.operation (Key:=Z) (Mapped:=Z)) :=
  [HashmapInv.op_insert (1, 10); HashmapInv.op_insert (2, 20)].

(** [migrating_map] after the migration step of the next call. *)
Definition migrating_map_stepped : Hashmap.hashmap Z Z unit :=
  Hashmap.mk_hashmap
    (FixedHashmap.mk_fixed_hashmap [chain []; chain [(1, 10)]; chain []; chain []] 1 () 3)
    (FixedHashmap.mk_fixed_hashmap [chain [(2, 20)]; chain []] 1 () 0)
    true.

(** [migrating_map] after [clear()]. *)
Definition cleared_map : Hashmap.hashmap Z Z unit :=
  Hashmap.mk_hashmap
    (FixedHashmap.mk_fixed_hashmap [] 0 () 3)
    (FixedHashmap.mk_fixed_hashmap [] 0 () 1)
    false.

(** The iterator that [begin()] returns on [migrating_map]: it names the
    head of slot 0 of [old_]. *)
Definition migrating_map_begin : Hashmap.iterator :=
  Hashmap.mk_iterator
    (FixedHashmap.mk_iterator Hashmap.old_table
       (TreeList.list_iterator (TreeList.list_ref 0)) 0 false)
    false 0.

(** Eleven keys that share slot 0 of a table of 16 slots, then a twelfth
    key, which starts the migration, then eleven calls that find their key
    and move one element each. *)
Definition crowded_slot_calls : list (HashmapInv.operation (Key:=Z) (Mapped:=Z)) :=
  ((λ i : nat, HashmapInv.op_insert (16 * Z.of_nat i, 0)) <$> seq 0 11) ++
  [HashmapInv.op_insert (1, 0)] ++
  replicate 11 (HashmapInv.op_insert (1, 0)).

(** A hasher with a state: the seed is added to the key. *)
Definition seeded_hash (seed : Z) (k : Z) : Z := seed + k.

(** [hashmap m(2, h)] with the seed of [h] equal to 7. *)
Definition seeded_map : Hashmap.hashmap Z Z Z :=
  Hashmap.mk_hashmap
    (FixedHashmap.mk_fixed_hashmap (replicate 2 TreeList.zeroed) 0 7 1)
    (FixedHashmap.mk_fixed_hashmap (replicate 2 TreeList.zeroed) 0 7 1)
    false.

(** [seeded_map] after [rehash(4)], the default seed being 0. *)
Definition seeded_map_rehashed : Hashmap.hashmap Z Z Z :=
  Hashmap.mk_hashmap
    (FixedHashmap.mk_fixed_hashmap (replicate 4 TreeList.zeroed) 0 0 3)
    (FixedHashmap.mk_fixed_hashmap (replicate 2 TreeList.zeroed) 0 7 1)
    true.

(** [hashmap m(2, h); m.insert({1, 10}); m.insert({2, 20});] with the same
    [h]: the keys sit in [old_] where [h] put them. *)
Definition seeded_map_migrating : Hashmap.hashmap Z Z Z :=
  Hashmap.mk_hashmap
    (FixedHashmap.mk_fixed_hashmap (replicate 4 TreeList.zeroed) 0 0 3)
    (FixedHashmap.mk_fixed_hashmap [chain [(1, 10)]; chain [(2, 20)]] 2 7 1)
    true.

(** [hashmap m(2); m.insert({1, 10});]: one binding and no migration. *)
Definition single_map : Hashmap.hashmap Z Z unit :=
  Hashmap.mk_hashmap
    (FixedHashmap.mk_fixed_hashmap [chain []; chain [(1, 10)]] 1 () 1)
    (FixedHashmap.mk_fixed_hashmap (replicate 2 TreeList.zeroed) 0 () 1)
    false.

Definition single_map_calls : list (HashmapInv.operation (Key:=Z) (Mapped:=Z)) :=
  [HashmapInv.op_insert (1, 10)].

(** A list of pairs in which key 1 comes twice. *)
Definition listed_pairs : list (Z * Z) := [(1, 10); (1, 11); (2, 20)].

(** [hashmap m(listed_pairs)], with the default [initial_size] of 10. *)
Definition listed_map : Hashmap.hashmap Z Z unit :=
  Hashmap.mk_hashmap
    (FixedHashmap.mk_fixed_hashmap
       ([chain []; chain [(1, 10)]; chain [(2, 20)]] ++ replicate 7 (chain [])) 2 () 9)
    (FixedHashmap.mk_fixed_hashmap (replicate 10 TreeList.zeroed) 0 () 9)
    false.

End Examples.

(** * Properties *)

#[local] Set Default Proof Using "Type".

(** ** Outcomes *)

Lemma bind_Ok_inv {A B} (x : outcome A) (f : A → outcome B) (b : B) :
  x ≫= f = Ok b → ∃ a, x = Ok a ∧ f a = Ok b.
Proof. destruct x as [a|e]; simpl; [eauto | discriminate]. Qed.

Lemma assert_Ok_inv (b : bool) (u : unit) : assert b = Ok u → b = true.
Proof. by destruct b. Qed.

(** Destructs hypotheses of the shape [x ≫= f = Ok b]. *)
Ltac inv_bind :=
  repeat match goal with
  | H : Ok _ = Ok _ |- _ => injection H as H; try subst
  | H : Fault _ = Ok _ |- _ => discriminate H
  | H : mret _ = Ok _ |- _ => injection H as H; try subst
  | H : assert _ = Ok _ |- _ => apply assert_Ok_inv in H
  | H : _ ≫= _ = Ok _ |- _ =>
      let a := fresh "a" in let Ha := fresh "Ha" in
      apply bind_Ok_inv in H as (a & Ha & H)
  end.

(** [inv_bind H as x Hx] splits the first step off [H : e ≫= f = Ok r]. *)
Tactic Notation "inv_bind" hyp(H) "as" simple_intropattern(x) ident(Hx) :=
  apply bind_Ok_inv in H as (x & Hx & H).

Section tree_facts.
Import TreeList TreeListInv.
Context {T : Type}.
Implicit Types (t s : rb_node_type T) (p q : list direction) (b : tree_list_base T).

Lemma bind_Ok {A B} (a : A) (f : A → outcome B) : Ok a ≫= f = f a.
Proof. done. Qed.

Lemma decr_pos n : 0 < n → decr n = n - 1.
Proof. intros ?. unfold decr. rewrite bool_decide_false; lia. Qed.

Lemma is_null_true t : is_null t = true ↔ t = rb_null.
Proof. by destruct t. Qed.

Lemma node_at_app t q p : node_at t (q ++ p) = node_at (node_at t p) q.
Proof. induction q as [|d q IH]; simpl; [done | by rewrite IH]. Qed.

Lemma node_at_null p : node_at (@rb_null T) p = rb_null.
Proof. induction p as [|d p IH]; simpl; [done | by rewrite IH]. Qed.

Lemma node_at_link_ok t p : is_null (node_at t p) = false → link_ok t p.
Proof.
  destruct p as [|d p]; simpl; [done |].
  destruct (node_at t p); [done | done].
Qed.

Lemma link_ok_parent t d p : link_ok t (d :: p) → link_ok t p.
Proof. simpl. apply node_at_link_ok. Qed.

Lemma inorder_split t p :
  link_ok t p → inorder t = before t p ++ inorder (node_at t p) ++ after t p.
Proof.
  induction p as [|d p IH]; simpl.
  - intros _. by rewrite app_nil_r.
  - intros Hn. rewrite (IH (node_at_link_ok _ _ Hn)).
    destruct (node_at t p) as [|c l x r]; [done |].
    destruct d; simpl; by rewrite <- ?app_assoc.
Qed.

Lemma inorder_replace_at t p s :
  link_ok t p → inorder (replace_at t p s) = before t p ++ inorder s ++ after t p.
Proof.
  revert s. induction p as [|d p IH]; simpl; intros s.
  - intros _. by rewrite app_nil_r.
  - intros Hn. rewrite (IH _ (node_at_link_ok _ _ Hn)).
    destruct (node_at t p) as [|c l x r]; [done |].
    destruct d; simpl; by rewrite <- ?app_assoc.
Qed.

Lemma all_red_node_at t p : all_red t → all_red (node_at t p).
Proof.
  intros Ht. induction p as [|d p IH]; simpl; [done |].
  destruct (node_at t p) as [|c l x r]; [done |].
  destruct IH as (_ & ? & ?). by destruct d.
Qed.

Lemma all_red_replace_at t p s : all_red t → all_red s → all_red (replace_at t p s).
Proof.
  intros Ht. revert s. induction p as [|d p IH]; simpl; intros s Hs; [done |].
  apply IH. pose proof (all_red_node_at t p Ht) as Hp.
  destruct (node_at t p) as [|c l x r]; [done |].
  destruct Hp as (? & ? & ?). by destruct d.
Qed.

Lemma replace_at_replace_at t p s1 s2 :
  link_ok t p → replace_at (replace_at t p s1) p s2 = replace_at t p s2.
Proof.
  revert s1 s2. induction p as [|d p IH]; simpl; intros s1 s2 Hn; [done |].
  pose proof (node_at_link_ok _ _ Hn) as Hp.
  assert (Hna : ∀ s, link_ok t p → node_at (replace_at t p s) p = s).
  { clear. induction p as [|d p IH]; simpl; intros s Hn; [done |].
    rewrite IH by by apply node_at_link_ok.
    destruct (node_at t p); [done |]. by destruct d. }
  rewrite Hna by done.
  destruct (node_at t p) as [|c l x r] eqn:E; [done |].
  destruct d; simpl; by rewrite IH.
Qed.

Lemma node_at_replace_at t p s : link_ok t p → node_at (replace_at t p s) p = s.
Proof.
  revert s. induction p as [|d p IH]; simpl; intros s Hn; [done |].
  rewrite IH by by apply node_at_link_ok.
  destruct (node_at t p); [done |]. by destruct d.
Qed.

Lemma replace_at_app t q p s :
  replace_at t (q ++ p) s = replace_at t p (replace_at (node_at t p) q s).
Proof.
  revert s. induction q as [|d q IH]; simpl; intros s; [done |].
  by rewrite IH, node_at_app.
Qed.

(** The leftmost node below a node. *)
Lemma descend_left_spec t s p :
  node_at t p = s → is_null s = false →
  ∃ c d r, node_at t (descend_left s p) = rb_node c rb_null d r ∧
           before t (descend_left s p) = before t p ∧
           inorder s ++ after t p = d :: inorder r ++ after t (descend_left s p).
Proof.
  revert p. induction s as [|c l IHl x r _]; intros p Hp Hs; [done |].
  destruct l as [|lc ll lx lr].
  - simpl. exists c, x, r. by rewrite Hp.
  - change (descend_left (rb_node c (rb_node lc ll lx lr) x r) p)
      with (descend_left (rb_node lc ll lx lr) (go_left :: p)).
    destruct (IHl (go_left :: p)) as (c' & d' & r' & Hn & Hb & Hi).
    { simpl. by rewrite Hp. }
    { done. }
    exists c', d', r'. split; [done |]. split.
    + rewrite Hb. simpl. by destruct (node_at t p).
    + rewrite <- Hi. simpl. rewrite Hp. simpl. by rewrite <- !app_assoc.
Qed.

Lemma descend_left_app s p : descend_left s p = descend_left s [] ++ p.
Proof.
  revert p. induction s as [|c l IHl x r _]; intros p; [done |].
  destruct l as [|lc ll lx lr]; [done |].
  change (descend_left (rb_node c (rb_node lc ll lx lr) x r) p)
    with (descend_left (rb_node lc ll lx lr) (go_left :: p)).
  change (descend_left (rb_node c (rb_node lc ll lx lr) x r) [])
    with (descend_left (rb_node lc ll lx lr) [go_left]).
  rewrite IHl, (IHl [go_left]). by rewrite <- app_assoc.
Qed.

(** The way up from a node without right child. *)
Lemma climb_from_right_spec t p :
  is_null (node_at t p) = false →
  match climb_from_right p with
  | null_ref => after t p = []
  | tree_ref q =>
      ∃ c l d r, node_at t q = rb_node c l d r ∧
                 after t p = d :: inorder r ++ after t q ∧
                 before t q ++ inorder l = before t p ++ inorder (node_at t p)
  | list_ref _ => False
  end.
Proof.
  induction p as [|d p IH]; simpl; [done |].
  intros Hn. pose proof (node_at_link_ok _ (d :: p) Hn) as Hp. simpl in Hp.
  destruct (node_at t p) as [|c l x r] eqn:E; [done |].
  destruct d; simpl in *.
  - exists c, l, x, r. by rewrite E.
  - specialize (IH eq_refl).
    destruct (climb_from_right p) as [| |q]; [done | done |].
    destruct IH as (c' & l' & d' & r' & ? & ? & Hb).
    exists c', l', d', r'. split_and!; [done | done |].
    rewrite Hb. simpl. by rewrite <- !app_assoc.
Qed.

End tree_facts.

Section iterator_facts.
Import TreeList TreeListInv.
Context {T : Type}.
Implicit Types (t s : rb_node_type T) (p q : list direction) (b : tree_list_base T).
Implicit Types (it : mixed_node_type) (d : T) (l : list T).

Lemma names_not_end b it l1 d l2 : names b it l1 d l2 → mixed_node_eq it end_ = false.
Proof.
  unfold names, mixed_node_eq. destruct it as [[] []]; simpl; try done;
    destruct (head_root_ b); done.
Qed.

Lemma names_elements b it l1 d l2 : names b it l1 d l2 → elements b = l1 ++ d :: l2.
Proof.
  unfold names, elements. destruct it as [[] [|i|p]]; simpl; try done;
    destruct (head_root_ b) as [l|t]; try done.
  - by intros [-> _].
  - intros (c & tl & tr & Hn & -> & ->).
    rewrite (inorder_split t p), Hn; simpl.
    + by rewrite <- !app_assoc.
    + apply node_at_link_ok. by rewrite Hn.
Qed.

Lemma get_data_names b it l1 d l2 : names b it l1 d l2 → get_data b it = Ok d.
Proof.
  unfold names, get_data, chain_of, tree_of. destruct it as [[] [|i|p]]; simpl; try done;
    destruct (head_root_ b) as [l|t]; try done.
  - intros [-> ->]. by rewrite list_lookup_middle.
  - intros (c & tl & tr & -> & _). done.
Qed.

Lemma walk_to_leftmost_minor_Ok t p :
  is_null (node_at t p) = false →
  walk_to_leftmost_minor t p = Ok (tree_ref (descend_left (node_at t p) p)).
Proof. unfold walk_to_leftmost_minor. by destruct (node_at t p). Qed.

Lemma begin_names b d l :
  bucket_wf b → elements b = d :: l → ∃ it, begin b = Ok it ∧ names b it [] d l.
Proof.
  intros [_ Hwf]. unfold elements, begin, read_head, read_root, names.
  destruct (ds_type_ b), (head_root_ b) as [ch|t]; simpl in *; try done.
  - intros ->. eexists. split; [done |]. simpl. done.
  - by subst t.
  - intros Ht. assert (Hnn : is_null t = false) by (by destruct t).
    rewrite walk_to_leftmost_minor_Ok by done. simpl.
    destruct (descend_left_spec t t [] eq_refl Hnn) as (c' & d' & r' & Hn & Hb & Hi).
    rewrite app_nil_r, Ht in Hi. simpl in Hb. injection Hi as -> ->.
    eexists. split; [done |]. simpl.
    exists c', rb_null, r'. rewrite Hb. done.
Qed.

Lemma begin_empty b :
  bucket_wf b → ds_type_ b = k_linked_list → elements b = [] → begin b = Ok end_.
Proof.
  intros [_ Hwf] Hds. unfold elements, begin, read_head. rewrite Hds in *.
  destruct (head_root_ b) as [ch|t]; simpl in *.
  - by intros ->.
  - by subst t.
Qed.

Lemma increment_names b it l1 d l2 :
  names b it l1 d l2 →
  ∃ it', increment b it = Ok it' ∧
    match l2 with
    | [] => mixed_node_eq it' end_ = true
    | d' :: l2' => names b it' (l1 ++ [d]) d' l2'
    end.
Proof.
  unfold names, increment, chain_of, tree_of. destruct it as [[] [|i|p]]; simpl; try done;
    destruct (head_root_ b) as [ch|t] eqn:Eb; try done.
  - intros [-> ->]. rewrite list_lookup_middle by done.
    destruct l2 as [|d' l2'].
    + rewrite lookup_ge_None_2 by (rewrite length_app; simpl; lia).
      eexists; split; done.
    + change (l1 ++ d :: d' :: l2') with (l1 ++ [d] ++ d' :: l2').
      rewrite app_assoc, list_lookup_middle by (rewrite length_app; simpl; lia).
      eexists; split; [done |]. simpl.
      rewrite length_app. simpl. split; [done | lia].
  - intros (c & tl & tr & Hn & -> & ->). unfold walk_to_next_node. rewrite Hn.
    destruct (is_null tr) eqn:Enull.
    + apply is_null_true in Enull as ->. simpl.
      pose proof (climb_from_right_spec t p) as Hc. rewrite Hn in Hc.
      specialize (Hc eq_refl).
      destruct (climb_from_right p) as [| |q].
      * rewrite Hc. eexists; split; done.
      * done.
      * destruct Hc as (c' & l' & d' & r' & Hq & -> & Hb).
        eexists; split; [done |]. simpl.
        exists c', l', r'. split_and!; [done | | done].
        rewrite Hb. simpl. by rewrite <- !app_assoc.
    + assert (Hr : node_at t (go_right :: p) = tr) by (simpl; by rewrite Hn).
      rewrite walk_to_leftmost_minor_Ok, Hr by (by rewrite Hr). simpl.
      destruct (descend_left_spec t tr (go_right :: p) Hr Enull) as (c' & d' & r' & Hn' & Hb & Hi).
      simpl in Hi. rewrite Hi.
      eexists; split; [done |]. simpl.
      exists c', rb_null, r'. split_and!; [done | | done].
      rewrite Hb. simpl. rewrite Hn. simpl. by rewrite <- !app_assoc.
Qed.

End iterator_facts.

Section bucket_facts.
Import TreeList TreeListInv.
Context {T : Type}.
Implicit Types (t s : rb_node_type T) (p q : list direction) (b : tree_list_base T).
Implicit Types (it : mixed_node_type) (d : T) (l : list T).

(** [delete_node] on a tree of red nodes removes the element under [z] and
    never enters [delete_fixup]. *)
Lemma delete_node_spec t z c zl d zr :
  all_red t → node_at t z = rb_node c zl d zr →
  ∃ t', delete_node t z = Ok t' ∧ all_red t' ∧
        inorder t' = (before t z ++ inorder zl) ++ (inorder zr ++ after t z).
Proof.
  intros Hred Hz. unfold delete_node. rewrite Hz.
  assert (Hlink : link_ok t z) by (apply node_at_link_ok; by rewrite Hz).
  pose proof (all_red_node_at t z Hred) as Hzred. rewrite Hz in Hzred.
  destruct Hzred as (-> & Hl & Hr).
  destruct (is_null zl || is_null zr) eqn:E.
  - simpl. rewrite Hz. simpl.
    rewrite (bool_decide_false (z ≠ z)) by naive_solver. simpl.
    eexists. split; [done |]. split.
    + apply all_red_replace_at; [done |]. by destruct (is_null zl).
    + rewrite inorder_replace_at by done.
      apply orb_true_iff in E as [E|E]; apply is_null_true in E; subst; simpl.
      * by rewrite <- !app_assoc.
      * destruct (is_null zl) eqn:El.
        -- apply is_null_true in El as ->. simpl. by rewrite app_nil_r.
        -- simpl. by rewrite ?app_nil_r, <- ?app_assoc.
  - apply orb_false_iff in E as [El Er].
    unfold tree_successor, tree_minimum. rewrite Hz, Er.
    assert (Hzr : node_at t (go_right :: z) = zr) by (simpl; by rewrite Hz).
    rewrite walk_to_leftmost_minor_Ok, Hzr by (by rewrite Hzr). simpl.
    rewrite descend_left_app.
    set (q := descend_left zr []).
    destruct (descend_left_spec zr zr [] eq_refl Er) as (c' & d' & r' & Hq & Hb & Hi).
    fold q in Hq, Hb, Hi. simpl in Hb. rewrite app_nil_r in Hi.
    assert (Hy : node_at t (q ++ go_right :: z) = rb_node c' rb_null d' r').
    { by rewrite node_at_app, Hzr. }
    rewrite Hy. simpl.
    rewrite (bool_decide_true (_ ≠ _)).
    2:{ intros Heq. apply (f_equal length) in Heq. rewrite length_app in Heq.
        simpl in Heq. lia. }
    pose proof (all_red_node_at zr q Hr) as Hyred. rewrite Hq in Hyred.
    destruct Hyred as (-> & _ & Hr').
    change (q ++ go_right :: z) with (q ++ [go_right] ++ z).
    rewrite app_assoc, replace_at_app, Hz.
    unfold set_data. rewrite node_at_replace_at by done.
    rewrite replace_at_app. simpl.
    rewrite replace_at_replace_at by done. simpl.
    eexists. split; [done |]. split.
    + apply all_red_replace_at; [done |]. simpl. split_and!; [done | done |].
      by apply all_red_replace_at.
    + rewrite inorder_replace_at by done. simpl.
      assert (Hlq : link_ok zr q) by (apply node_at_link_ok; by rewrite Hq).
      rewrite (inorder_replace_at zr q r' Hlq).
      rewrite Hb, Hi. by repeat (progress (simpl; rewrite <- ?app_assoc)).
Qed.

Lemma erase_names b it l1 d l2 :
  bucket_wf b → names b it l1 d l2 →
  ∃ it' b', erase it b = Ok (it', b') ∧ elements b' = l1 ++ l2 ∧ bucket_wf b' ∧
            TreeList.size_ b' = TreeList.size_ b - 1 ∧ ds_type_ b' = ds_type_ b.
Proof.
  intros [Hsz Hwf] Hn. pose proof (names_elements _ _ _ _ _ Hn) as Hel.
  assert (Hpos : 0 < TreeList.size_ b).
  { rewrite Hsz, Hel, length_app. simpl. lia. }
  assert (Hlen : TreeList.size_ b - 1 = Z.of_nat (length (l1 ++ l2))).
  { rewrite Hsz, Hel, !length_app. simpl. lia. }
  unfold erase, mixed_node_is_null, names, read_head, read_root, bucket_wf, elements in *.
  destruct it as [[] [|i|p]]; simpl in *; try done;
    destruct (head_root_ b) as [ch|t] eqn:Eb; try done.
  - destruct Hn as [-> ->]. rewrite bind_Ok. simpl. rewrite bool_decide_true by (rewrite length_app; simpl; lia).
    rewrite delete_middle.
    eexists _, _. split; [done |]. simpl. rewrite decr_pos by done.
    destruct (ds_type_ b); done.
  - destruct Hn as (c & zl & zr & Hz & -> & ->).
    destruct (ds_type_ b) eqn:Eds.
    { subst t. by rewrite node_at_null in Hz. }
    destruct (delete_node_spec t p c zl d zr Hwf Hz) as (t' & Hdel & Hred & Hin).
    rewrite bind_Ok, Hdel. simpl.
    eexists _, _. split; [done |]. simpl. rewrite decr_pos by done.
    rewrite Eds, Hin. done.
Qed.

End bucket_facts.

Section insertion_facts.
Import TreeList TreeListInv.
Context {T : Type} (compare : T → T → bool).
Implicit Types (t s : rb_node_type T) (p q : list direction) (b : tree_list_base T).
Implicit Types (it : mixed_node_type) (d x : T) (l : list T).

Lemma tree_insert_node_perm d t :
  inorder (tree_insert_node compare (new_rb_node d) t) ≡ₚ d :: inorder t.
Proof.
  induction t as [|c tl IHl y tr IHr]; simpl; [done |].
  destruct (compare d y); simpl.
  - by rewrite IHl.
  - rewrite IHr, <- !Permutation_middle. apply Permutation_swap.
Qed.

Lemma tree_insert_node_all_red d t :
  all_red t → all_red (tree_insert_node compare (new_rb_node d) t).
Proof.
  induction t as [|c tl IHl y tr IHr]; simpl; [done |].
  intros (? & ? & ?). destruct (compare d y); simpl; auto.
Qed.

Lemma treefy_fold_spec l t :
  all_red t →
  let t' := foldl (λ t d, tree_insert_node compare (new_rb_node d) t) t l in
  all_red t' ∧ inorder t' ≡ₚ l ++ inorder t.
Proof.
  revert t. induction l as [|d l IH]; simpl; intros t Ht; [done |].
  destruct (IH _ (tree_insert_node_all_red d t Ht)) as [? Hp].
  split; [done |]. rewrite Hp, tree_insert_node_perm. by rewrite <- Permutation_middle.
Qed.

Lemma tree_emplace_insert x b : tree_emplace compare x b = tree_insert compare x b.
Proof. by destruct b as [[ch|t] n ds]. Qed.

Lemma TreeList_emplace_insert x b : emplace compare x b = insert compare x b.
Proof.
  unfold emplace, insert. destruct (treefy_or_un_treefy compare b) as [b1|]; [|done].
  simpl. destruct (ds_type_ b1); [done |]. by rewrite tree_emplace_insert.
Qed.

(** [un_treefy] never returns: the first [list_insert] reads [head_] while
    the union holds the root of the tree, and on an empty tree the traversal
    starts from a null pointer. *)
Lemma traversal_un_treefy_fault t b :
  (∃ c tl x tr, head_root_ b = holds_root (rb_node c tl x tr)) →
  traversal_un_treefy t b = Fault undefined_behaviour.
Proof.
  intros (c0 & tl0 & x0 & tr0 & Hb).
  induction t as [|c tl IHl y tr IHr]; simpl; [done |].
  destruct (is_null tl).
  - destruct (is_null tr).
    + simpl. unfold list_insert, read_head. by rewrite Hb.
    + simpl. by rewrite IHr.
  - by rewrite IHl.
Qed.

Lemma un_treefy_fault b :
  bucket_wf b → ds_type_ b = k_red_black_tree → un_treefy b = Fault undefined_behaviour.
Proof.
  intros [_ Hwf] Hds. rewrite Hds in Hwf. unfold un_treefy, read_root.
  destruct (head_root_ b) as [ch|t] eqn:Eb; [done |].
  destruct t as [|c tl x tr]; [done |].
  rewrite bind_Ok. apply traversal_un_treefy_fault. eauto.
Qed.

Lemma bucket_insert_demotion_due x b :
  bucket_wf b → demotion_due b → insert compare x b = Fault undefined_behaviour.
Proof.
  intros Hwf [Hds Hsz]. unfold insert, treefy_or_un_treefy. rewrite Hds.
  rewrite bool_decide_true by done. by rewrite un_treefy_fault.
Qed.

Lemma bucket_insert_spec x b :
  bucket_wf b → ¬ demotion_due b →
  ∃ it b', insert compare x b = Ok (it, b') ∧ bucket_wf b' ∧
    elements b' ≡ₚ x :: elements b ∧
    TreeList.size_ b' = TreeList.size_ b + 1 ∧
    ds_type_ b' =
      (if bool_decide (ds_type_ b = k_linked_list ∧ TreeList.size_ b < 10)
       then k_linked_list else k_red_black_tree) ∧
    (ds_type_ b' = k_linked_list → elements b' = x :: elements b).
Proof.
  intros [Hsz Hwf] Hnd. unfold demotion_due in Hnd.
  destruct b as [hr n ds]. unfold elements in *. simpl in *.
  unfold insert, treefy_or_un_treefy, bucket_wf, elements. simpl.
  destruct ds.
  - case_bool_decide as Hten.
    + (* the list becomes a tree, then the tree receives [x] *)
      destruct hr as [ch|t]; [| simpl in *; subst t; simpl in *; lia].
      simpl.
      destruct (treefy_fold_spec ch rb_null I) as [Hred Hperm]. simpl in Hperm.
      rewrite app_nil_r in Hperm.
      eexists _, _. split; [done |]. simpl.
      rewrite bool_decide_false by (intros [_ ?]; lia).
      split_and!; try done.
      * rewrite Hsz, tree_insert_node_perm, length_cons, Hperm. lia.
      * by apply tree_insert_node_all_red.
      * by rewrite tree_insert_node_perm, Hperm.
    + rewrite bool_decide_true by (split; [done | lia]).
      destruct hr as [ch|t]; [| subst t]; simpl;
        (eexists _, _; split; [done |]); simpl; split_and!; try done;
        rewrite Hsz, ?Zpos_P_of_succ_nat; simpl; lia.
  - rewrite bool_decide_false by (intros ?; apply Hnd; by split).
    rewrite (bool_decide_false (_ ∧ _)) by (by intros [? _]).
    destruct hr as [ch|t]; [done |]. simpl.
    eexists _, _. split; [done |]. simpl.
    split_and!; try done.
    + rewrite Hsz, tree_insert_node_perm, length_cons. lia.
    + by apply tree_insert_node_all_red.
    + by rewrite tree_insert_node_perm.
Qed.

End insertion_facts.

Section tree_list_claims.
Import TreeList TreeListInv RedBlack.
Context {T : Type} (compare : T → T → bool).
Implicit Types (b : tree_list_base T) (x d : T) (l : list T).

Lemma zeroed_wf : bucket_wf (@zeroed T).
Proof. done. Qed.

Lemma insert_grown x b :
  bucket_wf b → grown b →
  ∃ it b', insert compare x b = Ok (it, b') ∧ bucket_wf b' ∧ grown b' ∧
           TreeList.size_ b' = TreeList.size_ b + 1 ∧ elements b' ≡ₚ x :: elements b.
Proof.
  intros Hwf [Hlist Htree].
  destruct (bucket_insert_spec compare x b Hwf) as (it & b' & Hins & Hwf' & Hperm & Hsz & Hds & _).
  { intros [Hds ?]. specialize (Htree Hds). lia. }
  exists it, b'. split_and!; try done. unfold grown. rewrite Hsz, Hds. split.
  - case_bool_decide as Hc; [lia | done].
  - case_bool_decide as Hc; [done |]. intros _.
    destruct (ds_type_ b); [| specialize (Htree eq_refl); lia].
    specialize (Hlist eq_refl). destruct (decide (TreeList.size_ b < 10)); [|lia].
    by destruct Hc.
Qed.

Lemma insert_each_grown l b :
  bucket_wf b → grown b →
  ∃ b', insert_each compare l b = Ok b' ∧ bucket_wf b' ∧ grown b' ∧
        TreeList.size_ b' = TreeList.size_ b + Z.of_nat (length l) ∧
        elements b' ≡ₚ l ++ elements b.
Proof.
  revert b. induction l as [|x l IH]; intros b Hwf Hg; simpl.
  - exists b. split_and!; try done. lia.
  - destruct (insert_grown x b Hwf Hg) as (it & b1 & -> & Hwf1 & Hg1 & Hsz1 & Hp1).
    simpl. destruct (IH b1 Hwf1 Hg1) as (b' & -> & Hwf' & Hg' & Hsz' & Hp').
    exists b'. split_and!; try done; [lia |].
    rewrite Hp', Hp1. by rewrite <- Permutation_middle.
Qed.

(** C1. In the tree regime the structure below [root_] is not a red-black
    tree: [tree_insert] links the new red node with [tree_insert_node] and
    never recolours or rotates, so after any eleven or more insertions into an
    empty [tree_list] the bucket is a tree whose root is red. *)
Theorem C1_tree_root_is_red l :
  (11 ≤ length l)%nat →
  ∃ b, insert_each compare l zeroed = Ok b ∧
       ds_type_ b = k_red_black_tree ∧
       Z.of_nat (node_count (tree_of b)) = TreeList.size_ b ∧
       root_is_black (tree_of b) = false ∧
       valid_red_black_tree compare b = false.
Proof.
  intros Hlen.
  destruct (insert_each_grown l zeroed zeroed_wf) as (b & Hb & Hwf & [Hg _] & Hsz & Hp).
  { split; simpl; [lia | done]. }
  simpl in Hsz. exists b. split; [done |].
  assert (Hds : ds_type_ b = k_red_black_tree).
  { destruct (ds_type_ b); [| done]. specialize (Hg eq_refl). lia. }
  destruct Hwf as [Hcount Hshape]. rewrite Hds in Hshape.
  unfold valid_red_black_tree, tree_of, elements in *.
  destruct (head_root_ b) as [ch|t]; [done |].
  assert (Hcnt : ∀ s : rb_node_type T, length (inorder s) = node_count s).
  { induction s as [|c sl IHl y sr IHr]; simpl; [done |].
    rewrite length_app. simpl. lia. }
  rewrite Hcnt in Hcount.
  destruct t as [|c tl y tr]; [simpl in *; lia |].
  destruct Hshape as (-> & _). simpl. split_and!; done.
Qed.

(** C2, as amended. In the list regime an [insert] made when [size_] is
    already at least 10 turns the list into a tree before it stores the new
    element, and an [insert] made at a smaller size keeps the list; either way
    the bucket then holds the previous elements and the new one. An [erase]
    removes the element its iterator names and leaves the representation as
    it was. *)
Theorem C2_transitions b x :
  bucket_wf b →
  (ds_type_ b = k_linked_list →
     ∃ it b', insert compare x b = Ok (it, b') ∧
       elements b' ≡ₚ x :: elements b ∧
       ds_type_ b' =
         (if bool_decide (10 ≤ TreeList.size_ b) then k_red_black_tree else k_linked_list)) ∧
  (∀ it l1 d l2, names b it l1 d l2 →
     ∃ it' b', erase it b = Ok (it', b') ∧
       elements b' = l1 ++ l2 ∧ ds_type_ b' = ds_type_ b).
Proof.
  intros Hwf. split.
  - intros Hds.
    destruct (bucket_insert_spec compare x b Hwf) as (it & b' & Hins & _ & Hp & _ & Hds' & _).
    { intros [Ht _]. by rewrite Hds in Ht. }
    exists it, b'. split_and!; [done | done |]. rewrite Hds'.
    repeat case_bool_decide; try done; [lia |].
    exfalso. apply H. split; [done | lia].
  - intros it l1 d l2 Hn.
    destruct (erase_names b it l1 d l2 Hwf Hn) as (it' & b' & He & Hel & _ & _ & Hds).
    by exists it', b'.
Qed.

End tree_list_claims.

Section tree_list_examples.
Import TreeList TreeListInv RedBlack.

Lemma C1_tree_root_is_red_witness :
  ∃ b, insert_each Z.ltb [0; 1; 2; 3; 4; 5; 6; 7; 8; 9; 10] zeroed = Ok b ∧
       ds_type_ b = k_red_black_tree ∧
       Z.of_nat (node_count (tree_of b)) = TreeList.size_ b ∧
       root_is_black (tree_of b) = false ∧
       valid_red_black_tree Z.ltb b = false.
Proof. apply (C1_tree_root_is_red Z.ltb). simpl. lia. Defined.


Lemma C2_transitions_witness :
  let b := mk_tree_list (holds_head [9; 8; 7; 6; 5; 4; 3; 2; 1; 0]) 10 k_linked_list in
  (ds_type_ b = k_linked_list →
     ∃ it b', insert Z.ltb 10 b = Ok (it, b') ∧
       elements b' ≡ₚ 10 :: elements b ∧
       ds_type_ b' =
         (if bool_decide (10 ≤ TreeList.size_ b) then k_red_black_tree else k_linked_list)) ∧
  (∀ it l1 d l2, names b it l1 d l2 →
     ∃ it' b', erase it b = Ok (it', b') ∧
       elements b' = l1 ++ l2 ∧ ds_type_ b' = ds_type_ b).
Proof. apply (C2_transitions Z.ltb). split; reflexivity. Defined.

(** C2, as stated, fails twice: the tenth insertion leaves a list of ten
    elements, and an erase that leaves three elements in a tree leaves the
    tree. *)
Lemma C2_counterexample :
  (b ← insert_each Z.ltb [1; 2; 3; 4; 5; 6; 7; 8; 9] zeroed;
   '(_, b') ← insert Z.ltb 10 b;
   Ok (TreeList.size_ b, ds_type_ b, TreeList.size_ b', ds_type_ b'))
  = Ok (9, k_linked_list, 10, k_linked_list) ∧
  (b ← insert_each Z.ltb [1; 2; 3; 4; 5; 6; 7; 8; 9; 10; 11] zeroed;
   b ← erase_front 7 b;
   it ← begin b;
   '(_, b') ← erase it b;
   Ok (TreeList.size_ b, ds_type_ b, TreeList.size_ b', ds_type_ b'))
  = Ok (4, k_red_black_tree, 3, k_red_black_tree).
Proof. split; vm_compute; reflexivity. Qed.

End tree_list_examples.

Section table_facts.
Import FixedHashmap FixedHashmapInv.
Import TreeListInv.
Context {Key Mapped Hash : Type} `{EqDecision Key}.
Context (key_less : Key → Key → bool).
Context (hash_call : Hash → Key → Z).
Implicit Types (m : fixed_hashmap Key Mapped Hash) (key k : Key).
Implicit Types (b : bucket_type Key Mapped) (kv d : value_type Key Mapped).
Implicit Types (tbl : list (bucket_type Key Mapped)).

Lemma flat_app tbl1 tbl2 : flat (tbl1 ++ tbl2) = flat tbl1 ++ flat tbl2.
Proof. unfold flat. by rewrite fmap_app, concat_app. Qed.

Lemma flat_cons b tbl : flat (b :: tbl) = TreeList.elements b ++ flat tbl.
Proof. done. Qed.

Lemma flat_lookup tbl (i : nat) b :
  tbl !! i = Some b →
  flat tbl = flat (take i tbl) ++ TreeList.elements b ++ flat (drop (S i) tbl).
Proof.
  intros Hi. rewrite <- (take_drop_middle tbl i b Hi) at 1.
  by rewrite flat_app, flat_cons.
Qed.

Lemma flat_insert tbl (i : nat) b :
  (i < length tbl)%nat →
  flat (<[i:=b]> tbl) = flat (take i tbl) ++ TreeList.elements b ++ flat (drop (S i) tbl).
Proof.
  intros Hi. rewrite insert_take_drop by done. by rewrite flat_app, flat_cons.
Qed.

Lemma elements_flat m : elements m = flat (table_ m).
Proof. done. Qed.

Lemma elem_of_flat tbl kv :
  kv ∈ flat tbl ↔ ∃ i b, tbl !! i = Some b ∧ kv ∈ TreeList.elements b.
Proof.
  unfold flat. rewrite list_elem_of_In, in_concat.
  setoid_rewrite <- list_elem_of_In. split.
  - intros (l & Hl & Hkv). apply list_elem_of_fmap in Hl as (b & -> & Hb).
    apply list_elem_of_lookup in Hb as (i & Hi). eauto.
  - intros (i & b & Hi & Hkv). exists (TreeList.elements b). split; [| done].
    apply list_elem_of_fmap. exists b. split; [done |]. by eapply list_elem_of_lookup_2.
Qed.

Lemma hash_Ok_inv m key i :
  hash hash_call m key = Ok i →
  i = index_of hash_call m key ∧ 0 ≤ i < get_bucket_count m.
Proof.
  unfold hash, index_of, get_bucket_count. case_bool_decide as Hn; [done |].
  intros [= <-]. split; [done |]. apply Z.mod_pos_bound.
  unfold mmap_array_size in *. lia.
Qed.

Lemma hash_Ok m key :
  table_ m ≠ [] → hash hash_call m key = Ok (index_of hash_call m key).
Proof.
  intros Hne. unfold hash, index_of, get_bucket_count.
  rewrite bool_decide_false; [done |].
  unfold mmap_array_size. destruct (table_ m); [done | simpl; lia].
Qed.

Lemma mmap_array_index_Ok_inv tbl i b :
  mmap_array_index tbl i = Ok b → 0 ≤ i ∧ tbl !! Z.to_nat i = Some b.
Proof.
  unfold mmap_array_index. case_bool_decide; [|done].
  destruct (tbl !! Z.to_nat i) as [b'|] eqn:E; [|done]. intros [= ->]. by split.
Qed.

Lemma mmap_array_index_Ok tbl i :
  0 ≤ i < mmap_array_size tbl → ∃ b, mmap_array_index tbl i = Ok b ∧ tbl !! Z.to_nat i = Some b.
Proof.
  intros Hi. unfold mmap_array_index, mmap_array_size in *.
  rewrite bool_decide_true by lia.
  destruct (lookup_lt_is_Some_2 tbl (Z.to_nat i)) as [b Hb]; [lia |].
  rewrite Hb. eauto.
Qed.

End table_facts.

Section bucket_find_facts.
Import FixedHashmap FixedHashmapInv.
Import TreeListInv.
Context {Key Mapped : Type} `{EqDecision Key}.
Implicit Types (key k : Key).
Implicit Types (b : bucket_type Key Mapped) (kv d : value_type Key Mapped).
Implicit Types (it : TreeList.mixed_node_type).

Lemma bucket_scan_names b key it l1 d l2 fuel :
  TreeListInv.names b it l1 d l2 → (length (d :: l2) ≤ fuel)%nat →
  ∃ r, bucket_scan fuel b key it = Ok r ∧
    match r with
    | None => key ∉ (d :: l2).*1
    | Some it' =>
        ∃ mid d' l2', TreeListInv.names b it' (l1 ++ mid) d' l2' ∧ d'.1 = key ∧ key ∉ mid.*1
    end.
Proof.
  revert it l1 d fuel. induction l2 as [|d2 l2 IH]; intros it l1 d fuel Hn Hfuel.
  - destruct fuel as [|fuel]; [simpl in Hfuel; lia |]. simpl.
    rewrite (names_not_end _ _ _ _ _ Hn), (get_data_names _ _ _ _ _ Hn). simpl.
    case_bool_decide as Hk.
    + eexists. split; [done |]. exists [], d, []. rewrite app_nil_r. split_and!; [done..|].
      apply not_elem_of_nil.
    + destruct (increment_names _ _ _ _ _ Hn) as (it' & -> & Hend). simpl.
      destruct fuel; simpl; rewrite Hend; (eexists; split; [done |]);
        (apply not_elem_of_cons; split; [done | apply not_elem_of_nil]).
  - destruct fuel as [|fuel]; [simpl in Hfuel; lia |]. simpl.
    rewrite (names_not_end _ _ _ _ _ Hn), (get_data_names _ _ _ _ _ Hn). simpl.
    case_bool_decide as Hk.
    + eexists. split; [done |]. exists [], d, (d2 :: l2). rewrite app_nil_r.
      split_and!; [done..|]. apply not_elem_of_nil.
    + destruct (increment_names _ _ _ _ _ Hn) as (it' & -> & Hn'). simpl.
      destruct (IH it' (l1 ++ [d]) d2 fuel Hn') as (r & -> & Hr).
      { simpl in *. lia. }
      exists r. split; [done |]. destruct r as [it''|].
      * destruct Hr as (mid & d' & l2' & Hn'' & Hd' & Hmid).
        exists (d :: mid), d', l2'. rewrite <- app_assoc in Hn''. split_and!; [done..|].
        apply not_elem_of_cons. by split.
      * apply not_elem_of_cons. by split.
Qed.

Lemma bucket_find_spec b key :
  bucket_wf b →
  match bucket_find b key with
  | Ok None => key ∉ (TreeList.elements b).*1
  | Ok (Some it) =>
      ∃ l1 d l2, TreeListInv.names b it l1 d l2 ∧ d.1 = key ∧ key ∉ l1.*1
  | Fault f =>
      f = undefined_behaviour ∧
      TreeList.ds_type_ b = TreeList.k_red_black_tree ∧ TreeList.elements b = []
  end.
Proof.
  intros Hwf. unfold bucket_find.
  destruct (TreeList.elements b) as [|d l] eqn:El.
  - destruct (TreeList.ds_type_ b) eqn:Eds.
    + rewrite begin_empty by done. simpl. apply not_elem_of_nil.
    + assert (TreeList.begin b = Fault undefined_behaviour) as ->; [|done].
      destruct Hwf as [_ Hwf]. unfold TreeList.begin, TreeList.read_root, TreeList.elements in *.
      rewrite Eds in *. destruct (TreeList.head_root_ b) as [ch|t]; [done |].
      destruct t as [|c tl x tr]; [done |].
      simpl in El. by destruct (TreeList.inorder tl).
  - destruct (begin_names b d l Hwf El) as (it & -> & Hn). simpl.
    destruct (bucket_scan_names b key it [] d l (length (d :: l)) Hn) as (r & Hr & Hspec); [done |].
    simpl in Hr. rewrite Hr. destruct r as [it'|]; [| done].
    destruct Hspec as (mid & d' & l2' & ? & ? & ?). by exists mid, d', l2'.
Qed.

(** A successful lookup in a bucket. *)
Lemma bucket_find_Some_inv b key it :
  bucket_wf b → bucket_find b key = Ok (Some it) →
  ∃ l1 d l2, TreeListInv.names b it l1 d l2 ∧ d.1 = key ∧ key ∉ l1.*1.
Proof. intros Hwf Hf. pose proof (bucket_find_spec b key Hwf) as Hs. by rewrite Hf in Hs. Qed.

Lemma bucket_find_None_inv b key :
  bucket_wf b → bucket_find b key = Ok None → key ∉ (TreeList.elements b).*1.
Proof. intros Hwf Hf. pose proof (bucket_find_spec b key Hwf) as Hs. by rewrite Hf in Hs. Qed.

(** A lookup of a key that the bucket holds returns the element. *)
Lemma bucket_find_present b key :
  bucket_wf b → key ∈ (TreeList.elements b).*1 →
  ∃ it l1 d l2, bucket_find b key = Ok (Some it) ∧
                TreeListInv.names b it l1 d l2 ∧ d.1 = key ∧ key ∉ l1.*1.
Proof.
  intros Hwf Hin. pose proof (bucket_find_spec b key Hwf) as Hs.
  destruct (bucket_find b key) as [[it|]|f].
  - destruct Hs as (l1 & d & l2 & ?). by exists it, l1, d, l2.
  - done.
  - destruct Hs as (_ & _ & Hel). rewrite Hel in Hin. by apply elem_of_nil in Hin.
Qed.

End bucket_find_facts.

Section table_update.
Import FixedHashmap FixedHashmapInv.
Import TreeListInv.
Context {Key Mapped Hash : Type} `{EqDecision Key}.
Context (hash_call : Hash → Key → Z).
Implicit Types (m : fixed_hashmap Key Mapped Hash) (key k : Key).
Implicit Types (b : bucket_type Key Mapped) (kv d : value_type Key Mapped).

Lemma rewritten_table i b n m : table_ (rewritten i b n m) = <[i:=b]> (table_ m).
Proof. unfold rewritten, store_bucket, mmap_array_store. simpl. by rewrite Nat2Z.id. Qed.

Lemma rewritten_bucket_count i b n m :
  get_bucket_count (rewritten i b n m) = get_bucket_count m.
Proof. unfold get_bucket_count, mmap_array_size. by rewrite rewritten_table, length_insert. Qed.

Lemma rewritten_index_of i b n m key :
  index_of hash_call (rewritten i b n m) key = index_of hash_call m key.
Proof. unfold index_of. by rewrite rewritten_bucket_count. Qed.

Lemma rewritten_elements i b b' n m :
  table_ m !! i = Some b →
  elements m = flat (take i (table_ m)) ++ TreeList.elements b ++ flat (drop (S i) (table_ m)) ∧
  elements (rewritten i b' n m) =
    flat (take i (table_ m)) ++ TreeList.elements b' ++ flat (drop (S i) (table_ m)).
Proof.
  intros Hi. split.
  - by apply flat_lookup.
  - unfold elements. rewrite rewritten_table. apply flat_insert.
    by eapply lookup_lt_Some.
Qed.

Lemma rewritten_lookup i b n m j bj :
  table_ (rewritten i b n m) !! j = Some bj →
  (j = i ∧ bj = b) ∨ (j ≠ i ∧ table_ m !! j = Some bj).
Proof.
  rewrite rewritten_table. intros Hj. destruct (decide (j = i)) as [->|Hne].
  - left. split; [done |].
    rewrite list_lookup_insert_eq in Hj; [by injection Hj |].
    apply lookup_lt_Some in Hj. by rewrite length_insert in Hj.
  - right. by rewrite list_lookup_insert_ne in Hj.
Qed.

Lemma Forall_rewritten (P : bucket_type Key Mapped → Prop) i b n m :
  Forall P (table_ m) → P b → Forall P (table_ (rewritten i b n m)).
Proof. intros Hall Hb. rewrite rewritten_table. by apply Forall_insert. Qed.

(** One element leaves slot [i]. *)
Lemma table_ok_remove m i b b' l1 d l2 :
  table_ok m → table_ m !! i = Some b → bucket_wf b' →
  TreeList.elements b = l1 ++ d :: l2 → TreeList.elements b' = l1 ++ l2 →
  let m' := rewritten i b' (decr (size_ m)) m in
  table_ok m' ∧ size_ m' = size_ m - 1 ∧
  ∃ L1 L2, elements m = L1 ++ d :: L2 ∧ elements m' = L1 ++ L2 ∧
           L1 = flat (take i (table_ m)) ++ l1.
Proof.
  intros [Hall Hsz] Hi Hb' Hel Hel' m'.
  destruct (rewritten_elements i b b' (decr (size_ m)) m Hi) as [Hm Hm'].
  fold m' in Hm'. rewrite Hel in Hm. rewrite Hel' in Hm'.
  assert (Hpos : 0 < size_ m).
  { rewrite Hsz, Hm, !length_app. simpl. lia. }
  assert (Hsz' : size_ m' = size_ m - 1).
  { unfold m', rewritten. simpl. by apply decr_pos. }
  split_and!; [split | done |].
  - by apply Forall_rewritten.
  - rewrite Hsz', Hsz, Hm, Hm', !length_app. simpl. lia.
  - exists (flat (take i (table_ m)) ++ l1), (l2 ++ flat (drop (S i) (table_ m))).
    rewrite Hm, Hm'. by rewrite <- !app_assoc.
Qed.

Lemma table_wf_remove m i b b' l1 d l2 :
  table_wf hash_call m → table_ m !! i = Some b → bucket_wf b' →
  TreeList.elements b = l1 ++ d :: l2 → TreeList.elements b' = l1 ++ l2 →
  let m' := rewritten i b' (decr (size_ m)) m in
  table_wf hash_call m' ∧ size_ m' = size_ m - 1 ∧
  ∃ L1 L2, elements m = L1 ++ d :: L2 ∧ elements m' = L1 ++ L2.
Proof.
  intros (Hok & Hpl & Hnd) Hi Hb' Hel Hel' m'.
  destruct (table_ok_remove m i b b' l1 d l2 Hok Hi Hb' Hel Hel')
    as (Hok' & Hsz' & L1 & L2 & Hm & Hm' & _).
  fold m' in Hok', Hsz', Hm'.
  split_and!; [split_and! | done | by exists L1, L2]; [done | |].
  - intros j bj kv Hj Hkv. unfold m'. rewrite rewritten_index_of.
    apply rewritten_lookup in Hj as [[-> ->]|[_ Hj]].
    + apply (Hpl i b kv Hi). rewrite Hel. rewrite Hel' in Hkv.
      apply elem_of_app in Hkv as [?|?]; apply elem_of_app; [by left |].
      right. by apply elem_of_cons; right.
    + by apply (Hpl j bj kv).
  - unfold keys in *. rewrite Hm'. rewrite Hm in Hnd.
    rewrite fmap_app in *. rewrite fmap_cons in Hnd.
    apply NoDup_app in Hnd as (H1 & H2 & H3). apply NoDup_cons in H3 as [_ H3].
    apply NoDup_app. split_and!; [done | | done].
    intros x Hx Hx'. apply (H2 x Hx). by apply elem_of_cons; right.
Qed.

(** One element enters slot [i]. *)
Lemma table_wf_add m i b b' kv :
  table_wf hash_call m → table_ m !! i = Some b → bucket_wf b' →
  TreeList.elements b' ≡ₚ kv :: TreeList.elements b →
  index_of hash_call m kv.1 = Z.of_nat i → kv.1 ∉ keys m →
  let m' := rewritten i b' (size_ m + 1) m in
  table_wf hash_call m' ∧ elements m' ≡ₚ kv :: elements m.
Proof.
  intros ((Hall & Hsz) & Hpl & Hnd) Hi Hb' Hel Hidx Hfresh m'.
  destruct (rewritten_elements i b b' (size_ m + 1) m Hi) as [Hm Hm'].
  fold m' in Hm'.
  assert (Hperm : elements m' ≡ₚ kv :: elements m).
  { rewrite Hm, Hm', Hel. simpl. by rewrite <- Permutation_middle. }
  split; [|done]. split_and!; [split | |].
  - by apply Forall_rewritten.
  - unfold m' at 1, rewritten at 1. simpl. rewrite Hsz, Hperm, length_cons. lia.
  - intros j bj kv' Hj Hkv. unfold m'. rewrite rewritten_index_of.
    apply rewritten_lookup in Hj as [[-> ->]|[_ Hj]].
    + rewrite Hel in Hkv. apply elem_of_cons in Hkv as [->|Hkv]; [done |].
      by apply (Hpl i b kv' Hi).
    + by apply (Hpl j bj kv').
  - unfold keys in *. rewrite Hperm, fmap_cons. by apply NoDup_cons.
Qed.

(** A key of the table is a key of the slot that [hash] computes for it. *)
Lemma keys_slot m key b :
  placed hash_call m →
  table_ m !! Z.to_nat (index_of hash_call m key) = Some b → 0 ≤ index_of hash_call m key →
  key ∈ keys m ↔ key ∈ (TreeList.elements b).*1.
Proof.
  intros Hpl Hb Hpos. unfold keys. rewrite !list_elem_of_fmap. split.
  - intros (kv & -> & Hkv). exists kv. split; [done |].
    apply elem_of_flat in Hkv as (j & bj & Hj & Hkv).
    pose proof (Hpl j bj kv Hj Hkv) as Hidx.
    rewrite Hidx, Nat2Z.id in Hb. by simplify_eq.
  - intros (kv & -> & Hkv). exists kv. split; [done |].
    apply elem_of_flat. eauto.
Qed.

End table_update.

Section table_operations.
Import FixedHashmap FixedHashmapInv.
Import TreeListInv.
Context {Key Mapped Hash TablePtr : Type} `{EqDecision Key}.
Context (key_less : Key → Key → bool).
Context (hash_call : Hash → Key → Z).
Context (default_mapped : Mapped).
Implicit Types (m : fixed_hashmap Key Mapped Hash) (key k : Key) (this : TablePtr).
Implicit Types (b : bucket_type Key Mapped) (kv d : value_type Key Mapped).

(** What the first two steps of every keyed operation establish. *)
Lemma probe_inv m key i b :
  table_wf hash_call m →
  hash hash_call m key = Ok i → mmap_array_index (table_ m) i = Ok b →
  ∃ j : nat, i = Z.of_nat j ∧ index_of hash_call m key = Z.of_nat j ∧
    table_ m !! j = Some b ∧ bucket_wf b ∧ table_ m ≠ [] ∧
    (key ∈ keys m ↔ key ∈ (TreeList.elements b).*1).
Proof.
  intros (Hok & Hpl & Hnd) Hh Hb.
  apply hash_Ok_inv in Hh as [-> Hrange].
  apply mmap_array_index_Ok_inv in Hb as [Hpos Hb].
  exists (Z.to_nat (index_of hash_call m key)).
  rewrite Z2Nat.id by done. split_and!; try done.
  - destruct Hok as [Hall _]. by eapply Forall_lookup_1.
  - intros Hnil. by rewrite Hnil in Hb.
  - by apply (keys_slot hash_call).
Qed.

Lemma probe_Ok m key :
  table_wf hash_call m → table_ m ≠ [] →
  ∃ (j : nat) b, hash hash_call m key = Ok (Z.of_nat j) ∧
    mmap_array_index (table_ m) (Z.of_nat j) = Ok b ∧
    index_of hash_call m key = Z.of_nat j ∧
    table_ m !! j = Some b ∧ bucket_wf b ∧
    (key ∈ keys m ↔ key ∈ (TreeList.elements b).*1).
Proof.
  intros Hwf Hne. pose proof (hash_Ok hash_call m key Hne) as Hh.
  destruct (hash_Ok_inv hash_call _ _ _ Hh) as [_ Hrange].
  destruct (mmap_array_index_Ok (table_ m) _ Hrange) as (b & Hb & _).
  destruct (probe_inv m key _ b Hwf Hh Hb) as (j & Hj & ? & ? & ? & _ & ?).
  exists j, b. rewrite <- Hj. done.
Qed.

Lemma insert_inv this kv m it ins m' :
  table_wf hash_call m →
  insert key_less hash_call this kv m = Ok (it, ins, m') →
  hash_function_ m' = hash_function_ m ∧ get_bucket_count m' = get_bucket_count m ∧
  stolen_bucket_ m' = stolen_bucket_ m ∧ table_ m ≠ [] ∧
  (if ins then ((kv.1 ∉ keys m) ∧ table_wf hash_call m' ∧ elements m' ≡ₚ kv :: elements m)
   else (m' = m ∧ kv.1 ∈ keys m)).
Proof.
  intros Hwf Hins. unfold insert in Hins.
  inv_bind Hins as i Hh. inv_bind Hins as b Hb. inv_bind Hins as found Hf.
  destruct (probe_inv m kv.1 _ _ Hwf Hh Hb) as (j & -> & Hidx & Hj & Hwfb & Hne & Hkeys).
  destruct found as [it0|].
  - injection Hins as <- <- <-. split_and!; try done.
    destruct (bucket_find_Some_inv _ _ _ Hwfb Hf) as (l1 & d & l2 & Hn & Hd & _).
    apply Hkeys. rewrite (names_elements _ _ _ _ _ Hn), fmap_app, fmap_cons, Hd.
    apply elem_of_app. right. by apply elem_of_cons; left.
  - inv_bind Hins as [it1 b'] Hi. injection Hins as <- <- <-.
    pose proof (bucket_find_None_inv _ _ Hwfb Hf) as Hfresh.
    assert (Hnd : ¬ demotion_due b).
    { intros Hd. by rewrite (bucket_insert_demotion_due _ _ _ Hwfb Hd) in Hi. }
    destruct (bucket_insert_spec (ComparePairFirst key_less) kv b Hwfb Hnd)
      as (it2 & b2 & Hi2 & Hb2 & Hp2 & _).
    rewrite Hi2 in Hi. injection Hi as -> ->.
    fold (rewritten j b' (size_ m + 1) m).
    destruct (table_wf_add hash_call m j b b' kv Hwf Hj Hb2 Hp2 Hidx) as [Hwf' Hperm].
    { by rewrite Hkeys. }
    split_and!; try done.
    + apply rewritten_bucket_count.
    + by rewrite Hkeys.
Qed.

Lemma emplace_insert this kv m :
  emplace key_less hash_call this kv m = insert key_less hash_call this kv m.
Proof.
  unfold emplace, insert.
  destruct (hash hash_call m kv.1) as [i|]; [simpl | done].
  destruct (mmap_array_index (table_ m) i) as [b|]; [simpl | done].
  destruct (bucket_find b kv.1) as [[it|]|]; [done | simpl | done].
  by rewrite TreeList_emplace_insert.
Qed.

(** The cursor invariant survives the removal of elements from a slot. *)
Lemma cursor_ok_rewritten m i b b' n :
  cursor_ok m → table_ m !! i = Some b →
  (TreeList.elements b = [] → TreeList.elements b' = []) →
  cursor_ok (rewritten i b' n m).
Proof.
  intros [Hrange Habove] Hi Hsub. split.
  - by rewrite rewritten_bucket_count.
  - intros j bj Hlt Hj. apply rewritten_lookup in Hj as [[-> ->]|[_ Hj]].
    + apply Hsub. by apply (Habove i b).
    + by apply (Habove j bj).
Qed.

Lemma erase_inv key m n m' :
  table_wf hash_call m →
  erase hash_call key m = Ok (n, m') →
  hash_function_ m' = hash_function_ m ∧ get_bucket_count m' = get_bucket_count m ∧
  stolen_bucket_ m' = stolen_bucket_ m ∧ table_ m ≠ [] ∧
  table_wf hash_call m' ∧ (cursor_ok m → cursor_ok m') ∧
  ((n = 0 ∧ m' = m ∧ key ∉ keys m) ∨
   (n = 1 ∧ size_ m' = size_ m - 1 ∧
    ∃ L1 d L2, d.1 = key ∧ elements m = L1 ++ d :: L2 ∧ elements m' = L1 ++ L2)).
Proof.
  intros Hwf He. unfold erase in He.
  inv_bind He as i Hh. inv_bind He as b Hb. inv_bind He as found Hf.
  destruct (probe_inv m key _ _ Hwf Hh Hb) as (j & -> & Hidx & Hj & Hwfb & Hne & Hkeys).
  destruct found as [it0|].
  - inv_bind He as [it1 b'] Hi. injection He as <- <-.
    destruct (bucket_find_Some_inv _ _ _ Hwfb Hf) as (l1 & d & l2 & Hn & Hd & _).
    destruct (erase_names b it0 l1 d l2 Hwfb Hn) as (it2 & b2 & He2 & Hel2 & Hwf2 & _).
    rewrite He2 in Hi. injection Hi as -> ->.
    fold (rewritten j b' (decr (size_ m)) m).
    destruct (table_wf_remove hash_call m j b b' l1 d l2 Hwf Hj Hwf2
                (names_elements _ _ _ _ _ Hn) Hel2) as (Hwf' & Hsz' & L1 & L2 & Hm & Hm').
    split_and!; try done.
    + apply rewritten_bucket_count.
    + intros Hc. apply (cursor_ok_rewritten m j b b' _ Hc Hj).
      rewrite (names_elements _ _ _ _ _ Hn). by destruct l1.
    + right. split_and!; [done | done |]. by exists L1, d, L2.
  - injection He as <- <-. split_and!; try done. left. split_and!; try done.
    rewrite Hkeys. by apply bucket_find_None_inv.
Qed.

(** [it != end()] on the result of a lookup. *)
Lemma iterator_ne_end (it : iterator TablePtr) this :
  iterator_ne it (end_it this) = negb (end_ it).
Proof. unfold iterator_ne, iterator_eq. simpl. by destruct (end_ it). Qed.

Lemma find_inv this key m it :
  table_wf hash_call m →
  find hash_call this key m = Ok it →
  table_ m ≠ [] ∧
  if end_ it then key ∉ keys m
  else ∃ d, deref (table_ m) it = Ok d ∧ d.1 = key ∧ d ∈ elements m.
Proof.
  intros Hwf Hfind. unfold find in Hfind.
  inv_bind Hfind as i Hh. inv_bind Hfind as b Hb. inv_bind Hfind as found Hf.
  destruct (probe_inv m key _ _ Hwf Hh Hb) as (j & -> & Hidx & Hj & Hwfb & Hne & Hkeys).
  split; [done |]. destruct found as [it0|]; injection Hfind as <-; simpl.
  - destruct (bucket_find_Some_inv _ _ _ Hwfb Hf) as (l1 & d & l2 & Hn & Hd & _).
    exists d. unfold deref. simpl. rewrite Hb. simpl.
    rewrite (get_data_names _ _ _ _ _ Hn). split_and!; [done | done |].
    apply elem_of_flat. exists j, b. split; [done |].
    rewrite (names_elements _ _ _ _ _ Hn). apply elem_of_app. right. by apply elem_of_cons; left.
  - rewrite Hkeys. by apply bucket_find_None_inv.
Qed.

Lemma contains_inv key m r :
  table_wf hash_call m →
  contains hash_call key m = Ok r →
  table_ m ≠ [] ∧ (r = true ↔ key ∈ keys m).
Proof.
  intros Hwf Hc. unfold contains in Hc.
  inv_bind Hc as i Hh. inv_bind Hc as b Hb. inv_bind Hc as found Hf.
  destruct (probe_inv m key _ _ Hwf Hh Hb) as (j & -> & Hidx & Hj & Hwfb & Hne & Hkeys).
  split; [done |]. injection Hc as <-. rewrite Hkeys. destruct found as [it0|].
  - destruct (bucket_find_Some_inv _ _ _ Hwfb Hf) as (l1 & d & l2 & Hn & Hd & _).
    rewrite bool_decide_true by done. split; [intros _ | done].
    rewrite (names_elements _ _ _ _ _ Hn), fmap_app, fmap_cons, Hd.
    apply elem_of_app. right. by apply elem_of_cons; left.
  - rewrite bool_decide_false by (by intros [? ?]). split; [done |].
    intros Hin. by apply (bucket_find_None_inv _ _ Hwfb Hf) in Hin.
Qed.

Lemma at_inv key m v m' :
  table_wf hash_call m →
  at_ key_less hash_call default_mapped key m = Ok (v, m') →
  hash_function_ m' = hash_function_ m ∧ get_bucket_count m' = get_bucket_count m ∧
  stolen_bucket_ m' = stolen_bucket_ m ∧ table_ m ≠ [] ∧
  ((m' = m ∧ (key, v) ∈ elements m) ∨
   ((key ∉ keys m) ∧ v = default_mapped ∧ table_wf hash_call m' ∧
    elements m' ≡ₚ (key, default_mapped) :: elements m)).
Proof.
  intros Hwf Hat. unfold at_ in Hat.
  inv_bind Hat as i Hh. inv_bind Hat as b Hb. inv_bind Hat as found Hf.
  destruct (probe_inv m key _ _ Hwf Hh Hb) as (j & -> & Hidx & Hj & Hwfb & Hne & Hkeys).
  destruct found as [it0|].
  - inv_bind Hat as d Hd. injection Hat as <- <-. split_and!; try done. left. split; [done |].
    destruct (bucket_find_Some_inv _ _ _ Hwfb Hf) as (l1 & d' & l2 & Hn & Hd' & _).
    rewrite (get_data_names _ _ _ _ _ Hn) in Hd. injection Hd as ->.
    apply elem_of_flat. exists j, b. split; [done |].
    rewrite (names_elements _ _ _ _ _ Hn). apply elem_of_app. right.
    apply elem_of_cons; left. rewrite <- Hd'. by destruct d.
  - inv_bind Hat as [it1 b'] Hi. injection Hat as <- <-.
    pose proof (bucket_find_None_inv _ _ Hwfb Hf) as Hfresh.
    rewrite TreeList_emplace_insert in Hi.
    assert (Hnd : ¬ demotion_due b).
    { intros Hd. by rewrite (bucket_insert_demotion_due _ _ _ Hwfb Hd) in Hi. }
    destruct (bucket_insert_spec (ComparePairFirst key_less) (key, default_mapped) b Hwfb Hnd)
      as (it2 & b2 & Hi2 & Hb2 & Hp2 & _).
    rewrite Hi2 in Hi. injection Hi as -> ->.
    fold (rewritten j b' (size_ m + 1) m).
    destruct (table_wf_add hash_call m j b b' (key, default_mapped) Hwf Hj Hb2 Hp2 Hidx)
      as [Hwf' Hperm].
    { by rewrite Hkeys. }
    split_and!; try done.
    + apply rewritten_bucket_count.
    + right. split_and!; try done. by rewrite Hkeys.
Qed.

End table_operations.

Section steal_facts.
Import FixedHashmap FixedHashmapInv.
Import TreeListInv.
Context {Key Mapped Hash : Type} `{EqDecision Key}.
Context (hash_call : Hash → Key → Z).
Implicit Types (m : fixed_hashmap Key Mapped Hash) (key k : Key).
Implicit Types (b : bucket_type Key Mapped) (kv d : value_type Key Mapped).
Implicit Types (stolen taken : list (value_type Key Mapped)).

Lemma bucket_empty_elements b :
  bucket_wf b → TreeList.empty b = true ↔ TreeList.elements b = [].
Proof.
  intros [Hsz _]. unfold TreeList.empty. rewrite bool_decide_eq_true, Hsz.
  destruct (TreeList.elements b); simpl; split; try done; lia.
Qed.

(** The inner loop takes elements from the front of the bucket until
    [num_to_steal] reaches zero or the bucket is empty. *)
Lemma vector_reserve_Ok (n : Z) : 0 ≤ n < 2 ^ 31 → vector_reserve n = Ok ().
Proof.
  intros Hn. unfold vector_reserve, to_size_t, vector_max_size, size_max.
  rewrite Z.mod_small by lia. rewrite bool_decide_false, bool_decide_true by lia. done.
Qed.

Lemma to_int64_small (n : Z) : - 2 ^ 63 ≤ n < 2 ^ 63 → to_int64 n = n.
Proof. intros Hn. unfold to_int64. rewrite Z.mod_small; lia. Qed.

Lemma steal_from_bucket_spec fuel num b stolen sz :
  num < 2 ^ 31 →
  bucket_wf b → (Z.to_nat num ≤ fuel)%nat → Z.of_nat (length (TreeList.elements b)) ≤ sz →
  ∃ taken b',
    steal_from_bucket fuel num b stolen sz =
      Ok (num - Z.of_nat (length taken), b', stolen ++ taken, sz - Z.of_nat (length taken)) ∧
    bucket_wf b' ∧ TreeList.elements b = taken ++ TreeList.elements b' ∧
    Z.of_nat (length taken) ≤ Z.max num 0 ∧
    (0 < num - Z.of_nat (length taken) → TreeList.elements b' = []) ∧
    TreeList.ds_type_ b' = TreeList.ds_type_ b ∧
    TreeList.size_ b' = TreeList.size_ b - Z.of_nat (length taken).
Proof.
  revert num b stolen sz. induction fuel as [|fuel IH];
    intros num b stolen sz Hsmall Hwf Hfuel Hsz.
  - assert (num ≤ 0) by lia. simpl. rewrite bool_decide_false by lia. simpl.
    exists [], b. simpl. rewrite app_nil_r, !Z.sub_0_r. split_and!; try done; lia.
  - simpl. destruct (bool_decide (0 < num)) eqn:Enum; simpl.
    2:{ apply bool_decide_eq_false in Enum.
        exists [], b. simpl. rewrite app_nil_r, !Z.sub_0_r. split_and!; try done; lia. }
    apply bool_decide_eq_true in Enum.
    destruct (TreeList.empty b) eqn:Eempty; simpl.
    { apply bucket_empty_elements in Eempty; [|done].
      exists [], b. simpl. rewrite app_nil_r, !Z.sub_0_r. split_and!; try done; lia. }
    destruct (TreeList.elements b) as [|d l] eqn:El.
    { apply bucket_empty_elements in El; [|done]. congruence. }
    assert (Hres : (if bool_decide (stolen = []) then vector_reserve num else Ok ()) = Ok ()).
    { case_bool_decide; [| done]. apply vector_reserve_Ok. lia. }
    rewrite Hres. simpl.
    destruct (begin_names b d l Hwf El) as (it & -> & Hn). simpl.
    rewrite (get_data_names _ _ _ _ _ Hn). simpl.
    destruct (erase_names b it [] d l Hwf Hn) as (it' & b1 & -> & El1 & Hwf1 & Hsz1 & Hds1).
    simpl. cbn [length app] in *.
    destruct (IH (num - 1) b1 (stolen ++ [d]) (decr sz)) as
      (taken & b' & -> & Hwf' & Hel' & Hlen & Hrest & Hds' & Hsz').
    { lia. }
    { done. }
    { lia. }
    { rewrite decr_pos by lia. rewrite El1. lia. }
    exists (d :: taken), b'. rewrite decr_pos by lia.
    rewrite <- app_assoc. simpl length. split_and!; try done.
    + replace (num - Z.of_nat (S (length taken))) with (num - 1 - Z.of_nat (length taken)) by lia.
      by replace (sz - Z.of_nat (S (length taken))) with (sz - 1 - Z.of_nat (length taken)) by lia.
    + simpl. by rewrite <- Hel', El1.
    + lia.
    + intros ?. apply Hrest. lia.
    + congruence.
    + lia.
Qed.

Lemma drained_refl m : drained 0 m m.
Proof.
  split_and!; [done | done |]. intros i b Hi. exists b. split_and!; [done | done | lia | done].
Qed.

Lemma drained_trans (k1 k2 : Z) m1 m2 m3 :
  drained k1 m1 m2 → drained k2 m2 m3 → drained (k1 + k2) m1 m3.
Proof.
  intros (Hh1 & Hl1 & H1) (Hh2 & Hl2 & H2). split_and!; [congruence | congruence |].
  intros i b3 Hi. destruct (H2 i b3 Hi) as (b2 & Hi2 & Hd2 & Hs2 & He2).
  destruct (H1 i b2 Hi2) as (b1 & Hi1 & Hd1 & Hs1 & He1).
  exists b1. split_and!; [done | congruence | lia | auto].
Qed.

Lemma drained_set_stolen_bucket (k c : Z) m m' :
  drained k m m' → drained k m (set_stolen_bucket c m').
Proof. done. Qed.

Lemma drained_placed (k : Z) m m' :
  drained k m m' → placed hash_call m → placed hash_call m'.
Proof.
  intros (Hh & Hl & Hd) Hpl i b' kv Hi Hkv.
  destruct (Hd i b' Hi) as (b & Hib & _ & _ & Hsub).
  unfold index_of, get_bucket_count, mmap_array_size. rewrite Hh, Hl.
  by apply (Hpl i b kv Hib), Hsub.
Qed.

Lemma drained_tree_floor (k n : Z) m m' :
  drained k m m' → tree_floor n m → tree_floor (n - k) m'.
Proof.
  intros (_ & _ & Hd) Hfl. apply Forall_lookup. intros i b' Hi Hds.
  destruct (Hd i b' Hi) as (b & Hib & Hdb & Hsz & _).
  pose proof (Forall_lookup_1 _ _ _ _ Hfl Hib) as Hb. rewrite Hdb in Hds.
  specialize (Hb Hds). lia.
Qed.

(** Elements leave the front of slot [i]. *)
Lemma drain_slot m (i : nat) b b' taken :
  table_ok m → table_ m !! i = Some b → bucket_wf b' →
  TreeList.elements b = taken ++ TreeList.elements b' →
  TreeList.ds_type_ b' = TreeList.ds_type_ b →
  TreeList.size_ b' = TreeList.size_ b - Z.of_nat (length taken) →
  let m1 := rewritten i b' (size_ m - Z.of_nat (length taken)) m in
  table_ok m1 ∧ elements m ≡ₚ taken ++ elements m1 ∧
  drained (Z.of_nat (length taken)) m m1.
Proof.
  intros [Hall Hsz] Hi Hb' Hel Hds Hsize m1.
  destruct (rewritten_elements i b b' (size_ m - Z.of_nat (length taken)) m Hi) as [Hm Hm'].
  fold m1 in Hm'. rewrite Hel in Hm.
  assert (Hperm : elements m ≡ₚ taken ++ elements m1).
  { rewrite Hm, Hm'. rewrite <- !app_assoc.
    by rewrite (app_assoc _ taken), (Permutation_app_comm _ taken), <- app_assoc. }
  split_and!; [split | done |].
  - by apply Forall_rewritten.
  - unfold m1 at 1, rewritten at 1. simpl. rewrite Hsz, Hperm, length_app. lia.
  - split_and!; [done | unfold m1; by rewrite rewritten_table, length_insert |].
    intros j bj Hj. unfold m1 in Hj. apply rewritten_lookup in Hj as [[-> ->]|[_ Hj]].
    + exists b. split_and!; [done | done | lia |].
      intros x Hx. rewrite Hel. apply elem_of_app. by right.
    + exists bj. split_and!; [done | done | lia | done].
Qed.

Lemma steal_loop_done fuel start num stolen m :
  num ≤ 0 → steal_loop fuel start num stolen m = Ok (stolen, m).
Proof. intros Hn. destruct fuel; simpl; by rewrite bool_decide_false by lia. Qed.

(** The outer loop.  Whenever it returns, it has taken at most
    [num_to_steal] elements, all of which have left the table; it can only
    fail on a table whose cursor invariant is broken. *)
Lemma steal_loop_spec fuel start num stolen m :
  num < 2 ^ 31 →
  table_ok m → (Z.to_nat (stolen_bucket_ m + 1) ≤ fuel)%nat →
  match steal_loop fuel start num stolen m with
  | Ok (stolen', m') =>
      ∃ taken, stolen' = stolen ++ taken ∧ table_ok m' ∧
        Z.of_nat (length taken) ≤ Z.max num 0 ∧
        size_ m' = size_ m - Z.of_nat (length taken) ∧
        elements m ≡ₚ taken ++ elements m' ∧
        drained (Z.of_nat (length taken)) m m' ∧
        (cursor_ok m → cursor_ok m')
  | Fault _ => ¬ cursor_ok m
  end.
Proof.
  revert num stolen m. induction fuel as [|fuel IH]; intros num stolen m Hsmall Hok Hfuel.
  { simpl. destruct (bool_decide (0 < num)); simpl.
    - rewrite bool_decide_false by lia. simpl.
      exists []; rewrite app_nil_r; simpl; split_and!; try done; try lia; apply drained_refl.
    - exists []; rewrite app_nil_r; simpl; split_and!; try done; try lia; apply drained_refl. }
  simpl.
  destruct (bool_decide (0 < num) && bool_decide (0 ≤ stolen_bucket_ m)) eqn:Econd.
  2:{ exists []; rewrite app_nil_r; simpl; split_and!; try done; try lia; apply drained_refl. }
  apply andb_true_iff in Econd as [Hnum Hcur].
  apply bool_decide_eq_true in Hnum. apply bool_decide_eq_true in Hcur.
  case_bool_decide as Hfuse.
  { exists []; rewrite app_nil_r; simpl; split_and!; try done; try lia; apply drained_refl. }
  destruct (mmap_array_index (table_ m) (stolen_bucket_ m)) as [b|] eqn:Eb; simpl.
  2:{ intros [Hrange _]. destruct (mmap_array_index_Ok (table_ m) (stolen_bucket_ m)) as (? & ? & _).
      - unfold get_bucket_count in Hrange. lia.
      - congruence. }
  apply mmap_array_index_Ok_inv in Eb as [_ Hb].
  set (i := Z.to_nat (stolen_bucket_ m)) in *.
  assert (Hi : stolen_bucket_ m = Z.of_nat i) by (unfold i; lia).
  pose proof Hok as [Hall Hsz].
  assert (Hwfb : bucket_wf b) by (by eapply Forall_lookup_1).
  destruct (steal_from_bucket_spec (Z.to_nat num) num b stolen (size_ m) Hsmall Hwfb)
    as (taken1 & b' & -> & Hwfb' & Hel & Hlen1 & Hrest & Hds & Hsize); [lia | |].
  { rewrite Hsz, elements_flat, (flat_lookup _ _ _ Hb), !length_app. lia. }
  simpl. rewrite Hi. fold (rewritten i b' (size_ m - Z.of_nat (length taken1)) m).
  destruct (drain_slot m i b b' taken1 Hok Hb Hwfb' Hel Hds Hsize) as (Hok1 & Hperm1 & Hdr1).
  set (m1 := rewritten i b' (size_ m - Z.of_nat (length taken1)) m) in *.
  assert (Hcur1 : stolen_bucket_ m1 = Z.of_nat i) by (by rewrite <- Hi).
  assert (Hb1 : table_ m1 !! i = Some b').
  { unfold m1. rewrite rewritten_table. apply list_lookup_insert_eq. by eapply lookup_lt_Some. }
  assert (Hcok1 : cursor_ok m → cursor_ok m1).
  { intros Hc. apply (cursor_ok_rewritten m i b b' _ Hc Hb).
    rewrite Hel. intros Hnil. by apply app_eq_nil in Hnil as [_ ?]. }
  case_bool_decide as Hzero.
  - (* the cursor stands on slot 0 *)
    destruct (TreeList.empty b') eqn:Eempty; simpl.
    + case_bool_decide as Hsize0; simpl.
      * by exists taken1.
      * intros Hc. apply Hsize0. destruct Hok1 as [_ Hsz1].
        change (size_ m1) with (size_ m - Z.of_nat (length taken1)) in Hsz1. rewrite Hsz1.
        assert (elements m1 = []) as ->; [|done].
        apply bucket_empty_elements in Eempty; [|done].
        destruct (Hcok1 Hc) as [_ Habove].
        rewrite elements_flat. apply elem_of_nil_inv. intros kv Hkv.
        apply elem_of_flat in Hkv as (j & bj & Hj & Hkv).
        destruct (decide (j = i)) as [->|Hne].
        -- rewrite Hb1 in Hj. injection Hj as <-. rewrite Eempty in Hkv. by apply elem_of_nil in Hkv.
        -- rewrite (Habove j bj) in Hkv; [by apply elem_of_nil in Hkv | lia | done].
    + by exists taken1.
  - (* the cursor stands above slot 0 *)
    destruct (TreeList.empty b') eqn:Eempty; simpl.
    + rewrite bool_decide_true by lia.
      match goal with
      | |- context [steal_loop fuel start _ _ ?mm] => set (m2 := mm)
      end.
      assert (Hcok2 : cursor_ok m → cursor_ok m2).
      { intros Hc. destruct (Hcok1 Hc) as [Hrange Habove]. split.
        - change (get_bucket_count m2) with (get_bucket_count m1).
          change (stolen_bucket_ m2) with (Z.of_nat i - 1). lia.
        - intros j bj Hlt Hj.
          change (table_ m2) with (table_ m1) in Hj.
          change (stolen_bucket_ m2) with (Z.of_nat i - 1) in Hlt.
          destruct (decide (j = i)) as [->|Hne].
          + rewrite Hb1 in Hj. injection Hj as <-. by apply bucket_empty_elements.
          + apply (Habove j bj); [lia | done]. }
      assert (Hfuel2 : (Z.to_nat (stolen_bucket_ m2 + 1) ≤ fuel)%nat).
      { change (stolen_bucket_ m2) with (Z.of_nat i - 1). lia. }
      assert (Hsmall2 : num - Z.of_nat (length taken1) < 2 ^ 31) by lia.
      specialize (IH (num - Z.of_nat (length taken1)) (stolen ++ taken1) m2 Hsmall2 Hok1 Hfuel2).
      destruct (steal_loop fuel start (num - Z.of_nat (length taken1)) (stolen ++ taken1) m2)
        as [[stolen' m']|f].
      * cbv beta iota in IH.
        destruct IH as (taken2 & -> & Hok' & Hlen2 & Hsz' & Hperm2 & Hdr2 & Hcok').
        exists (taken1 ++ taken2). rewrite length_app, <- app_assoc.
        split_and!; try done.
        -- lia.
        -- rewrite Hsz'. change (size_ m2) with (size_ m - Z.of_nat (length taken1)). lia.
        -- rewrite Hperm1, <- app_assoc. apply Permutation_app_head. exact Hperm2.
        -- rewrite Nat2Z.inj_add. by apply (drained_trans _ _ m m1 m').
        -- auto.
      * intros Hc. apply IH. auto.
    + (* elements are left in the slot, so [num_to_steal] has reached 0 *)
      rewrite steal_loop_done.
      * by exists taken1.
      * destruct (decide (0 < num - Z.of_nat (length taken1))) as [Hpos|]; [|lia].
        apply Hrest in Hpos. apply bucket_empty_elements in Hpos; [|done]. congruence.
Qed.

Lemma steal_elements_spec n m :
  - 2 ^ 63 ≤ n < 2 ^ 31 →
  table_ok m →
  match steal_elements n m with
  | Ok (stolen, m') =>
      table_ok m' ∧ Z.of_nat (length stolen) ≤ Z.max n 0 ∧
      size_ m' = size_ m - Z.of_nat (length stolen) ∧
      elements m ≡ₚ stolen ++ elements m' ∧
      drained (Z.of_nat (length stolen)) m m' ∧
      (cursor_ok m → cursor_ok m')
  | Fault _ => ¬ cursor_ok m
  end.
Proof.
  intros Hn Hok. unfold steal_elements. rewrite to_int64_small by lia.
  pose proof (steal_loop_spec (Z.to_nat (stolen_bucket_ m + 1))
                (to_size_t (stolen_bucket_ m)) n [] m (proj2 Hn) Hok (le_n _)) as Hs.
  destruct (steal_loop _ _ _ _ _) as [[stolen m']|f]; [|done].
  destruct Hs as (taken & -> & ?). done.
Qed.

(** A call for one element walks the cursor down over empty slots and takes
    the first element of the first slot that holds one, if that slot is at
    most [k_max_steal_iterations] below the slot where the call started. *)
Lemma steal_loop_takes fuel (c0 : Z) m (j : nat) b d rest stolen m' :
  table_ok m →
  Z.of_nat j ≤ stolen_bucket_ m → stolen_bucket_ m ≤ c0 →
  c0 - Z.of_nat j ≤ k_max_steal_iterations →
  table_ m !! j = Some b → TreeList.elements b = d :: rest →
  (∀ (i : nat) bi, Z.of_nat j < Z.of_nat i ≤ stolen_bucket_ m → table_ m !! i = Some bi →
                   TreeList.elements bi = []) →
  (Z.to_nat (stolen_bucket_ m + 1) ≤ fuel)%nat →
  steal_loop fuel (to_size_t c0) 1 [] m = Ok (stolen, m') → stolen = [d].
Proof.
  revert m. induction fuel as [|fuel IH]; intros m Hok Hj Hc0 Hlim Hb He Hgap Hfuel Hst.
  { lia. }
  cbn [steal_loop] in Hst.
  rewrite (bool_decide_true (0 < 1)), (bool_decide_true (0 ≤ stolen_bucket_ m)) in Hst by lia.
  cbn [andb] in Hst.
  rewrite bool_decide_false in Hst; cycle 1.
  { unfold to_size_t. rewrite <- Zminus_mod. unfold k_max_steal_iterations, size_max in *.
    rewrite Z.mod_small; lia. }
  destruct (mmap_array_index (table_ m) (stolen_bucket_ m)) as [bc|] eqn:Eb; [| done].
  apply mmap_array_index_Ok_inv in Eb as [_ Hbc].
  cbn [mbind outcome_bind] in Hst.
  set (i := Z.to_nat (stolen_bucket_ m)) in *.
  assert (Hi : stolen_bucket_ m = Z.of_nat i) by (unfold i; lia).
  pose proof Hok as [Hall Hsz].
  assert (Hwfbc : bucket_wf bc) by (by eapply Forall_lookup_1).
  destruct (steal_from_bucket_spec (Z.to_nat 1) 1 bc [] (size_ m)) as
    (taken & b' & Hsb & Hwfb' & Hel & Hlen & Hrest & Hds & Hsize); [lia | done | lia | |].
  { rewrite Hsz, elements_flat, (flat_lookup _ _ _ Hbc), !length_app. lia. }
  rewrite Hsb in Hst. cbn [mbind outcome_bind app] in Hst.
  destruct (decide (i = j)) as [->|Hne].
  - (* the cursor stands on the slot that holds [d] *)
    rewrite Hb in Hbc. injection Hbc as <-.
    assert (Htaken : taken = [d]).
    { destruct taken as [|x [|y taken]]; simpl in *.
      - rewrite Hrest in Hel by lia. by rewrite He in Hel.
      - rewrite He in Hel. by injection Hel as <- _.
      - lia. }
    subst taken. simpl in Hst.
    case_bool_decide as Hzero.
    + destruct (TreeList.empty b'); simpl in Hst.
      * case_bool_decide; simpl in Hst; [by injection Hst as <- _ | done].
      * by injection Hst as <- _.
    + rewrite steal_loop_done in Hst by lia. by injection Hst as <- _.
  - (* the slot under the cursor is empty *)
    assert (Hbcnil : TreeList.elements bc = []) by (apply (Hgap i bc); [lia | done]).
    assert (Htaken : taken = []).
    { rewrite Hbcnil in Hel. symmetry in Hel. by apply app_eq_nil in Hel as [? _]. }
    subst taken. simpl in Hel, Hst.
    assert (Hb'nil : TreeList.elements b' = []) by congruence.
    rewrite bool_decide_false in Hst by lia.
    rewrite (proj2 (bucket_empty_elements b' Hwfb') Hb'nil) in Hst.
    cbn [andb] in Hst. rewrite bool_decide_true in Hst by (simpl; lia).
    rewrite Hi in Hst.
    change (steal_loop fuel (to_size_t c0) 1 []
              (set_stolen_bucket (Z.of_nat i - 1)
                 (rewritten i b' (size_ m - Z.of_nat (length (@nil (value_type Key Mapped)))) m))
            = Ok (stolen, m')) in Hst.
    destruct (drain_slot m i bc b' [] Hok Hbc Hwfb') as (Hok1 & _ & _).
    { by rewrite Hbcnil, Hb'nil. }
    { done. }
    { simpl in *. lia. }
    cbv zeta in Hok1.
    set (m1 := rewritten i b' (size_ m - Z.of_nat (length (@nil (value_type Key Mapped)))) m) in *.
    assert (Htab : table_ (set_stolen_bucket (Z.of_nat i - 1) m1) = <[i:=b']> (table_ m)).
    { unfold m1. change (table_ (set_stolen_bucket _ ?x)) with (table_ x).
      apply rewritten_table. }
    apply (IH (set_stolen_bucket (Z.of_nat i - 1) m1)); try done.
    + change (stolen_bucket_ (set_stolen_bucket (Z.of_nat i - 1) m1)) with (Z.of_nat i - 1). lia.
    + change (stolen_bucket_ (set_stolen_bucket (Z.of_nat i - 1) m1)) with (Z.of_nat i - 1). lia.
    + rewrite Htab, list_lookup_insert_ne by lia. done.
    + intros k bk Hk Hlk.
      change (stolen_bucket_ (set_stolen_bucket (Z.of_nat i - 1) m1)) with (Z.of_nat i - 1) in Hk.
      rewrite Htab, list_lookup_insert_ne in Hlk by lia.
      apply (Hgap k bk); [lia | done].
    + change (stolen_bucket_ (set_stolen_bucket (Z.of_nat i - 1) m1)) with (Z.of_nat i - 1). lia.
Qed.

Lemma steal_elements_takes m (j : nat) b d rest stolen m' :
  table_ok m →
  Z.of_nat j ≤ stolen_bucket_ m →
  stolen_bucket_ m - Z.of_nat j ≤ k_max_steal_iterations →
  table_ m !! j = Some b → TreeList.elements b = d :: rest →
  (∀ (i : nat) bi, Z.of_nat j < Z.of_nat i ≤ stolen_bucket_ m → table_ m !! i = Some bi →
                   TreeList.elements bi = []) →
  steal_elements 1 m = Ok (stolen, m') → stolen = [d].
Proof.
  intros Hok Hj Hlim Hb He Hgap Hst. unfold steal_elements in Hst.
  rewrite to_int64_small in Hst by lia.
  by eapply (steal_loop_takes _ (stolen_bucket_ m) m j b d rest).
Qed.

(** Stealing keeps a well-formed table well-formed. *)
Lemma steal_elements_wf n m stolen m' :
  - 2 ^ 63 ≤ n < 2 ^ 31 →
  table_wf hash_call m → steal_elements n m = Ok (stolen, m') →
  table_wf hash_call m' ∧ Z.of_nat (length stolen) ≤ Z.max n 0 ∧
  elements m ≡ₚ stolen ++ elements m' ∧
  drained (Z.of_nat (length stolen)) m m' ∧
  (cursor_ok m → cursor_ok m').
Proof.
  intros Hn (Hok & Hpl & Hnd) Hs. pose proof (steal_elements_spec n m Hn Hok) as Hspec.
  rewrite Hs in Hspec. destruct Hspec as (Hok' & Hlen & _ & Hperm & Hdr & Hc).
  split_and!; try done. split_and!; [done | by eapply drained_placed |].
  unfold keys in *. rewrite Hperm, fmap_app in Hnd. by apply NoDup_app in Hnd as (_ & _ & ?).
Qed.

End steal_facts.

Section steal_claim.
Import FixedHashmap FixedHashmapInv.
Import TreeListInv.
Context {Key Mapped Hash : Type} `{EqDecision Key}.
Implicit Types (m : fixed_hashmap Key Mapped Hash).

(** C6, as amended. On a table whose slots are well formed, whose [size_]
    counts its elements, whose cursor [stolen_bucket_] is at least [-1] and
    below the number of slots, and whose slots above the cursor are empty,
    [steal_elements(n)] with [0 <= n < 2^31], a length for which [reserve]
    is granted, returns at most [n] elements, lowers [size_] by the number
    returned, keeps the other elements, and leaves every slot above the cursor
    empty. *)
Theorem C6_steal_elements n m :
  table_ok m → cursor_ok m → 0 ≤ n < 2 ^ 31 →
  ∃ stolen m', steal_elements n m = Ok (stolen, m') ∧
    0 ≤ Z.of_nat (length stolen) ≤ n ∧
    size_ m' = size_ m - Z.of_nat (length stolen) ∧
    elements m ≡ₚ stolen ++ elements m' ∧
    ∀ i b, stolen_bucket_ m' < Z.of_nat i → table_ m' !! i = Some b →
           TreeList.empty b = true.
Proof.
  intros Hok Hc Hn.
  assert (Hrange : - 2 ^ 63 ≤ n < 2 ^ 31) by lia.
  pose proof (steal_elements_spec n m Hrange Hok) as Hs.
  destruct (steal_elements n m) as [[stolen m']|f]; [|done].
  destruct Hs as ([Hall' Hsz'] & Hlen & Hsize & Hperm & _ & Hc').
  exists stolen, m'. split_and!; try done; [lia.. |].
  intros i b Hlt Hi. destruct (Hc' Hc) as [_ Habove].
  apply bucket_empty_elements; [by eapply Forall_lookup_1 | by eapply Habove].
Qed.

End steal_claim.

Lemma C6_steal_elements_witness :
  ∃ stolen m', FixedHashmap.steal_elements 2 Examples.drained_table = Ok (stolen, m') ∧
    0 ≤ Z.of_nat (length stolen) ≤ 2 ∧
    FixedHashmap.size_ m' = FixedHashmap.size_ Examples.drained_table - Z.of_nat (length stolen) ∧
    FixedHashmap.elements Examples.drained_table ≡ₚ stolen ++ FixedHashmap.elements m' ∧
    ∀ i b, FixedHashmap.stolen_bucket_ m' < Z.of_nat i →
           FixedHashmap.table_ m' !! i = Some b → TreeList.empty b = true.
Proof.
  apply C6_steal_elements.
  - split; [| reflexivity]. repeat constructor.
  - split; [by vm_compute |]. intros i b Hlt Hi. apply lookup_lt_Some in Hi.
    unfold Examples.drained_table in *. simpl in *. lia.
  - lia.
Defined.

(** C6, as stated, fails on a table that received an element above its
    cursor: the call returns one element and moves the cursor to slot 0 while
    slot 2 still holds an element. *)
Lemma C6_counterexample :
  (m0 ← FixedHashmap.fixed_hashmap_new 3 ();
   '(_, _, m1) ← FixedHashmap.insert (TablePtr:=unit) Z.ltb Examples.identity_hash () (1, 10) m0;
   '(_, _, m2) ← FixedHashmap.insert (TablePtr:=unit) Z.ltb Examples.identity_hash () (4, 40) m1;
   '(_, m3) ← FixedHashmap.steal_elements 1 m2;
   '(_, _, m4) ← FixedHashmap.insert (TablePtr:=unit) Z.ltb Examples.identity_hash () (2, 20) m3;
   '(stolen, m5) ← FixedHashmap.steal_elements 1 m4;
   Ok (stolen, FixedHashmap.size_ m4, FixedHashmap.size_ m5,
       FixedHashmap.stolen_bucket_ m5, TreeList.empty <$> FixedHashmap.table_ m5))
  = Ok ([(1, 10)], 2, 1, 0, [true; true; false]).
Proof. vm_compute. reflexivity. Qed.

(** ** The two tables of a hashmap *)

Section fresh_tables.
Import FixedHashmap FixedHashmapInv.
Context {Key Mapped Hash : Type} `{EqDecision Key}.
Context (hash_call : Hash → Key → Z).
Implicit Types (m c : fixed_hashmap Key Mapped Hash).

Lemma to_int_range z : - 2 ^ 31 ≤ to_int z < 2 ^ 31.
Proof. unfold to_int. pose proof (Z.mod_pos_bound (z + 2 ^ 31) (2 ^ 32)). lia. Qed.

Lemma to_int_small z : - 2 ^ 31 ≤ z < 2 ^ 31 → to_int z = z.
Proof. intros Hz. unfold to_int. rewrite Z.mod_small; lia. Qed.

Lemma to_size_t_int z :
  - 2 ^ 31 ≤ z < 2 ^ 31 → to_size_t z < 2 ^ 31 → 0 ≤ z ∧ to_size_t z = z.
Proof.
  unfold to_size_t, size_max. intros Hz Hlt.
  destruct (decide (0 ≤ z)) as [Hpos|Hneg].
  - split; [done |]. apply Z.mod_small. lia.
  - exfalso. replace z with (z + 2 ^ 64 + (-1) * 2 ^ 64) in Hlt by lia.
    rewrite Z_mod_plus_full, Z.mod_small in Hlt; lia.
Qed.

Lemma flat_replicate_zeroed (n : nat) :
  flat (replicate n (@TreeList.zeroed (Key * Mapped))) = [].
Proof. induction n as [|n IH]; [done |]. simpl. by rewrite flat_cons, IH. Qed.

Lemma table_without_elements_wf m :
  Forall TreeListInv.bucket_wf (table_ m) → elements m = [] → size_ m = 0 →
  table_wf hash_call m.
Proof.
  intros Hall Hel Hsz. split_and!.
  - split; [done |]. by rewrite Hel.
  - intros i b kv Hi Hkv. exfalso.
    assert (Hin : kv ∈ elements m).
    { rewrite elements_flat. apply elem_of_flat. eauto. }
    rewrite Hel in Hin. by apply elem_of_nil in Hin.
  - unfold keys. rewrite Hel. constructor.
Qed.

Lemma fixed_hashmap_new_inv n h c :
  fixed_hashmap_new n h = Ok c →
  table_wf hash_call c ∧ elements c = [] ∧ size_ c = 0 ∧ hash_function_ c = h ∧
  get_bucket_count c = to_int n ∧ 0 ≤ to_int n ∧
  stolen_bucket_ c = get_bucket_count c - 1 ∧
  tree_floor 3 c.
Proof.
  unfold fixed_hashmap_new, mmap_array_new. case_bool_decide as Hlt; [simpl | done].
  intros [= <-]. simpl.
  destruct (to_size_t_int _ (to_int_range n) Hlt) as [Hpos Heq].
  assert (Hel : elements (mk_fixed_hashmap
            (replicate (Z.to_nat (to_size_t (to_int n))) TreeList.zeroed) 0 h (to_int n - 1))
          = @nil (Key * Mapped)).
  { rewrite elements_flat. simpl. apply flat_replicate_zeroed. }
  assert (Hcount : get_bucket_count (mk_fixed_hashmap
            (replicate (Z.to_nat (to_size_t (to_int n))) (@TreeList.zeroed (Key * Mapped)))
            0 h (to_int n - 1)) = to_int n).
  { unfold get_bucket_count, mmap_array_size. simpl. rewrite length_replicate, Heq. lia. }
  split_and!; try done.
  - apply table_without_elements_wf; [| done | done].
    simpl. apply Forall_replicate. apply zeroed_wf.
  - by rewrite Hcount.
  - unfold tree_floor. simpl. apply Forall_replicate. done.
Qed.

Lemma fixed_hashmap_new_Ok n h :
  0 ≤ to_int n →
  ∃ c : fixed_hashmap Key Mapped Hash, fixed_hashmap_new n h = Ok c.
Proof.
  intros Hpos. unfold fixed_hashmap_new, mmap_array_new.
  pose proof (to_int_range n) as Hr.
  rewrite bool_decide_true; [simpl; eauto |].
  unfold to_size_t, size_max. rewrite Z.mod_small; lia.
Qed.

Lemma clear_inv m m' :
  clear m = Ok m' →
  table_ m' = [] ∧ size_ m' = 0 ∧ hash_function_ m' = hash_function_ m ∧
  stolen_bucket_ m' = stolen_bucket_ m.
Proof. unfold clear. intros Hc. inv_bind Hc as u Hu. by injection Hc as <-. Qed.

Lemma cleared_table_wf m : table_ m = [] → size_ m = 0 → table_wf hash_call m.
Proof.
  intros Ht Hs. apply table_without_elements_wf; [| | done].
  - rewrite Ht. constructor.
  - unfold elements. by rewrite Ht.
Qed.

Lemma bucket_count_0 m : get_bucket_count m = 0 ↔ table_ m = [].
Proof.
  unfold get_bucket_count, mmap_array_size. destruct (table_ m); simpl; [done |].
  split; [lia | done].
Qed.

Lemma bucket_count_0_elements m : get_bucket_count m = 0 → elements m = [].
Proof. intros Hc. apply bucket_count_0 in Hc. unfold elements. by rewrite Hc. Qed.

Lemma table_wf_size m : table_wf hash_call m → size_ m = Z.of_nat (length (elements m)).
Proof. by intros [[_ ?] _]. Qed.

End fresh_tables.

(** ** Steps of a hashmap call *)

Section hashmap_steps.
Import Hashmap HashmapInv FixedHashmapInv.
Context {Key Mapped Hash : Type} `{EqDecision Key}.
Context (key_less : Key → Key → bool).
Context (hash_call : Hash → Key → Z).
Context (default_hash : Hash).
Context (default_mapped : Mapped).
Implicit Types (m : hashmap Key Mapped Hash) (key k : Key).
Implicit Types (c o : FixedHashmap.fixed_hashmap Key Mapped Hash).
Implicit Types (kv d : Key * Mapped) (stolen : list (Key * Mapped)).

Lemma set_current_current m : set_current (current_ m) m = m.
Proof. by destruct m. Qed.

Lemma hashmap_new_Inv n h m : hashmap_new n h = Ok m → Inv hash_call default_hash m.
Proof.
  unfold hashmap_new. intros Hn. inv_bind Hn as c Hc. inv_bind Hn as o Ho.
  injection Hn as <-.
  destruct (fixed_hashmap_new_inv hash_call _ _ _ Hc) as (Hwc & Hec & _ & _ & Hcc & _ & Hsc & _).
  destruct (fixed_hashmap_new_inv hash_call _ _ _ Ho) as (Hwo & Heo & _).
  split; simpl; try done.
  - unfold contents. simpl. rewrite Hec, Heo. constructor.
  - by right.
  - rewrite Hcc. apply to_int_range.
Qed.

Lemma clear_Inv m m' : clear m = Ok m' → Inv hash_call default_hash m'.
Proof.
  unfold clear. intros Hc. inv_bind Hc as c Hcc. inv_bind Hc as o Hco.
  injection Hc as <-.
  destruct (clear_inv _ _ Hcc) as (Htc & Hsc & _).
  destruct (clear_inv _ _ Hco) as (Hto & Hso & _).
  assert (Heo : FixedHashmap.elements o = []).
  { unfold FixedHashmap.elements. by rewrite Hto. }
  assert (Hec : FixedHashmap.elements c = []).
  { unfold FixedHashmap.elements. by rewrite Htc. }
  assert (Hnc : FixedHashmap.get_bucket_count c = 0) by by apply bucket_count_0.
  split; simpl; try done.
  - by apply cleared_table_wf.
  - by apply cleared_table_wf.
  - unfold contents. simpl. rewrite Hec, Heo. constructor.
  - by left.
  - rewrite Hnc. lia.
Qed.

(** The loop that stores the stolen elements stores every one of them. *)
Lemma insert_all_inv stolen c c' :
  table_wf hash_call c → NoDup (stolen.*1 ++ keys c) →
  insert_all key_less hash_call stolen c = Ok c' →
  table_wf hash_call c' ∧ FixedHashmap.elements c' ≡ₚ stolen ++ FixedHashmap.elements c ∧
  FixedHashmap.hash_function_ c' = FixedHashmap.hash_function_ c ∧
  FixedHashmap.get_bucket_count c' = FixedHashmap.get_bucket_count c ∧
  FixedHashmap.stolen_bucket_ c' = FixedHashmap.stolen_bucket_ c.
Proof.
  revert c. induction stolen as [|e rest IH]; intros c Hwf Hnd Hall; simpl in Hall.
  - by injection Hall as <-.
  - inv_bind Hall as [[it ins] c1] Hins. simpl in Hall.
    destruct (insert_inv _ _ _ _ _ _ _ _ Hwf Hins) as (Hh & Hc & Hs & _ & Hcase).
    rewrite fmap_cons in Hnd. simpl in Hnd. apply NoDup_cons in Hnd as [Hfresh Hnd].
    destruct ins.
    + destruct Hcase as (_ & Hwf1 & Hp1).
      destruct (IH c1 Hwf1) as (Hwf' & Hp & Hh' & Hc' & Hs'); [| done |].
      { unfold keys. rewrite Hp1, fmap_cons.
        rewrite <- Permutation_middle. by apply NoDup_cons. }
      split_and!; [done | | congruence | congruence | congruence].
      rewrite Hp, Hp1. simpl. by rewrite Permutation_middle.
    + destruct Hcase as [_ Hin]. exfalso. apply Hfresh.
      apply elem_of_app. by right.
Qed.

Lemma size_0_elements c :
  table_wf hash_call c → FixedHashmap.size_ c = 0 → FixedHashmap.elements c = [].
Proof.
  intros Hwf Hs. rewrite (table_wf_size hash_call c Hwf) in Hs.
  apply nil_length_inv. lia.
Qed.

Lemma elements_nil_size c :
  table_wf hash_call c → FixedHashmap.elements c = [] → FixedHashmap.size_ c = 0.
Proof. intros Hwf He. by rewrite (table_wf_size hash_call c Hwf), He. Qed.

Lemma cursor_ok_top c :
  FixedHashmap.get_bucket_count c ≠ 0 →
  FixedHashmap.stolen_bucket_ c = FixedHashmap.get_bucket_count c - 1 →
  cursor_ok c.
Proof.
  intros Hne Hc. unfold cursor_ok. rewrite Hc.
  unfold FixedHashmap.get_bucket_count, FixedHashmap.mmap_array_size in *.
  split; [lia |]. intros i b Hlt Hi. apply lookup_lt_Some in Hi. lia.
Qed.

Lemma k_num_items_to_steal_range : - 2 ^ 63 ≤ k_num_items_to_steal < 2 ^ 31.
Proof. unfold k_num_items_to_steal. lia. Qed.

(** One migration step. *)
Lemma move_progressively_inv m m1 :
  Inv hash_call default_hash m →
  move_progressively key_less hash_call default_hash m = Ok m1 →
  Inv hash_call default_hash m1 ∧ contents m1 ≡ₚ contents m ∧
  FixedHashmap.size_ (old_ m) - k_num_items_to_steal ≤ FixedHashmap.size_ (old_ m1) ∧
  FixedHashmap.size_ (old_ m1) ≤ FixedHashmap.size_ (old_ m) ∧
  (rehashing_ m = false → m1 = m) ∧
  (rehashing_ m1 = true → rehashing_ m = true).
Proof.
  intros Hinv Hmp. unfold move_progressively in Hmp.
  destruct (rehashing_ m) eqn:Hre; simpl in Hmp; cycle 1.
  { injection Hmp as <-. unfold k_num_items_to_steal. split_and!; try done; try lia. congruence. }
  inv_bind Hmp as [stolen o] Hst. simpl in Hmp.
  destruct Hinv as [Hwc Hwo Hnd Hidle Hbusy Hcur Hzero Hcap Hdef].
  destruct (Hbusy Hre) as [Hcok Hcnt].
  destruct (steal_elements_wf hash_call _ _ _ _ k_num_items_to_steal_range Hwo Hst) as (Hwo' & Hlen & Hperm & Hdr & Hc').
  pose proof (table_wf_size hash_call _ Hwo) as Hso.
  pose proof (table_wf_size hash_call _ Hwo') as Hso'.
  pose proof (Permutation_length Hperm) as Hpl. rewrite length_app in Hpl.
  unfold k_num_items_to_steal in *.
  destruct Hdr as (_ & Hdlen & _).
  destruct (bool_decide (stolen = []) && FixedHashmap.empty o) eqn:Hfin.
  - apply andb_true_iff in Hfin as [Hnil Hemp]. apply bool_decide_eq_true in Hnil. subst stolen.
    apply bool_decide_eq_true in Hemp.
    unfold on_rehashing_finished in Hmp. inv_bind Hmp as fresh Hfresh. injection Hmp as <-.
    destruct (fixed_hashmap_new_inv hash_call _ _ _ Hfresh) as (Hwf & Hef & Hsf & _).
    pose proof (size_0_elements o Hwo' Hemp) as Heo.
    simpl in Hperm. rewrite Heo in Hperm. apply Permutation_nil_r in Hperm.
    unfold contents, FixedHashmap.move_assign in *. simpl.
    rewrite Hef. rewrite Hperm in *. split_and!; try done; [| simpl in *; lia..].
    split; simpl; try done. unfold contents. simpl. by rewrite Hef.
  - inv_bind Hmp as c Hall. injection Hmp as <-. simpl in *.
    assert (Hnd' : NoDup (stolen.*1 ++ keys (current_ m))).
    { unfold contents in Hnd. rewrite Hperm in Hnd. rewrite !fmap_app in Hnd.
      rewrite (assoc_L (++)) in Hnd. apply NoDup_app in Hnd as (Hnd & _).
      unfold keys. by rewrite (comm (++)). }
    destruct (insert_all_inv _ _ _ Hwc Hnd' Hall) as (Hwc' & Hpc & Hh & Hcc & Hsc).
    assert (Hcont : FixedHashmap.elements c ++ FixedHashmap.elements o ≡ₚ contents m).
    { unfold contents. rewrite Hpc, Hperm.
      rewrite <- !(assoc_L (++)). rewrite (assoc_L (++) stolen), (comm (++) stolen).
      by rewrite <- (assoc_L (++)). }
    unfold contents at 1 2. simpl.
    split_and!; try done; [| lia | lia].
    split; simpl; rewrite ?Hre; try done.
    + unfold contents. simpl. by rewrite Hcont.
    + intros _. split; [by apply Hc' |].
      unfold FixedHashmap.get_bucket_count, FixedHashmap.mmap_array_size in *. lia.
    + by rewrite Hcc, Hsc.
    + rewrite Hcc. intros H0. specialize (Hzero H0). rewrite Hzero in Hperm.
      symmetry in Hperm. apply Permutation_nil_r in Hperm.
      by apply app_eq_nil in Hperm as [_ ?].
    + by rewrite Hcc.
    + intros _. rewrite Hh. by apply Hdef.
Qed.

Lemma to_int_0 z : 0 ≤ z < 2 ^ 32 → FixedHashmap.to_int z = 0 → z = 0.
Proof.
  unfold FixedHashmap.to_int. intros Hz H0.
  destruct (decide (z < 2 ^ 31)) as [Hlt|Hge].
  - rewrite Z.mod_small in H0; lia.
  - replace (z + 2 ^ 31) with (z - 2 ^ 31 + 1 * 2 ^ 32) in H0 by lia.
    rewrite Z_mod_plus_full, Z.mod_small in H0; lia.
Qed.

(** The first three statements of [rehash]. *)
Lemma rehash_inv new_size m m' :
  rehash default_hash new_size m = Ok m' →
  ∃ fresh, FixedHashmap.fixed_hashmap_new new_size default_hash = Ok fresh ∧
           FixedHashmap.size_ (old_ m) = 0 ∧
           m' = mk_hashmap fresh (current_ m) true.
Proof.
  unfold rehash. intros Hr. inv_bind Hr as u Hu. inv_bind Hr as fresh Hf.
  apply assert_Ok_inv in Hu. apply bool_decide_eq_true in Hu.
  simpl in Hr. injection Hr as <-. by exists fresh.
Qed.

Lemma rehash_Inv new_size m m' :
  Inv hash_call default_hash m → rehashing_ m = false →
  FixedHashmap.get_bucket_count (current_ m) ≠ 0 →
  (FixedHashmap.to_int new_size = 0 → FixedHashmap.size_ (current_ m) = 0) →
  rehash default_hash new_size m = Ok m' →
  Inv hash_call default_hash m' ∧ contents m' ≡ₚ contents m ∧
  FixedHashmap.size_ (old_ m) ≤ FixedHashmap.size_ (old_ m').
Proof.
  intros [Hwc Hwo Hnd Hidle Hbusy Hcur Hzero Hcap Hdef] Hre Hne Hz Hr.
  apply rehash_inv in Hr as (fresh & Hf & Hs0 & ->).
  destruct (fixed_hashmap_new_inv hash_call _ _ _ Hf) as (Hwf & Hef & Hsf & Hhf & Hcf & Hpos & Hcurf & _).
  specialize (Hidle Hre).
  unfold contents in *. simpl. rewrite Hef, Hidle in *. rewrite app_nil_r in *.
  split_and!; [| done |].
  - split; simpl; try done.
    + unfold contents. simpl. by rewrite Hef.
    + intros _. split; [| done]. apply cursor_ok_top; [done |]. by destruct Hcur.
    + by right.
    + rewrite Hcf. intros H0. by apply size_0_elements, Hz.
    + rewrite Hcf. apply to_int_range.
  - rewrite Hs0, (table_wf_size hash_call _ Hwc). lia.
Qed.

Lemma maybe_rehash_inv m m' :
  Inv hash_call default_hash m →
  (rehashing_ m = false → FixedHashmap.get_bucket_count (current_ m) ≠ 0) →
  maybe_rehash default_hash m = Ok m' →
  Inv hash_call default_hash m' ∧ contents m' ≡ₚ contents m ∧
  FixedHashmap.size_ (old_ m) ≤ FixedHashmap.size_ (old_ m') ∧
  (rehashing_ m = true → m' = m).
Proof.
  intros Hinv Hne Hm. unfold maybe_rehash in Hm.
  destruct (rehashing_ m) eqn:Hre.
  { injection Hm as <-. split_and!; try done. }
  specialize (Hne eq_refl).
  pose proof (current_bound _ _ _ Hinv) as Hcap.
  pose proof (table_wf_size hash_call _ (current_wf _ _ _ Hinv)) as Hsz.
  assert (Hcnt : 0 ≤ FixedHashmap.get_bucket_count (current_ m)).
  { unfold FixedHashmap.get_bucket_count, FixedHashmap.mmap_array_size. lia. }
  unfold FixedHashmap.size in Hm.
  assert (Hstart : ∀ n, (FixedHashmap.to_int n = 0 → FixedHashmap.size_ (current_ m) = 0) →
            rehash default_hash n m = Ok m' →
            Inv hash_call default_hash m' ∧ contents m' ≡ₚ contents m ∧
            FixedHashmap.size_ (old_ m) ≤ FixedHashmap.size_ (old_ m') ∧
            (false = true → m' = m)).
  { intros n Hn Hr. destruct (rehash_Inv n m m' Hinv Hre Hne Hn Hr) as (? & ? & ?).
    by split_and!. }
  case_bool_decide as Hgrow.
  - eapply Hstart; [| exact Hm]. intros H0. apply to_int_0 in H0; lia.
  - destruct (bool_decide _ && bool_decide _) eqn:Hshrink.
    + apply andb_true_iff in Hshrink as [H4 H16].
      apply bool_decide_eq_true in H4. apply bool_decide_eq_true in H16.
      eapply Hstart; [| exact Hm]. intros H0. apply to_int_0 in H0; lia.
    + injection Hm as <-. by split_and!.
Qed.

End hashmap_steps.

(** ** The public calls of a hashmap *)

Section hashmap_calls.
Import Hashmap HashmapInv FixedHashmapInv.
Context {Key Mapped Hash : Type} `{EqDecision Key}.
Context (key_less : Key → Key → bool).
Context (hash_call : Hash → Key → Z).
Context (default_hash : Hash).
Context (default_mapped : Mapped).
Implicit Types (m : hashmap Key Mapped Hash) (key k : Key).
Implicit Types (c o : FixedHashmap.fixed_hashmap Key Mapped Hash).
Implicit Types (kv d : Key * Mapped).

Lemma keys_contents m k :
  k ∈ (contents m).*1 ↔ k ∈ keys (current_ m) ∨ k ∈ keys (old_ m).
Proof. unfold contents, keys. by rewrite fmap_app, elem_of_app. Qed.

Lemma idle_keys m k :
  Inv hash_call default_hash m → rehashing_ m = false → k ∉ keys (old_ m).
Proof.
  intros Hinv Hre. unfold keys. rewrite (idle_old_empty _ _ _ Hinv Hre). apply not_elem_of_nil.
Qed.

Lemma bucket_count_ne_0 c : FixedHashmap.table_ c ≠ [] → FixedHashmap.get_bucket_count c ≠ 0.
Proof. intros Hne H0. by apply bucket_count_0 in H0. Qed.

(** [current_] receives a binding for a key that the map does not hold. *)
Lemma current_grows m c kv :
  Inv hash_call default_hash m →
  kv.1 ∉ keys (current_ m) → kv.1 ∉ keys (old_ m) →
  table_wf hash_call c →
  FixedHashmap.elements c ≡ₚ kv :: FixedHashmap.elements (current_ m) →
  FixedHashmap.get_bucket_count c = FixedHashmap.get_bucket_count (current_ m) →
  FixedHashmap.stolen_bucket_ c = FixedHashmap.stolen_bucket_ (current_ m) →
  FixedHashmap.hash_function_ c = FixedHashmap.hash_function_ (current_ m) →
  Inv hash_call default_hash (set_current c m) ∧
  (kv.1 ∉ (contents m).*1) ∧ contents (set_current c m) ≡ₚ kv :: contents m.
Proof.
  intros [Hwc Hwo Hnd Hidle Hbusy Hcur Hzero Hcap Hdef] Hkc Hko Hwf Hp Hcc Hsc Hhc.
  assert (Hfresh : kv.1 ∉ (contents m).*1).
  { rewrite keys_contents. by intros [?|?]. }
  assert (Hcont : contents (set_current c m) ≡ₚ kv :: contents m).
  { unfold contents. simpl. by rewrite Hp. }
  split_and!; [| done | done].
  split; simpl; try done.
  - rewrite Hcont, fmap_cons. by apply NoDup_cons.
  - by rewrite Hcc, Hsc.
  - by rewrite Hcc.
  - by rewrite Hcc.
  - by rewrite Hhc.
Qed.

Lemma insert_body_inv kv m it ins m2 :
  Inv hash_call default_hash m →
  insert_body key_less hash_call kv m = Ok (it, ins, m2) →
  Inv hash_call default_hash m2 ∧ rehashing_ m2 = rehashing_ m ∧ old_ m2 = old_ m ∧
  (rehashing_ m = false → FixedHashmap.get_bucket_count (current_ m2) ≠ 0) ∧
  (if ins then (kv.1 ∉ (contents m).*1) ∧ contents m2 ≡ₚ kv :: contents m
   else m2 = m ∧ kv.1 ∈ (contents m).*1).
Proof.
  intros Hinv Hb.
  assert (Hstore : kv.1 ∉ keys (old_ m) →
    (FixedHashmap.insert key_less hash_call current_table kv (current_ m)
       ≫= λ '(it, inserted, c), Ok (iterator_new 0 it k_iter_valid, inserted, set_current c m))
    = Ok (it, ins, m2) →
    Inv hash_call default_hash m2 ∧ rehashing_ m2 = rehashing_ m ∧ old_ m2 = old_ m ∧
    (rehashing_ m = false → FixedHashmap.get_bucket_count (current_ m2) ≠ 0) ∧
    (if ins then (kv.1 ∉ (contents m).*1) ∧ contents m2 ≡ₚ kv :: contents m
     else m2 = m ∧ kv.1 ∈ (contents m).*1)).
  { intros Hko Hs. inv_bind Hs as [[it0 ins0] c] Hins. injection Hs as <- <- <-.
    destruct (insert_inv _ _ _ _ _ _ _ _ (current_wf _ _ _ Hinv) Hins) as (Hh & Hcc & Hsc & Hne & Hcase).
    apply bucket_count_ne_0 in Hne.
    destruct ins0.
    - destruct Hcase as (Hkc & Hwf & Hp).
      destruct (current_grows m c kv Hinv Hkc Hko Hwf Hp Hcc Hsc Hh) as (? & ? & ?).
      split_and!; try done. simpl. by rewrite Hcc.
    - destruct Hcase as [-> Hin]. rewrite set_current_current.
      split_and!; try done. apply keys_contents. by left. }
  unfold insert_body in Hb. destruct (rehashing_ m) eqn:Hre; simpl in Hb.
  - inv_bind Hb as it_old Hfind.
    destruct (find_inv _ _ _ _ _ (old_wf _ _ _ Hinv) Hfind) as [_ Hcase].
    rewrite iterator_ne_end in Hb. destruct (FixedHashmap.end_ it_old); simpl in Hb.
    + by apply Hstore.
    + injection Hb as <- <- <-. destruct Hcase as (d & _ & Hk & Hd).
      split_and!; try done. unfold k_item_not_found. split; [done |].
      apply keys_contents. right. unfold keys. rewrite <- Hk.
      by apply list_elem_of_fmap_2.
  - apply Hstore; [| done]. by apply (idle_keys m).
Qed.

Lemma emplace_body_insert_body kv m :
  emplace_body key_less hash_call kv m = insert_body key_less hash_call kv m.
Proof. unfold emplace_body, insert_body. by rewrite !emplace_insert. Qed.

Lemma Hashmap_emplace_insert kv m :
  emplace key_less hash_call default_hash kv m = insert key_less hash_call default_hash kv m.
Proof.
  unfold emplace, insert.
  destruct (move_progressively _ _ _ m) as [m1|]; simpl; [| done].
  by rewrite emplace_body_insert_body.
Qed.

Lemma at_body_inv key m v m2 :
  Inv hash_call default_hash m →
  at_body key_less hash_call default_mapped key m = Ok (v, m2) →
  Inv hash_call default_hash m2 ∧ rehashing_ m2 = rehashing_ m ∧ old_ m2 = old_ m ∧
  (rehashing_ m = false → FixedHashmap.get_bucket_count (current_ m2) ≠ 0) ∧
  ((m2 = m ∧ (key, v) ∈ contents m) ∨
   ((key ∉ (contents m).*1) ∧ v = default_mapped ∧
    contents m2 ≡ₚ (key, default_mapped) :: contents m)).
Proof.
  intros Hinv Hb.
  assert (Hstore : key ∉ keys (old_ m) →
    (FixedHashmap.at_ key_less hash_call default_mapped key (current_ m)
       ≫= λ '(v, c), Ok (v, set_current c m)) = Ok (v, m2) →
    Inv hash_call default_hash m2 ∧ rehashing_ m2 = rehashing_ m ∧ old_ m2 = old_ m ∧
    (rehashing_ m = false → FixedHashmap.get_bucket_count (current_ m2) ≠ 0) ∧
    ((m2 = m ∧ (key, v) ∈ contents m) ∨
     ((key ∉ (contents m).*1) ∧ v = default_mapped ∧
      contents m2 ≡ₚ (key, default_mapped) :: contents m))).
  { intros Hko Hs. inv_bind Hs as [v0 c] Hat. injection Hs as <- <-.
    destruct (at_inv _ _ _ _ _ _ _ (current_wf _ _ _ Hinv) Hat) as (Hh & Hcc & Hsc & Hne & Hcase).
    apply bucket_count_ne_0 in Hne.
    destruct Hcase as [[-> Hin]|(Hkc & -> & Hwf & Hp)].
    - rewrite set_current_current. split_and!; try done.
      left. split; [done |]. apply elem_of_app. by left.
    - destruct (current_grows m c (key, default_mapped) Hinv Hkc Hko Hwf Hp Hcc Hsc Hh)
        as (? & ? & ?).
      split_and!; try done; [simpl; by rewrite Hcc |]. by right. }
  unfold at_body in Hb. destruct (rehashing_ m) eqn:Hre; simpl in Hb.
  - inv_bind Hb as it_old Hfind.
    destruct (find_inv _ _ _ _ _ (old_wf _ _ _ Hinv) Hfind) as [_ Hcase].
    rewrite iterator_ne_end in Hb. destruct (FixedHashmap.end_ it_old); simpl in Hb.
    + by apply Hstore.
    + inv_bind Hb as d Hd. injection Hb as <- <-. destruct Hcase as (d' & Hd' & Hk & Hin).
      rewrite Hd in Hd'. injection Hd' as <-.
      split_and!; try done. left. split; [done |].
      apply elem_of_app. right. rewrite <- Hk. by destruct d.
  - apply Hstore; [| done]. by apply (idle_keys m).
Qed.

(** What [erase] of a table does to its elements. *)
Lemma fixed_erase_shrinks key c n c' :
  table_wf hash_call c → FixedHashmap.erase hash_call key c = Ok (n, c') →
  table_wf hash_call c' ∧
  FixedHashmap.elements c' `sublist_of` FixedHashmap.elements c ∧
  FixedHashmap.size_ c' = FixedHashmap.size_ c - n ∧ 0 ≤ n ≤ 1 ∧
  FixedHashmap.get_bucket_count c' = FixedHashmap.get_bucket_count c ∧
  FixedHashmap.stolen_bucket_ c' = FixedHashmap.stolen_bucket_ c ∧
  FixedHashmap.get_bucket_count c ≠ 0 ∧
  (cursor_ok c → cursor_ok c') ∧
  FixedHashmap.hash_function_ c' = FixedHashmap.hash_function_ c.
Proof.
  intros Hwf He.
  destruct (erase_inv _ _ _ _ _ Hwf He) as (Hh & Hcc & Hsc & Hne & Hwf' & Hcur & Hcase).
  apply bucket_count_ne_0 in Hne.
  destruct Hcase as [(-> & -> & _)|(-> & Hsz & L1 & d & L2 & _ & HL & HL')].
  - split_and!; try done; lia.
  - split_and!; try done; try lia.
    rewrite HL, HL'. apply sublist_app; [done |]. by apply sublist_cons.
Qed.

(** Both tables lose elements and keep their shape. *)
Lemma tables_shrink m c o :
  Inv hash_call default_hash m → table_wf hash_call c → table_wf hash_call o →
  FixedHashmap.elements c `sublist_of` FixedHashmap.elements (current_ m) →
  FixedHashmap.elements o `sublist_of` FixedHashmap.elements (old_ m) →
  FixedHashmap.get_bucket_count c = FixedHashmap.get_bucket_count (current_ m) →
  FixedHashmap.stolen_bucket_ c = FixedHashmap.stolen_bucket_ (current_ m) →
  FixedHashmap.hash_function_ c = FixedHashmap.hash_function_ (current_ m) →
  FixedHashmap.get_bucket_count o = FixedHashmap.get_bucket_count (old_ m) →
  (cursor_ok (old_ m) → cursor_ok o) →
  Inv hash_call default_hash (mk_hashmap c o (rehashing_ m)).
Proof.
  intros [Hwc Hwo Hnd Hidle Hbusy Hcur Hzero Hcap Hdef] Hwc' Hwo' Hsc Hso Hcc Hcs Hhc Hco Hcok.
  split; simpl; try done.
  - apply (sublist_NoDup _ (contents m).*1); [done |]. apply fmap_sublist.
    unfold contents. simpl. by apply sublist_app.
  - intros Hre. specialize (Hidle Hre). rewrite Hidle in Hso. by apply sublist_nil_r in Hso.
  - intros Hre. destruct (Hbusy Hre) as [? ?]. split; [by apply Hcok | by rewrite Hco].
  - by rewrite Hcc, Hcs.
  - rewrite Hcc. intros H0. specialize (Hzero H0). rewrite Hzero in Hso.
    by apply sublist_nil_r in Hso.
  - by rewrite Hcc.
  - by rewrite Hhc.
Qed.

(** *** The calls as a whole *)

Lemma insert_spec kv m it ins m' :
  Inv hash_call default_hash m →
  insert key_less hash_call default_hash kv m = Ok (it, ins, m') →
  ∃ m1, move_progressively key_less hash_call default_hash m = Ok m1 ∧
    Inv hash_call default_hash m' ∧
    FixedHashmap.size_ (old_ m1) ≤ FixedHashmap.size_ (old_ m') ∧
    (if ins then (kv.1 ∉ (contents m).*1) ∧ contents m' ≡ₚ kv :: contents m
     else contents m' ≡ₚ contents m ∧ kv.1 ∈ (contents m).*1).
Proof.
  intros Hinv Hi. unfold insert in Hi.
  inv_bind Hi as m1 Hmp. inv_bind Hi as [[it0 ins0] m2] Hbody. inv_bind Hi as m3 Hmr.
  injection Hi as <- <- <-. exists m1. split; [done |].
  destruct (move_progressively_inv _ _ _ _ _ Hinv Hmp) as (Hinv1 & Hc1 & _).
  destruct (insert_body_inv _ _ _ _ _ Hinv1 Hbody) as (Hinv2 & Hre2 & Ho2 & Hne2 & Hcase).
  destruct (maybe_rehash_inv hash_call default_hash m2 m3 Hinv2) as (Hinv3 & Hc3 & Hs3 & _);
    [by rewrite Hre2 | done |].
  rewrite Ho2 in Hs3. split_and!; try done.
  destruct ins0.
  - destruct Hcase as [Hfresh Hc2]. rewrite Hc1 in Hfresh. split; [done |].
    by rewrite Hc3, Hc2, Hc1.
  - destruct Hcase as [-> Hin]. rewrite Hc1 in Hin. split; [| done]. by rewrite Hc3, Hc1.
Qed.

Lemma at_spec key m v m' :
  Inv hash_call default_hash m →
  at_ key_less hash_call default_hash default_mapped key m = Ok (v, m') →
  ∃ m1, move_progressively key_less hash_call default_hash m = Ok m1 ∧
    Inv hash_call default_hash m' ∧
    FixedHashmap.size_ (old_ m1) ≤ FixedHashmap.size_ (old_ m').
Proof.
  intros Hinv Hi. unfold at_ in Hi.
  inv_bind Hi as m1 Hmp. inv_bind Hi as [v0 m2] Hbody. inv_bind Hi as m3 Hmr.
  injection Hi as <- <-. exists m1. split; [done |].
  destruct (move_progressively_inv _ _ _ _ _ Hinv Hmp) as (Hinv1 & Hc1 & _).
  destruct (at_body_inv _ _ _ _ Hinv1 Hbody) as (Hinv2 & Hre2 & Ho2 & Hne2 & _).
  destruct (maybe_rehash_inv hash_call default_hash m2 m3 Hinv2) as (Hinv3 & Hc3 & Hs3 & _);
    [by rewrite Hre2 | done |].
  rewrite Ho2 in Hs3. by split_and!.
Qed.

Lemma erase_spec key m n m' :
  Inv hash_call default_hash m →
  erase key_less hash_call default_hash key m = Ok (n, m') →
  ∃ m1, move_progressively key_less hash_call default_hash m = Ok m1 ∧
    Inv hash_call default_hash m' ∧ 0 ≤ n ≤ 1 ∧
    FixedHashmap.size_ (old_ m1) - n ≤ FixedHashmap.size_ (old_ m').
Proof.
  intros Hinv He. unfold erase in He.
  inv_bind He as m1 Hmp. inv_bind He as [n0 m2] Hbody. inv_bind He as m3 Hmr.
  injection He as <- <-. exists m1. split; [done |].
  destruct (move_progressively_inv _ _ _ _ _ Hinv Hmp) as (Hinv1 & _).
  destruct (rehashing_ m1) eqn:Hre; simpl in Hbody.
  - inv_bind Hbody as [num1 c] Hec. inv_bind Hbody as [num2 o] Heo.
    inv_bind Hbody as m4 Hmr4. injection Hbody as <- <-.
    destruct (fixed_erase_shrinks _ _ _ _ (current_wf _ _ _ Hinv1) Hec)
      as (Hwc & Hsubc & _ & Hn1 & Hcc & Hsc & _ & _ & Hhc).
    destruct (fixed_erase_shrinks _ _ _ _ (old_wf _ _ _ Hinv1) Heo)
      as (Hwo & Hsubo & Hszo & Hn2 & Hco & _ & _ & Hcok & _).
    pose proof (tables_shrink m1 c o Hinv1 Hwc Hwo Hsubc Hsubo Hcc Hsc Hhc Hco Hcok) as Hinv4.
    rewrite Hre in Hinv4.
    unfold maybe_rehash in Hmr4. simpl in Hmr4. rewrite Hre in Hmr4. injection Hmr4 as <-.
    unfold maybe_rehash in Hmr. simpl in Hmr. rewrite Hre in Hmr. injection Hmr as <-.
    unfold set_old, set_current. simpl. rewrite Hre. split_and!; [done | lia | lia | lia].
  - inv_bind Hbody as [n1 c] Hec. injection Hbody as <- <-.
    destruct (fixed_erase_shrinks _ _ _ _ (current_wf _ _ _ Hinv1) Hec)
      as (Hwc & Hsubc & _ & Hn1 & Hcc & Hsc & Hne & _ & Hhc).
    pose proof (tables_shrink m1 c (old_ m1) Hinv1 Hwc (old_wf _ _ _ Hinv1) Hsubc
                  (reflexivity _) Hcc Hsc Hhc eq_refl (λ H, H)) as Hinv2.
    rewrite Hre in Hinv2.
    destruct (maybe_rehash_inv hash_call default_hash (set_current c m1) m3)
      as (Hinv3 & _ & Hs3 & _); [by unfold set_current; rewrite Hre | | done |].
    { intros _. simpl. by rewrite Hcc. }
    simpl in Hs3. split_and!; [done | lia | lia | lia].
Qed.

Lemma run_Inv op m m' :
  Inv hash_call default_hash m →
  run key_less hash_call default_hash default_mapped op m = Ok m' →
  Inv hash_call default_hash m'.
Proof.
  intros Hinv Hr. destruct op as [kv|kv|key|key|key|]; simpl in Hr.
  - inv_bind Hr as [[it ins] m2] Hop. injection Hr as <-.
    by destruct (insert_spec _ _ _ _ _ Hinv Hop) as (m1 & _ & ? & _).
  - inv_bind Hr as [[it ins] m2] Hop. injection Hr as <-.
    rewrite Hashmap_emplace_insert in Hop.
    by destruct (insert_spec _ _ _ _ _ Hinv Hop) as (m1 & _ & ? & _).
  - inv_bind Hr as [v m2] Hop. injection Hr as <-.
    by destruct (at_spec _ _ _ _ Hinv Hop) as (m1 & _ & ? & _).
  - inv_bind Hr as [v m2] Hop. injection Hr as <-.
    by destruct (at_spec _ _ _ _ Hinv Hop) as (m1 & _ & ? & _).
  - inv_bind Hr as [n m2] Hop. injection Hr as <-.
    by destruct (erase_spec _ _ _ _ Hinv Hop) as (m1 & _ & ? & _).
  - by eapply clear_Inv.
Qed.

Lemma run_all_Inv ops m m' :
  Inv hash_call default_hash m →
  run_all key_less hash_call default_hash default_mapped ops m = Ok m' →
  Inv hash_call default_hash m'.
Proof.
  revert m. induction ops as [|op ops IH]; intros m Hinv Hr; simpl in Hr.
  - by injection Hr as <-.
  - inv_bind Hr as m1 Hop. eapply IH; [| done]. by eapply run_Inv.
Qed.

Lemma reachable_Inv m :
  reachable key_less hash_call default_hash default_mapped m → Inv hash_call default_hash m.
Proof.
  intros (n & h & ops & Hr). inv_bind Hr as m0 Hnew.
  eapply run_all_Inv; [| done]. by eapply hashmap_new_Inv.
Qed.

Lemma NoDup_fst_agree {A B} (l : list (A * B)) (x : A) (y1 y2 : B) :
  NoDup l.*1 → (x, y1) ∈ l → (x, y2) ∈ l → y1 = y2.
Proof.
  induction l as [|[x' y'] l IH]; intros Hnd H1 H2.
  - by apply elem_of_nil in H1.
  - rewrite fmap_cons in Hnd. apply NoDup_cons in Hnd as [Hfresh Hnd]. simpl in Hfresh.
    apply elem_of_cons in H1 as [H1|H1]; apply elem_of_cons in H2 as [H2|H2].
    + congruence.
    + injection H1 as -> ->. exfalso. apply Hfresh.
      by apply (list_elem_of_fmap_2 fst) in H2.
    + injection H2 as -> ->. exfalso. apply Hfresh.
      by apply (list_elem_of_fmap_2 fst) in H1.
    + by apply IH.
Qed.

Lemma size_contents m : Inv hash_call default_hash m → size m = Z.of_nat (length (contents m)).
Proof.
  intros Hinv. unfold size, FixedHashmap.size, contents.
  rewrite (table_wf_size hash_call _ (current_wf _ _ _ Hinv)).
  rewrite (table_wf_size hash_call _ (old_wf _ _ _ Hinv)).
  rewrite length_app. lia.
Qed.

(** An [insert] of a bound key that returns reports [false] and leaves the
    binding and [size()] as they were. *)
Lemma insert_of_bound_key kv v m it ins m' :
  Inv hash_call default_hash m → bound m kv.1 v →
  insert key_less hash_call default_hash kv m = Ok (it, ins, m') →
  ins = false ∧ bound m' kv.1 v ∧ (∀ w, bound m' kv.1 w → w = v) ∧ size m' = size m.
Proof.
  intros Hinv Hb Hi.
  destruct (insert_spec _ _ _ _ _ Hinv Hi) as (m1 & _ & Hinv' & _ & Hcase).
  assert (Hin : kv.1 ∈ (contents m).*1).
  { by apply (list_elem_of_fmap_2 fst) in Hb. }
  destruct ins; [by destruct Hcase |]. destruct Hcase as [Hp _].
  assert (Hb' : bound m' kv.1 v) by (unfold bound; by rewrite Hp).
  split_and!; [done | done | |].
  - intros w Hw. by apply (NoDup_fst_agree _ _ _ _ (keys_unique _ _ _ Hinv') Hw Hb').
  - by rewrite (size_contents m' Hinv'), (size_contents m Hinv), Hp.
Qed.

End hashmap_calls.

(** ** The loop bounds of the model *)

Lemma fuel_suffices_Ok {A} (a : A) : fuel_suffices (Ok a).
Proof. done. Qed.

Lemma fuel_suffices_bind {A B} (x : outcome A) (f : A → outcome B) :
  fuel_suffices x → (∀ a, x = Ok a → fuel_suffices (f a)) → fuel_suffices (x ≫= f).
Proof.
  destruct x as [a|e]; simpl.
  - intros _ Hf. by apply Hf.
  - intros Hx _ [= ->]. by apply Hx.
Qed.

Section table_fuel.
Import FixedHashmap FixedHashmapInv.
Import TreeListInv.
Context {Key Mapped Hash TablePtr : Type} `{EqDecision Key}.
Context (key_less : Key → Key → bool).
Context (hash_call : Hash → Key → Z).
Context (default_mapped : Mapped).
Implicit Types (m : fixed_hashmap Key Mapped Hash) (key k : Key) (this : TablePtr).
Implicit Types (b : bucket_type Key Mapped) (kv d : value_type Key Mapped).

Lemma hash_fuel m key : fuel_suffices (hash hash_call m key).
Proof. unfold hash. by case_bool_decide. Qed.

Lemma mmap_array_index_fuel (tbl : mmap_array Key Mapped) i :
  fuel_suffices (mmap_array_index tbl i).
Proof. unfold mmap_array_index. case_bool_decide; [| done]. by destruct (tbl !! _). Qed.

Lemma bucket_find_fuel b key : bucket_wf b → fuel_suffices (bucket_find b key).
Proof.
  intros Hwf. pose proof (bucket_find_spec b key Hwf) as Hs.
  destruct (bucket_find b key) as [r|f]; [done |]. by destruct Hs as (-> & _).
Qed.

Lemma bucket_insert_fuel (compare : Key * Mapped → Key * Mapped → bool) kv b :
  bucket_wf b → fuel_suffices (TreeList.insert compare kv b).
Proof.
  intros Hwf.
  destruct (decide (TreeList.ds_type_ b = TreeList.k_red_black_tree ∧ TreeList.size_ b ≤ 3))
    as [Hdue|Hnot].
  - by rewrite (bucket_insert_demotion_due compare kv b Hwf Hdue).
  - by destruct (bucket_insert_spec compare kv b Hwf Hnot) as (it & b' & -> & _).
Qed.

(** The three steps that every keyed call starts with. *)
Lemma probe_fuel {A} m key (f : Z → bucket_type Key Mapped →
    option TreeList.mixed_node_type → outcome A) :
  table_wf hash_call m →
  (∀ (j : nat) b found,
     table_ m !! j = Some b → bucket_wf b → bucket_find b key = Ok found →
     fuel_suffices (f (Z.of_nat j) b found)) →
  fuel_suffices (index ← hash hash_call m key;
                 bucket ← mmap_array_index (table_ m) index;
                 found ← bucket_find bucket key;
                 f index bucket found).
Proof.
  intros Hwf Hf.
  apply fuel_suffices_bind; [apply hash_fuel |]. intros i Hi.
  apply fuel_suffices_bind; [apply mmap_array_index_fuel |]. intros b Hb.
  destruct (probe_inv hash_call m key _ _ Hwf Hi Hb) as (j & -> & _ & Hj & Hwfb & _).
  apply fuel_suffices_bind; [by apply bucket_find_fuel |]. intros found Hfound.
  by apply Hf.
Qed.

Lemma insert_fuel this kv m :
  table_wf hash_call m → fuel_suffices (insert key_less hash_call this kv m).
Proof.
  intros Hwf. unfold insert. apply probe_fuel; [done |].
  intros j b [it|] Hj Hwfb Hfound; [done |].
  apply fuel_suffices_bind; [by apply bucket_insert_fuel |]. by intros [it b'] _.
Qed.

Lemma at_fuel key m :
  table_wf hash_call m → fuel_suffices (at_ key_less hash_call default_mapped key m).
Proof.
  intros Hwf. unfold at_. apply probe_fuel; [done |].
  intros j b [it|] Hj Hwfb Hfound.
  - destruct (bucket_find_Some_inv _ _ _ Hwfb Hfound) as (l1 & d & l2 & Hn & _).
    by rewrite (get_data_names _ _ _ _ _ Hn).
  - rewrite TreeList_emplace_insert.
    apply fuel_suffices_bind; [by apply bucket_insert_fuel |]. by intros [it b'] _.
Qed.

Lemma erase_fuel key m :
  table_wf hash_call m → fuel_suffices (erase hash_call key m).
Proof.
  intros Hwf. unfold erase. apply probe_fuel; [done |].
  intros j b [it|] Hj Hwfb Hfound; [| done].
  destruct (bucket_find_Some_inv _ _ _ Hwfb Hfound) as (l1 & d & l2 & Hn & _).
  by destruct (erase_names _ _ _ _ _ Hwfb Hn) as (it' & b' & -> & _).
Qed.

Lemma find_fuel this key m :
  table_wf hash_call m → fuel_suffices (find hash_call this key m).
Proof.
  intros Hwf. unfold find. apply probe_fuel; [done |]. by intros j b [it|] _ _ _.
Qed.

Lemma contains_fuel key m :
  table_wf hash_call m → fuel_suffices (contains hash_call key m).
Proof. intros Hwf. unfold contains. by apply probe_fuel. Qed.

Lemma fixed_hashmap_new_fuel n (h : Hash) :
  fuel_suffices (fixed_hashmap_new (Key:=Key) (Mapped:=Mapped) n h).
Proof. unfold fixed_hashmap_new, mmap_array_new. by case_bool_decide. Qed.

End table_fuel.

Section hashmap_fuel.
Import Hashmap HashmapInv FixedHashmapInv.
Context {Key Mapped Hash : Type} `{EqDecision Key}.
Context (key_less : Key → Key → bool).
Context (hash_call : Hash → Key → Z).
Context (default_hash : Hash).
Context (default_mapped : Mapped).
Implicit Types (m : hashmap Key Mapped Hash) (key k : Key).
Implicit Types (c o : FixedHashmap.fixed_hashmap Key Mapped Hash).
Implicit Types (kv d : Key * Mapped).

Lemma insert_all_fuel (stolen : list (Key * Mapped)) c :
  table_wf hash_call c → fuel_suffices (insert_all key_less hash_call stolen c).
Proof.
  revert c. induction stolen as [|e rest IH]; intros c Hwf; simpl; [done |].
  apply fuel_suffices_bind; [by apply insert_fuel |].
  intros [[it ins] c1] Hins. simpl. apply IH.
  destruct (insert_inv _ _ _ _ _ _ _ _ Hwf Hins) as (_ & _ & _ & _ & Hcase).
  destruct ins; [by destruct Hcase as (_ & ? & _) | by destruct Hcase as [-> _]].
Qed.

Lemma move_progressively_fuel m :
  Inv hash_call default_hash m →
  fuel_suffices (move_progressively key_less hash_call default_hash m).
Proof.
  intros Hinv. unfold move_progressively. destruct (rehashing_ m) eqn:Hre; simpl; [| done].
  destruct (busy_old_cursor _ _ _ Hinv Hre) as [Hcok _].
  pose proof (steal_elements_spec k_num_items_to_steal (old_ m)
                k_num_items_to_steal_range (proj1 (old_wf _ _ _ Hinv))) as Hs.
  destruct (FixedHashmap.steal_elements _ _) as [[stolen o]|f]; [simpl | done].
  destruct (bool_decide _ && _).
  - unfold on_rehashing_finished.
    apply fuel_suffices_bind; [apply fixed_hashmap_new_fuel | done].
  - apply fuel_suffices_bind; [| done]. apply insert_all_fuel, (current_wf _ _ _ Hinv).
Qed.

Lemma rehash_fuel (new_size : Z) m : fuel_suffices (rehash default_hash new_size m).
Proof.
  unfold rehash. destruct (FixedHashmap.empty (old_ m)); simpl; [| done].
  apply fuel_suffices_bind; [apply fixed_hashmap_new_fuel | done].
Qed.

Lemma maybe_rehash_fuel m : fuel_suffices (maybe_rehash default_hash m).
Proof.
  unfold maybe_rehash, shrink. destruct (rehashing_ m); [done |].
  case_bool_decide; [apply rehash_fuel |].
  destruct (bool_decide _ && _); [apply rehash_fuel | done].
Qed.

Lemma insert_body_fuel kv m :
  Inv hash_call default_hash m → fuel_suffices (insert_body key_less hash_call kv m).
Proof.
  intros Hinv. pose proof (current_wf _ _ _ Hinv) as Hwc.
  assert (Hstore : fuel_suffices
    (FixedHashmap.insert key_less hash_call current_table kv (current_ m)
       ≫= λ '(it, inserted, c), Ok (iterator_new 0 it k_iter_valid, inserted, set_current c m))).
  { apply fuel_suffices_bind; [by apply insert_fuel |]. by intros [[it ins] c] _. }
  unfold insert_body. destruct (rehashing_ m); simpl; [| done].
  apply fuel_suffices_bind; [apply find_fuel, (old_wf _ _ _ Hinv) |].
  intros it_old _. by destruct (FixedHashmap.iterator_ne _ _).
Qed.

Lemma at_body_fuel key m :
  Inv hash_call default_hash m →
  fuel_suffices (at_body key_less hash_call default_mapped key m).
Proof.
  intros Hinv. pose proof (current_wf _ _ _ Hinv) as Hwc.
  assert (Hstore : fuel_suffices
    (FixedHashmap.at_ key_less hash_call default_mapped key (current_ m)
       ≫= λ '(v, c), Ok (v, set_current c m))).
  { apply fuel_suffices_bind; [by apply at_fuel |]. by intros [v c] _. }
  unfold at_body. destruct (rehashing_ m); simpl; [| done].
  apply fuel_suffices_bind; [apply find_fuel, (old_wf _ _ _ Hinv) |].
  intros it_old Hfind.
  destruct (find_inv _ _ _ _ _ (old_wf _ _ _ Hinv) Hfind) as [_ Hcase].
  rewrite iterator_ne_end. destruct (FixedHashmap.end_ it_old); simpl; [done |].
  destruct Hcase as (d & -> & _). done.
Qed.

Lemma TreeList_clear_fuel {T} (b : TreeList.tree_list_base T) :
  fuel_suffices (TreeList.clear b).
Proof.
  unfold TreeList.clear, TreeList.clear_list, TreeList.clear_tree, TreeList.read_head,
    TreeList.read_root, assert.
  destruct b as [[[|x ch]|[|c tl y tr]] n []]; simpl; repeat case_bool_decide; done.
Qed.

Lemma clear_buckets_fuel (l : list (FixedHashmap.bucket_type Key Mapped)) :
  fuel_suffices (FixedHashmap.clear_buckets l).
Proof.
  induction l as [|b l IH]; simpl; [done |].
  apply fuel_suffices_bind; [apply TreeList_clear_fuel | done].
Qed.

Lemma clear_fuel m : fuel_suffices (clear m).
Proof.
  assert (Htable : ∀ c, fuel_suffices (FixedHashmap.clear c)).
  { intros c. unfold FixedHashmap.clear.
    apply fuel_suffices_bind; [apply clear_buckets_fuel | done]. }
  unfold clear. apply fuel_suffices_bind; [apply Htable |]. intros c _.
  apply fuel_suffices_bind; [apply Htable | done].
Qed.

Lemma insert_call_fuel kv m :
  Inv hash_call default_hash m →
  fuel_suffices (insert key_less hash_call default_hash kv m).
Proof.
  intros Hinv. unfold insert.
  apply fuel_suffices_bind; [by apply move_progressively_fuel |]. intros m1 Hmp.
  destruct (move_progressively_inv _ _ _ _ _ Hinv Hmp) as (Hinv1 & _).
  apply fuel_suffices_bind; [by apply insert_body_fuel |]. intros [[it ins] m2] _. simpl.
  apply fuel_suffices_bind; [apply maybe_rehash_fuel | done].
Qed.

Lemma at_call_fuel key m :
  Inv hash_call default_hash m →
  fuel_suffices (at_ key_less hash_call default_hash default_mapped key m).
Proof.
  intros Hinv. unfold at_.
  apply fuel_suffices_bind; [by apply move_progressively_fuel |]. intros m1 Hmp.
  destruct (move_progressively_inv _ _ _ _ _ Hinv Hmp) as (Hinv1 & _).
  apply fuel_suffices_bind; [by apply at_body_fuel |]. intros [v m2] _. simpl.
  apply fuel_suffices_bind; [apply maybe_rehash_fuel | done].
Qed.

Lemma erase_call_fuel key m :
  Inv hash_call default_hash m →
  fuel_suffices (erase key_less hash_call default_hash key m).
Proof.
  intros Hinv. unfold erase.
  apply fuel_suffices_bind; [by apply move_progressively_fuel |]. intros m1 Hmp.
  destruct (move_progressively_inv _ _ _ _ _ Hinv Hmp) as (Hinv1 & _).
  apply fuel_suffices_bind.
  - destruct (rehashing_ m1); simpl.
    + apply fuel_suffices_bind; [apply erase_fuel, (current_wf _ _ _ Hinv1) |].
      intros [num1 c] _. simpl.
      apply fuel_suffices_bind; [apply erase_fuel, (old_wf _ _ _ Hinv1) |].
      intros [num2 o] _. simpl.
      apply fuel_suffices_bind; [apply maybe_rehash_fuel | done].
    + apply fuel_suffices_bind; [apply erase_fuel, (current_wf _ _ _ Hinv1) |].
      by intros [n c] _.
  - intros [n m2] _. simpl. apply fuel_suffices_bind; [apply maybe_rehash_fuel | done].
Qed.

Lemma run_fuel op m :
  Inv hash_call default_hash m →
  fuel_suffices (run key_less hash_call default_hash default_mapped op m).
Proof.
  intros Hinv. destruct op as [kv|kv|key|key|key|]; simpl.
  - apply fuel_suffices_bind; [by apply insert_call_fuel |]. by intros [[it ins] m2] _.
  - rewrite Hashmap_emplace_insert.
    apply fuel_suffices_bind; [by apply insert_call_fuel |]. by intros [[it ins] m2] _.
  - apply fuel_suffices_bind; [by apply at_call_fuel |]. by intros [v m2] _.
  - apply fuel_suffices_bind; [by apply at_call_fuel |]. by intros [v m2] _.
  - apply fuel_suffices_bind; [by apply erase_call_fuel |]. by intros [n m2] _.
  - apply clear_fuel.
Qed.

Lemma run_all_fuel ops m :
  Inv hash_call default_hash m →
  fuel_suffices (run_all key_less hash_call default_hash default_mapped ops m).
Proof.
  revert m. induction ops as [|op ops IH]; intros m Hinv; simpl; [done |].
  apply fuel_suffices_bind; [by apply run_fuel |]. intros m1 Hop.
  apply IH. by eapply run_Inv.
Qed.

(** No sequence of calls on a constructed map stops at a loop bound of the
    model: it returns, or it ends in a fault of the source. *)
Lemma calls_within_fuel (initial_size : Z) (h : Hash) ops :
  fuel_suffices (hashmap_new initial_size h
                   ≫= run_all key_less hash_call default_hash default_mapped ops).
Proof.
  apply fuel_suffices_bind.
  - unfold hashmap_new.
    apply fuel_suffices_bind; [apply fixed_hashmap_new_fuel |]. intros c _.
    apply fuel_suffices_bind; [apply fixed_hashmap_new_fuel | done].
  - intros m Hm. apply run_all_fuel. by eapply hashmap_new_Inv.
Qed.

End hashmap_fuel.

(** ** The migration step of a call *)

Section migration_step.
Import Hashmap HashmapInv FixedHashmapInv.
Context {Key Mapped Hash : Type} `{EqDecision Key}.
Context (key_less : Key → Key → bool).
Context (hash_call : Hash → Key → Z).
Context (default_hash : Hash).
Context (default_mapped : Mapped).
Implicit Types (m : hashmap Key Mapped Hash).

(** A mutating call is its migration step followed by the rest of its
    body. *)
Lemma run_split op m :
  op ≠ op_clear →
  run key_less hash_call default_hash default_mapped op m =
  move_progressively key_less hash_call default_hash m
    ≫= run_after_step key_less hash_call default_hash default_mapped op.
Proof.
  intros Hop. destruct op as [kv|kv|key|key|key|]; simpl; [..| done].
  - unfold insert. destruct (move_progressively _ _ _ m) as [m1|]; simpl; [| done].
    destruct (insert_body _ _ kv m1) as [[[it ins] m2]|]; simpl; [| done].
    by destruct (maybe_rehash _ m2).
  - unfold emplace. destruct (move_progressively _ _ _ m) as [m1|]; simpl; [| done].
    destruct (emplace_body _ _ kv m1) as [[[it ins] m2]|]; simpl; [| done].
    by destruct (maybe_rehash _ m2).
  - unfold at_. destruct (move_progressively _ _ _ m) as [m1|]; simpl; [| done].
    destruct (at_body _ _ _ key m1) as [[v m2]|]; simpl; [| done].
    by destruct (maybe_rehash _ m2).
  - unfold subscript, at_. destruct (move_progressively _ _ _ m) as [m1|]; simpl; [| done].
    destruct (at_body _ _ _ key m1) as [[v m2]|]; simpl; [| done].
    by destruct (maybe_rehash _ m2).
  - unfold erase. destruct (move_progressively _ _ _ m) as [m1|]; simpl; [| done].
    destruct (rehashing_ m1); simpl.
    + destruct (FixedHashmap.erase hash_call key (current_ m1)) as [[num1 c]|]; simpl; [| done].
      destruct (FixedHashmap.erase hash_call key (old_ m1)) as [[num2 o]|]; simpl; [| done].
      destruct (maybe_rehash _ (set_old o (set_current c m1))) as [m2|]; simpl; [| done].
      by destruct (maybe_rehash _ m2).
    + destruct (FixedHashmap.erase hash_call key (current_ m1)) as [[num1 c]|]; simpl; [| done].
      by destruct (maybe_rehash _ (set_current c m1)).
Qed.

(** The step moves one element: the first element of the highest slot of
    [old_] that holds one, when that slot is at most [k_max_steal_iterations]
    below the cursor. *)
Lemma move_progressively_takes m m1 (j : nat) b d rest :
  Inv hash_call default_hash m → rehashing_ m = true →
  Z.of_nat j ≤ FixedHashmap.stolen_bucket_ (old_ m) →
  FixedHashmap.stolen_bucket_ (old_ m) - Z.of_nat j ≤ FixedHashmap.k_max_steal_iterations →
  FixedHashmap.table_ (old_ m) !! j = Some b → TreeList.elements b = d :: rest →
  (∀ (i : nat) bi, Z.of_nat j < Z.of_nat i ≤ FixedHashmap.stolen_bucket_ (old_ m) →
                   FixedHashmap.table_ (old_ m) !! i = Some bi → TreeList.elements bi = []) →
  move_progressively key_less hash_call default_hash m = Ok m1 →
  rehashing_ m1 = true ∧
  FixedHashmap.size_ (old_ m1) = FixedHashmap.size_ (old_ m) - 1 ∧
  FixedHashmap.elements (old_ m) ≡ₚ d :: FixedHashmap.elements (old_ m1) ∧
  FixedHashmap.elements (current_ m1) ≡ₚ d :: FixedHashmap.elements (current_ m).
Proof.
  intros Hinv Hre Hj Hlim Hb He Hgap Hmp. unfold move_progressively in Hmp.
  rewrite Hre in Hmp. simpl in Hmp. inv_bind Hmp as [stolen o] Hst. simpl in Hmp.
  destruct Hinv as [Hwc Hwo Hnd Hidle Hbusy Hcur Hzero Hcap Hdef].
  pose proof (steal_elements_takes (old_ m) j b d rest stolen o (proj1 Hwo) Hj Hlim Hb He Hgap Hst)
    as ->.
  pose proof (steal_elements_spec k_num_items_to_steal (old_ m) k_num_items_to_steal_range
                (proj1 Hwo)) as Hs.
  rewrite Hst in Hs.
  destruct Hs as (_ & _ & Hsize & Hperm & _).
  rewrite bool_decide_false in Hmp by done. simpl in Hmp.
  inv_bind Hmp as c Hall. injection Hmp as <-. simpl.
  assert (Hnd' : NoDup ([d].*1 ++ keys (current_ m))).
  { unfold contents in Hnd. rewrite Hperm in Hnd. rewrite !fmap_app in Hnd.
    rewrite (assoc_L (++)) in Hnd. apply NoDup_app in Hnd as (Hnd & _).
    unfold keys. by rewrite (comm (++)). }
  destruct (insert_all_inv _ _ _ _ _ Hwc Hnd' Hall) as (_ & Hpc & _).
  split_and!; [done | simpl in Hsize; lia | done | done].
Qed.

(** The step on a map whose [old_] holds no element ends the migration and
    leaves [current_] as it is. *)
Lemma move_progressively_ends m m1 :
  Inv hash_call default_hash m → rehashing_ m = true →
  FixedHashmap.elements (old_ m) = [] →
  move_progressively key_less hash_call default_hash m = Ok m1 →
  rehashing_ m1 = false ∧ current_ m1 = current_ m ∧ FixedHashmap.elements (old_ m1) = [].
Proof.
  intros Hinv Hre Hnil Hmp.
  destruct (move_progressively_inv _ _ _ _ _ Hinv Hmp) as (Hinv1 & _).
  unfold move_progressively in Hmp.
  rewrite Hre in Hmp. simpl in Hmp. inv_bind Hmp as [stolen o] Hst. simpl in Hmp.
  pose proof (steal_elements_spec k_num_items_to_steal (old_ m) k_num_items_to_steal_range
                (proj1 (old_wf _ _ _ Hinv))) as Hs.
  rewrite Hst in Hs. destruct Hs as (Hok' & _ & Hsize & Hperm & _).
  rewrite Hnil in Hperm. apply Permutation_nil_l in Hperm.
  symmetry in Hperm. apply app_eq_nil in Hperm as [-> Ho].
  assert (Hemp : FixedHashmap.empty o = true).
  { unfold FixedHashmap.empty. apply bool_decide_eq_true. destruct Hok' as [_ ->].
    by rewrite Ho. }
  rewrite bool_decide_true, Hemp in Hmp by done. simpl in Hmp.
  unfold on_rehashing_finished in Hmp. inv_bind Hmp as fresh Hfresh. injection Hmp as <-.
  destruct (fixed_hashmap_new_inv hash_call _ _ _ Hfresh) as (_ & Hef & _).
  by split_and!.
Qed.

End migration_step.

(** ** The claims about hashmap *)

Section hashmap_claims.
Import Hashmap HashmapInv FixedHashmapInv.
Context {Key Mapped Hash : Type} `{EqDecision Key}.
Context (key_less : Key → Key → bool).
Context (hash_call : Hash → Key → Z).
Context (default_hash : Hash).
Context (default_mapped : Mapped).
Implicit Types (m : hashmap Key Mapped Hash) (key k : Key).
Implicit Types (kv : Key * Mapped) (v : Mapped).

(** An [insert] that meets its key in [old_] after the migration step. *)
Lemma insert_found_in_old kv m m1 it ins m' :
  Inv hash_call default_hash m1 →
  move_progressively key_less hash_call default_hash m = Ok m1 →
  rehashing_ m1 = true → kv.1 ∈ keys (old_ m1) →
  insert key_less hash_call default_hash kv m = Ok (it, ins, m') →
  ins = false ∧ m' = m1.
Proof.
  intros Hinv Hmp Hre Hin Hi. unfold insert in Hi. rewrite Hmp in Hi. simpl in Hi.
  inv_bind Hi as [[it0 ins0] m2] Hbody. inv_bind Hi as m3 Hmr. injection Hi as <- <- <-.
  unfold insert_body in Hbody. rewrite Hre in Hbody. simpl in Hbody.
  inv_bind Hbody as it_old Hfind.
  destruct (find_inv _ _ _ _ _ (old_wf _ _ _ Hinv) Hfind) as [_ Hcase].
  rewrite iterator_ne_end in Hbody. destruct (FixedHashmap.end_ it_old); simpl in Hbody.
  - done.
  - injection Hbody as <- <- <-. unfold maybe_rehash in Hmr. rewrite Hre in Hmr.
    by injection Hmr as <-.
Qed.

(** C5. After a constructor call and any sequence of calls of [insert],
    [emplace], [at], [operator[]], [erase] and [clear] that return, no key is
    bound twice across [current_] and [old_], so a key has at most one value;
    the same holds between the migration step of the next call and its body.
    An [insert] that, after its migration step, runs during a migration and
    meets its key in [old_] reports [false] and leaves both tables as the
    migration step left them. *)
Theorem C5_one_binding_per_key (initial_size : Z) (hash : Hash) ops m :
  hashmap_new initial_size hash
    ≫= run_all key_less hash_call default_hash default_mapped ops = Ok m →
  NoDup (contents m).*1 ∧
  (∀ k v1 v2, bound m k v1 → bound m k v2 → v1 = v2) ∧
  (∀ m1, move_progressively key_less hash_call default_hash m = Ok m1 →
     NoDup (contents m1).*1 ∧
     ∀ kv it ins m',
       rehashing_ m1 = true → kv.1 ∈ keys (old_ m1) →
       insert key_less hash_call default_hash kv m = Ok (it, ins, m') →
       ins = false ∧ m' = m1).
Proof.
  intros Hr.
  assert (Hinv : Inv hash_call default_hash m).
  { apply (reachable_Inv key_less hash_call default_hash default_mapped).
    by exists initial_size, hash, ops. }
  split_and!.
  - apply (keys_unique _ _ _ Hinv).
  - intros k v1 v2. apply NoDup_fst_agree, (keys_unique _ _ _ Hinv).
  - intros m1 Hmp.
    destruct (move_progressively_inv _ _ _ _ _ Hinv Hmp) as (Hinv1 & _).
    split; [apply (keys_unique _ _ _ Hinv1) |].
    intros kv it ins m' Hre Hin Hi. by eapply insert_found_in_old.
Qed.

Lemma find_frame key m it m' : find hash_call key m = Ok (it, m') → m' = m.
Proof.
  unfold find. intros Hf. inv_bind Hf as u Hu. inv_bind Hf as it1 H1.
  destruct (FixedHashmap.iterator_ne it1 _); [by injection Hf as _ <- |].
  inv_bind Hf as it2 H2.
  destruct (FixedHashmap.iterator_ne it2 _); by injection Hf as _ <-.
Qed.

Lemma contains_frame key m r m' : contains hash_call key m = Ok (r, m') → m' = m.
Proof.
  unfold contains. intros Hc. inv_bind Hc as [|] H1; [by injection Hc as _ <- |].
  inv_bind Hc as r2 H2. by injection Hc as _ <-.
Qed.

(** C7. On a reachable map, [find] and [contains] return the map they
    were given: both tables and the flag are as before, also in the middle of
    a migration. Each of [insert], [emplace], [at], [operator[]] and [erase]
    is one call of [move_progressively] followed by the rest of its body,
    which runs on the map that the step left. On a map that is not migrating
    the step changes nothing. During a migration it moves one element from
    [old_] to [current_], the first element of the highest slot of [old_] that
    holds one, provided that slot is at most [k_max_steal_iterations] below
    the cursor; when [old_] holds no element it ends the migration. In every
    case the step keeps the bindings, takes at most [k_num_items_to_steal]
    elements out of [old_] and puts none in; the rest of the call takes no
    element out of [old_], except that [erase] may take out the one it
    erases. *)
Theorem C7_one_migration_step m :
  reachable key_less hash_call default_hash default_mapped m →
  (∀ key it m', find hash_call key m = Ok (it, m') → m' = m) ∧
  (∀ key r m', contains hash_call key m = Ok (r, m') → m' = m) ∧
  (∀ op m', op ≠ op_clear →
     run key_less hash_call default_hash default_mapped op m = Ok m' →
     ∃ m1, move_progressively key_less hash_call default_hash m = Ok m1 ∧
       run_after_step key_less hash_call default_hash default_mapped op m1 = Ok m' ∧
       (rehashing_ m = false → m1 = m) ∧
       (rehashing_ m = true →
          ∀ (j : nat) b d rest,
            Z.of_nat j ≤ FixedHashmap.stolen_bucket_ (old_ m) →
            FixedHashmap.stolen_bucket_ (old_ m) - Z.of_nat j
              ≤ FixedHashmap.k_max_steal_iterations →
            FixedHashmap.table_ (old_ m) !! j = Some b → TreeList.elements b = d :: rest →
            (∀ (i : nat) bi,
               Z.of_nat j < Z.of_nat i ≤ FixedHashmap.stolen_bucket_ (old_ m) →
               FixedHashmap.table_ (old_ m) !! i = Some bi → TreeList.elements bi = []) →
            rehashing_ m1 = true ∧
            FixedHashmap.size_ (old_ m1) = FixedHashmap.size_ (old_ m) - 1 ∧
            FixedHashmap.elements (old_ m) ≡ₚ d :: FixedHashmap.elements (old_ m1) ∧
            FixedHashmap.elements (current_ m1) ≡ₚ d :: FixedHashmap.elements (current_ m)) ∧
       (rehashing_ m = true → FixedHashmap.elements (old_ m) = [] →
          rehashing_ m1 = false ∧ current_ m1 = current_ m) ∧
       contents m1 ≡ₚ contents m ∧
       FixedHashmap.size_ (old_ m) - k_num_items_to_steal ≤ FixedHashmap.size_ (old_ m1) ∧
       FixedHashmap.size_ (old_ m1) ≤ FixedHashmap.size_ (old_ m) ∧
       FixedHashmap.size_ (old_ m1) - erased_by op ≤ FixedHashmap.size_ (old_ m')).
Proof.
  intros Hreach. pose proof (reachable_Inv _ _ _ _ _ Hreach) as Hinv.
  split_and!.
  - intros key it m'. apply find_frame.
  - intros key r m'. apply contains_frame.
  - intros op m' Hop Hr.
    assert (Hlast : ∃ m1, move_progressively key_less hash_call default_hash m = Ok m1 ∧
              FixedHashmap.size_ (old_ m1) - erased_by op ≤ FixedHashmap.size_ (old_ m')).
    { destruct op as [kv|kv|key|key|key|]; simpl in Hr; [..| done].
      + inv_bind Hr as [[it ins] m2] Ho. injection Hr as <-.
        destruct (insert_spec _ _ _ _ _ _ _ _ Hinv Ho) as (m1 & Hmp & _ & Hs & _).
        exists m1. simpl. split; [done | lia].
      + inv_bind Hr as [[it ins] m2] Ho. injection Hr as <-.
        rewrite Hashmap_emplace_insert in Ho.
        destruct (insert_spec _ _ _ _ _ _ _ _ Hinv Ho) as (m1 & Hmp & _ & Hs & _).
        exists m1. simpl. split; [done | lia].
      + inv_bind Hr as [v m2] Ho. injection Hr as <-.
        destruct (at_spec _ _ _ _ _ _ _ _ Hinv Ho) as (m1 & Hmp & _ & Hs).
        exists m1. simpl. split; [done | lia].
      + inv_bind Hr as [v m2] Ho. injection Hr as <-.
        destruct (at_spec _ _ _ _ _ _ _ _ Hinv Ho) as (m1 & Hmp & _ & Hs).
        exists m1. simpl. split; [done | lia].
      + inv_bind Hr as [n m2] Ho. injection Hr as <-.
        destruct (erase_spec _ _ _ _ _ _ _ Hinv Ho) as (m1 & Hmp & _ & Hn & Hs).
        exists m1. simpl. split; [done | lia]. }
    destruct Hlast as (m1 & Hmp & Hlast). exists m1.
    destruct (move_progressively_inv _ _ _ _ _ Hinv Hmp) as (_ & Hp & Hlow & Hup & Hidle & _).
    rewrite (run_split key_less hash_call default_hash default_mapped op m Hop), Hmp in Hr.
    split_and!; try done.
    + intros Hre j b d rest Hj Hlim Hb He Hgap.
      by apply (move_progressively_takes key_less hash_call default_hash m m1 j b d rest).
    + intros Hre Hnil.
      by destruct (move_progressively_ends key_less hash_call default_hash m m1 Hinv Hre Hnil Hmp)
        as (? & ? & _).
Qed.

(** C4. For two iterators that are not end iterators and agree on
    [which_], [operator==] returns the negation of the comparison of the
    inner iterators and [operator!=] returns that comparison: an iterator
    differs from itself, and iterators to different elements are equal. *)
Theorem C4_equality_is_negated (a b : iterator) :
  end_ a = false → end_ b = false → which_ a = which_ b →
  iterator_eq a b = negb (FixedHashmap.iterator_eq (it_ a) (it_ b)) ∧
  iterator_ne a b = FixedHashmap.iterator_eq (it_ a) (it_ b).
Proof.
  intros Ha Hb Hw. unfold iterator_ne, iterator_eq. rewrite Ha, Hb. simpl.
  rewrite (bool_decide_true _ Hw). simpl. unfold FixedHashmap.iterator_ne.
  by rewrite negb_involutive.
Qed.

Lemma hash_without_slots (c : FixedHashmap.fixed_hashmap Key Mapped Hash) key :
  FixedHashmap.table_ c = [] →
  FixedHashmap.hash hash_call c key = Fault undefined_behaviour.
Proof. intros Ht. unfold FixedHashmap.hash. by rewrite Ht. Qed.

(** C8. After [clear()] the arrays of both tables are released, and
    [hash] divides by the length of the array: [insert], [emplace], [at],
    [erase], [find] and [contains] all have undefined behaviour. *)
Theorem C8_calls_after_clear m m' kv key :
  clear m = Ok m' →
  insert key_less hash_call default_hash kv m' = Fault undefined_behaviour ∧
  emplace key_less hash_call default_hash kv m' = Fault undefined_behaviour ∧
  at_ key_less hash_call default_hash default_mapped key m' = Fault undefined_behaviour ∧
  erase key_less hash_call default_hash key m' = Fault undefined_behaviour ∧
  find hash_call key m' = Fault undefined_behaviour ∧
  contains hash_call key m' = Fault undefined_behaviour.
Proof.
  unfold clear. intros Hc. inv_bind Hc as c Hcc. inv_bind Hc as o Hco. injection Hc as <-.
  destruct (clear_inv _ _ Hcc) as (Ht & _).
  pose proof (λ key, hash_without_slots c key Ht) as Hh.
  unfold insert, emplace, at_, erase, find, contains, move_progressively, insert_body,
    emplace_body, at_body. simpl.
  unfold FixedHashmap.insert, FixedHashmap.emplace, FixedHashmap.at_, FixedHashmap.erase,
    FixedHashmap.find, FixedHashmap.contains.
  by rewrite !Hh.
Qed.

(** C10. [rehash] builds the table that becomes [current_] with
    [Hash()], whatever hasher the map was constructed with, and what was
    [current_], hasher included, becomes [old_]: the slot of a key in the new
    [current_] is computed with [Hash()]. Hence, for a map constructed with
    any hasher [h], whenever a migration is under way after any sequence of
    calls, [current_] hashes with [Hash()]. *)
Theorem C10_rehash_uses_default_hash
    (initial_size new_size : Z) (h : Hash) ops (m0 m' m : hashmap Key Mapped Hash) :
  (rehash default_hash new_size m0 = Ok m' →
     FixedHashmap.hash_function_ (current_ m') = default_hash ∧
     old_ m' = current_ m0 ∧
     FixedHashmap.hash_function_ (old_ m') = FixedHashmap.hash_function_ (current_ m0) ∧
     FixedHashmap.swap (current_ m') (old_ m') = (current_ m0, current_ m') ∧
     ∀ key i, FixedHashmap.hash hash_call (current_ m') key = Ok i →
              i = FixedHashmap.to_size_t (hash_call default_hash key)
                    `mod` FixedHashmap.get_bucket_count (current_ m')) ∧
  (hashmap_new initial_size h
     ≫= run_all key_less hash_call default_hash default_mapped ops = Ok m →
   rehashing_ m = true →
     FixedHashmap.hash_function_ (current_ m) = default_hash ∧
     ∀ key i, FixedHashmap.hash hash_call (current_ m) key = Ok i →
              i = FixedHashmap.to_size_t (hash_call default_hash key)
                    `mod` FixedHashmap.get_bucket_count (current_ m)).
Proof.
  split.
  - intros Hr. apply rehash_inv in Hr as (fresh & Hf & _ & ->). simpl.
    destruct (fixed_hashmap_new_inv hash_call _ _ _ Hf) as (_ & _ & _ & Hh & _).
    split_and!; try done.
    intros key i Hi. apply hash_Ok_inv in Hi as [-> _].
    unfold index_of. by rewrite Hh.
  - intros Hr Hre.
    assert (Hinv : Inv hash_call default_hash m).
    { apply (reachable_Inv key_less hash_call default_hash default_mapped).
      by exists initial_size, h, ops. }
    pose proof (busy_current_hash _ _ _ Hinv Hre) as Hh. split; [done |].
    intros key i Hi. apply hash_Ok_inv in Hi as [-> _].
    unfold index_of. by rewrite Hh.
Qed.

End hashmap_claims.

Section hashmap_examples.
Import Hashmap HashmapInv FixedHashmapInv Examples.

(** C3. On the map that [hashmap m(2); m.insert({1, 10});
    m.insert({2, 20});] builds, which holds two elements, the loop from
    [begin()] to [end()] ends after four visits: it visits both elements
    of [old_], then both again. *)
Theorem C3_iteration_repeats_old :
  hashmap_new 2 () ≫= run_all Z.ltb identity_hash () 0 migrating_map_calls = Ok migrating_map ∧
  size migrating_map = 2 ∧
  contents migrating_map = [(2, 20); (1, 10)] ∧
  iterate 4 migrating_map = Ok [(2, 20); (1, 10); (2, 20); (1, 10)].
Proof. split_and!; vm_compute; reflexivity. Qed.

(** C9. Key 0 is bound in the map that [crowded_slot_calls] builds from
    [hashmap m(16)], and [insert({0, 99})] has undefined behaviour: its
    migration step takes the last element out of slot 0 of [old_], which
    holds a tree, and [old_.find(0)] then starts at the null root. *)
Theorem C9_insert_of_bound_key_faults :
  ∃ m, hashmap_new 16 () ≫= run_all Z.ltb identity_hash () 0 crowded_slot_calls = Ok m ∧
       bound m 0 0 ∧
       insert Z.ltb identity_hash () (0, 99) m = Fault undefined_behaviour.
Proof.
  destruct (hashmap_new 16 () ≫= run_all Z.ltb identity_hash () 0 crowded_slot_calls)
    as [m|] eqn:Hm; [| by vm_compute in Hm].
  exists m. split; [done |].
  vm_compute in Hm. injection Hm as <-. split.
  - unfold bound. vm_compute. apply list_elem_of_In. simpl. tauto.
  - vm_compute. reflexivity.
Qed.

Lemma C4_equality_is_negated_witness :
  iterator_eq migrating_map_begin migrating_map_begin
    = negb (FixedHashmap.iterator_eq (it_ migrating_map_begin) (it_ migrating_map_begin)) ∧
  iterator_ne migrating_map_begin migrating_map_begin
    = FixedHashmap.iterator_eq (it_ migrating_map_begin) (it_ migrating_map_begin).
Proof. apply C4_equality_is_negated; reflexivity. Defined.

Lemma C8_calls_after_clear_witness :
  insert Z.ltb identity_hash () (1, 10) cleared_map = Fault undefined_behaviour ∧
  emplace Z.ltb identity_hash () (1, 10) cleared_map = Fault undefined_behaviour ∧
  at_ Z.ltb identity_hash () 0 1 cleared_map = Fault undefined_behaviour ∧
  erase Z.ltb identity_hash () 1 cleared_map = Fault undefined_behaviour ∧
  find identity_hash 1 cleared_map = Fault undefined_behaviour ∧
  contains identity_hash 1 cleared_map = Fault undefined_behaviour.
Proof. apply (C8_calls_after_clear _ _ _ _ migrating_map). reflexivity. Defined.

Lemma C10_rehash_uses_default_hash_witness :
  (FixedHashmap.hash_function_ (current_ seeded_map_rehashed) = 0 ∧
   old_ seeded_map_rehashed = current_ seeded_map ∧
   FixedHashmap.hash_function_ (old_ seeded_map_rehashed)
     = FixedHashmap.hash_function_ (current_ seeded_map) ∧
   FixedHashmap.swap (current_ seeded_map_rehashed) (old_ seeded_map_rehashed)
     = (current_ seeded_map, current_ seeded_map_rehashed) ∧
   ∀ key i, FixedHashmap.hash seeded_hash (current_ seeded_map_rehashed) key = Ok i →
            i = FixedHashmap.to_size_t (seeded_hash 0 key)
                  `mod` FixedHashmap.get_bucket_count (current_ seeded_map_rehashed)) ∧
  (FixedHashmap.hash_function_ (current_ seeded_map_migrating) = 0 ∧
   ∀ key i, FixedHashmap.hash seeded_hash (current_ seeded_map_migrating) key = Ok i →
            i = FixedHashmap.to_size_t (seeded_hash 0 key)
                  `mod` FixedHashmap.get_bucket_count (current_ seeded_map_migrating)).
Proof.
  destruct (C10_rehash_uses_default_hash Z.ltb seeded_hash 0 0 2 4 7 migrating_map_calls
              seeded_map seeded_map_rehashed seeded_map_migrating) as [H1 H2].
  split; [apply H1; reflexivity | apply H2; reflexivity].
Defined.

Lemma C5_one_binding_per_key_witness :
  NoDup (contents migrating_map).*1 ∧
  (∀ k v1 v2, bound migrating_map k v1 → bound migrating_map k v2 → v1 = v2) ∧
  (∀ m1, move_progressively Z.ltb identity_hash () migrating_map = Ok m1 →
     NoDup (contents m1).*1 ∧
     ∀ kv it ins m',
       rehashing_ m1 = true → kv.1 ∈ keys (old_ m1) →
       insert Z.ltb identity_hash () kv migrating_map = Ok (it, ins, m') →
       ins = false ∧ m' = m1).
Proof.
  apply (C5_one_binding_per_key Z.ltb identity_hash () 0 2 () migrating_map_calls).
  reflexivity.
Defined.

Lemma C7_one_migration_step_witness :
  (∀ key it m', find identity_hash key migrating_map = Ok (it, m') → m' = migrating_map) ∧
  (∀ key r m', contains identity_hash key migrating_map = Ok (r, m') → m' = migrating_map) ∧
  (∀ op m', op ≠ op_clear →
     run Z.ltb identity_hash () 0 op migrating_map = Ok m' →
     ∃ m1, move_progressively Z.ltb identity_hash () migrating_map = Ok m1 ∧
       run_after_step Z.ltb identity_hash () 0 op m1 = Ok m' ∧
       (rehashing_ migrating_map = false → m1 = migrating_map) ∧
       (rehashing_ migrating_map = true →
          ∀ (j : nat) b d rest,
            Z.of_nat j ≤ FixedHashmap.stolen_bucket_ (old_ migrating_map) →
            FixedHashmap.stolen_bucket_ (old_ migrating_map) - Z.of_nat j
              ≤ FixedHashmap.k_max_steal_iterations →
            FixedHashmap.table_ (old_ migrating_map) !! j = Some b →
            TreeList.elements b = d :: rest →
            (∀ (i : nat) bi,
               Z.of_nat j < Z.of_nat i ≤ FixedHashmap.stolen_bucket_ (old_ migrating_map) →
               FixedHashmap.table_ (old_ migrating_map) !! i = Some bi →
               TreeList.elements bi = []) →
            rehashing_ m1 = true ∧
            FixedHashmap.size_ (old_ m1) = FixedHashmap.size_ (old_ migrating_map) - 1 ∧
            FixedHashmap.elements (old_ migrating_map) ≡ₚ d :: FixedHashmap.elements (old_ m1) ∧
            FixedHashmap.elements (current_ m1)
              ≡ₚ d :: FixedHashmap.elements (current_ migrating_map)) ∧
       (rehashing_ migrating_map = true → FixedHashmap.elements (old_ migrating_map) = [] →
          rehashing_ m1 = false ∧ current_ m1 = current_ migrating_map) ∧
       contents m1 ≡ₚ contents migrating_map ∧
       FixedHashmap.size_ (old_ migrating_map) - k_num_items_to_steal
         ≤ FixedHashmap.size_ (old_ m1) ∧
       FixedHashmap.size_ (old_ m1) ≤ FixedHashmap.size_ (old_ migrating_map) ∧
       FixedHashmap.size_ (old_ m1) - erased_by op ≤ FixedHashmap.size_ (old_ m')).
Proof.
  apply (C7_one_migration_step Z.ltb identity_hash () 0 migrating_map).
  exists 2, (), migrating_map_calls. reflexivity.
Defined.

End hashmap_examples.

(** * Further properties *)

(** ** The keyed operations of a table *)

Section table_contracts.
Import FixedHashmap FixedHashmapInv.
Import TreeListInv.
Context {Key Mapped Hash TablePtr : Type} `{EqDecision Key}.
Context (key_less : Key → Key → bool).
Context (hash_call : Hash → Key → Z).
Context (default_mapped : Mapped).
Implicit Types (m : fixed_hashmap Key Mapped Hash) (key k : Key) (this : TablePtr).
Implicit Types (b : bucket_type Key Mapped) (kv d : value_type Key Mapped) (v : Mapped).

Lemma elements_table_ne m kv : kv ∈ elements m → table_ m ≠ [].
Proof. intros Hin Ht. unfold elements in Hin. rewrite Ht in Hin. by apply elem_of_nil in Hin. Qed.

(** The three steps that every keyed call starts with, for a key that the
    table holds. *)
Lemma probe_present m kv :
  table_wf hash_call m → kv ∈ elements m →
  ∃ (j : nat) b it l1 l2,
    hash hash_call m kv.1 = Ok (Z.of_nat j) ∧
    mmap_array_index (table_ m) (Z.of_nat j) = Ok b ∧
    table_ m !! j = Some b ∧ bucket_wf b ∧
    bucket_find b kv.1 = Ok (Some it) ∧ names b it l1 kv l2.
Proof.
  intros Hwf Hin.
  destruct (probe_Ok hash_call m kv.1 Hwf (elements_table_ne m kv Hin))
    as (j & b & Hh & Hb & _ & Hj & Hwfb & Hkeys).
  assert (Hk : kv.1 ∈ keys m) by by apply (list_elem_of_fmap_2 fst).
  apply Hkeys in Hk.
  destruct (bucket_find_present b kv.1 Hwfb Hk) as (it & l1 & d & l2 & Hf & Hn & Hd & _).
  assert (Hdm : d ∈ elements m).
  { rewrite elements_flat. apply elem_of_flat. exists j, b. split; [done |].
    rewrite (names_elements _ _ _ _ _ Hn). apply elem_of_app. right. by apply elem_of_cons; left. }
  assert (d = kv) as ->.
  { destruct Hwf as (_ & _ & Hnd). destruct d as [dk dv], kv as [k v]. simpl in *. subst dk.
    f_equal. by apply (NoDup_fst_agree (elements m) k dv v Hnd). }
  by exists j, b, it, l1, l2.
Qed.

Lemma find_present this m kv :
  table_wf hash_call m → kv ∈ elements m →
  ∃ it, find hash_call this kv.1 m = Ok it ∧ end_ it = false ∧ it_table_ it = this ∧
        deref (table_ m) it = Ok kv.
Proof.
  intros Hwf Hin.
  destruct (probe_present m kv Hwf Hin) as (j & b & it & l1 & l2 & Hh & Hb & Hj & Hwfb & Hf & Hn).
  exists (mk_iterator this it (Z.of_nat j) false). unfold find, deref.
  rewrite Hh. simpl. rewrite Hb. simpl. rewrite Hf. simpl.
  by rewrite (get_data_names _ _ _ _ _ Hn).
Qed.

Lemma insert_present this m k v v' :
  table_wf hash_call m → (k, v) ∈ elements m →
  ∃ it, insert key_less hash_call this (k, v') m = Ok (it, false, m) ∧
        end_ it = false ∧ deref (table_ m) it = Ok (k, v).
Proof.
  intros Hwf Hin.
  destruct (probe_present m (k, v) Hwf Hin)
    as (j & b & it & l1 & l2 & Hh & Hb & Hj & Hwfb & Hf & Hn).
  exists (mk_iterator this it (Z.of_nat j) false). unfold insert, deref. simpl in *.
  rewrite Hh. simpl. rewrite Hb. simpl. rewrite Hf. simpl.
  by rewrite (get_data_names _ _ _ _ _ Hn).
Qed.

Lemma contains_present m kv :
  table_wf hash_call m → kv ∈ elements m → contains hash_call kv.1 m = Ok true.
Proof.
  intros Hwf Hin.
  destruct (probe_present m kv Hwf Hin) as (j & b & it & l1 & l2 & Hh & Hb & Hj & Hwfb & Hf & Hn).
  unfold contains. rewrite Hh. simpl. rewrite Hb. simpl. rewrite Hf. simpl.
  by rewrite ?bool_decide_true.
Qed.

Lemma at_const_present m k v :
  table_wf hash_call m → (k, v) ∈ elements m → at_const hash_call k m = Ok v.
Proof.
  intros Hwf Hin.
  destruct (probe_present m (k, v) Hwf Hin)
    as (j & b & it & l1 & l2 & Hh & Hb & Hj & Hwfb & Hf & Hn).
  unfold at_const. simpl in *. rewrite Hh. simpl. rewrite Hb. simpl. rewrite Hf. simpl.
  by rewrite (get_data_names _ _ _ _ _ Hn).
Qed.

Lemma at_present m k v :
  table_wf hash_call m → (k, v) ∈ elements m →
  at_ key_less hash_call default_mapped k m = Ok (v, m).
Proof.
  intros Hwf Hin.
  destruct (probe_present m (k, v) Hwf Hin)
    as (j & b & it & l1 & l2 & Hh & Hb & Hj & Hwfb & Hf & Hn).
  unfold at_. simpl in *. rewrite Hh. simpl. rewrite Hb. simpl. rewrite Hf. simpl.
  by rewrite (get_data_names _ _ _ _ _ Hn).
Qed.

Lemma at_const_inv m key v :
  table_wf hash_call m → at_const hash_call key m = Ok v → (key, v) ∈ elements m.
Proof.
  intros Hwf Hat. unfold at_const in Hat.
  inv_bind Hat as i Hh. inv_bind Hat as b Hb. inv_bind Hat as found Hf.
  destruct (probe_inv hash_call m key _ _ Hwf Hh Hb) as (j & -> & Hidx & Hj & Hwfb & Hne & Hkeys).
  destruct found as [it0|]; [| done].
  inv_bind Hat as d Hd. injection Hat as <-.
  destruct (bucket_find_Some_inv _ _ _ Hwfb Hf) as (l1 & d' & l2 & Hn & Hd' & _).
  rewrite (get_data_names _ _ _ _ _ Hn) in Hd. injection Hd as ->.
  rewrite elements_flat. apply elem_of_flat. exists j, b. split; [done |].
  rewrite (names_elements _ _ _ _ _ Hn). apply elem_of_app. right.
  apply elem_of_cons; left. rewrite <- Hd'. by destruct d.
Qed.

(** What [at() const] does for a key that the table does not hold. *)
Lemma at_const_missing m key :
  table_wf hash_call m → key ∉ keys m →
  at_const hash_call key m = Fault out_of_range ∨
  at_const hash_call key m = Fault undefined_behaviour.
Proof.
  intros Hwf Hk. unfold at_const, hash, mmap_array_index.
  case_bool_decide as Hn; [by right | simpl].
  case_bool_decide as Hpos; [| by right].
  destruct (table_ m !! _) as [b|] eqn:Hb; [simpl | by right].
  assert (Hwfb : bucket_wf b).
  { destruct Hwf as ((Hall & _) & _). by eapply Forall_lookup_1. }
  pose proof (bucket_find_spec b key Hwfb) as Hs.
  destruct (bucket_find b key) as [[it|]|f]; simpl.
  - exfalso. destruct Hs as (l1 & d & l2 & Hnm & Hd & _). apply Hk.
    unfold keys. rewrite <- Hd. apply (list_elem_of_fmap_2 fst).
    rewrite elements_flat. apply elem_of_flat. eexists _, b. split; [done |].
    rewrite (names_elements _ _ _ _ _ Hnm). apply elem_of_app. right. by apply elem_of_cons; left.
  - by left.
  - destruct Hs as (-> & _). by right.
Qed.

Lemma bucket_find_empty_tree b key :
  bucket_wf b → TreeList.ds_type_ b = TreeList.k_red_black_tree → TreeList.empty b = true →
  bucket_find b key = Fault undefined_behaviour.
Proof.
  intros Hwf Hds He. apply bucket_empty_elements in He; [| done].
  pose proof (bucket_find_spec b key Hwf) as Hs. unfold bucket_find in *.
  destruct Hwf as [_ Hshape]. unfold TreeList.begin, TreeList.read_root, TreeList.elements in *.
  rewrite Hds in *. destruct (TreeList.head_root_ b) as [ch|t]; [done |].
  destruct t as [|c tl x tr]; [done |]. simpl in He. by destruct (TreeList.inorder tl).
Qed.

(** The fault of [at() const] for a key that the table does not hold:
    the division by zero of [hash] on a table without slots, the read through
    the null root when the slot of the key is a tree without nodes, and
    [std::out_of_range] otherwise. *)
Lemma at_const_missing_fault m key :
  table_wf hash_call m → key ∉ keys m →
  (get_bucket_count m = 0 → at_const hash_call key m = Fault undefined_behaviour) ∧
  (∀ b, table_ m !! Z.to_nat (index_of hash_call m key) = Some b →
     at_const hash_call key m =
       if bool_decide (TreeList.ds_type_ b = TreeList.k_red_black_tree) && TreeList.empty b
       then Fault undefined_behaviour else Fault out_of_range).
Proof.
  intros Hwf Hk. split.
  - intros H0. unfold at_const, hash. unfold get_bucket_count in H0.
    by rewrite bool_decide_true.
  - intros b Hb.
    assert (Hne : table_ m ≠ []) by (intros Hnil; by rewrite Hnil in Hb).
    destruct (probe_Ok hash_call m key Hwf Hne) as (j & b' & Hh & Hi & Hidx & Hj & Hwfb & Hiff).
    rewrite Hidx, Nat2Z.id, Hj in Hb. injection Hb as ->.
    unfold at_const. rewrite Hh. simpl. rewrite Hi. simpl.
    case_bool_decide as Hds; simpl.
    + destruct (TreeList.empty b) eqn:He.
      * by rewrite bucket_find_empty_tree.
      * pose proof (bucket_find_spec b key Hwfb) as Hs.
        destruct (bucket_find b key) as [[it|]|f]; simpl; [| done |].
        -- exfalso. destruct Hs as (l1 & d & l2 & Hnm & Hd & _). apply Hk, Hiff.
           rewrite <- Hd. apply (list_elem_of_fmap_2 fst).
           rewrite (names_elements _ _ _ _ _ Hnm). apply elem_of_app. right. by left.
        -- destruct Hs as (_ & _ & Hnil). apply bucket_empty_elements in Hnil; [| done].
           congruence.
    + pose proof (bucket_find_spec b key Hwfb) as Hs.
      destruct (bucket_find b key) as [[it|]|f]; simpl; [| done |].
      * exfalso. destruct Hs as (l1 & d & l2 & Hnm & Hd & _). apply Hk, Hiff.
        rewrite <- Hd. apply (list_elem_of_fmap_2 fst).
        rewrite (names_elements _ _ _ _ _ Hnm). apply elem_of_app. right. by left.
      * by destruct Hs as (_ & ? & _).
Qed.

Lemma erase_present m kv :
  table_wf hash_call m → kv ∈ elements m →
  ∃ m', erase hash_call kv.1 m = Ok (1, m').
Proof.
  intros Hwf Hin.
  destruct (probe_present m kv Hwf Hin) as (j & b & it & l1 & l2 & Hh & Hb & Hj & Hwfb & Hf & Hn).
  destruct (erase_names b it l1 kv l2 Hwfb Hn) as (it' & b' & He & _).
  unfold erase. rewrite Hh. simpl. rewrite Hb. simpl. rewrite Hf. simpl. rewrite He. simpl.
  by eexists.
Qed.

(** The bindings that [erase] leaves. *)
Lemma erase_bindings key m n m' :
  table_wf hash_call m → erase hash_call key m = Ok (n, m') →
  table_wf hash_call m' ∧ size_ m' = size_ m - n ∧
  (n = 1 ∧ key ∈ keys m ∨ n = 0 ∧ key ∉ keys m) ∧
  (∀ kv, kv ∈ elements m' ↔ kv ∈ elements m ∧ kv.1 ≠ key).
Proof.
  intros Hwf He.
  destruct (erase_inv hash_call _ _ _ _ Hwf He) as (_ & _ & _ & _ & Hwf' & _ & Hcase).
  destruct Hcase as [(-> & -> & Hk)|(-> & Hsz & L1 & d & L2 & Hd & HL & HL')].
  - split_and!; [done | lia | by right |].
    intros kv. split; [| by intros [? _]]. intros Hin. split; [done |].
    intros Heq. apply Hk. rewrite <- Heq. by apply (list_elem_of_fmap_2 fst).
  - assert (Hnd : NoDup (L1 ++ d :: L2).*1).
    { destruct Hwf as (_ & _ & Hnd). unfold keys in Hnd. by rewrite HL in Hnd. }
    rewrite fmap_app, fmap_cons in Hnd.
    apply NoDup_app in Hnd as (_ & Hdis & Hnd2). apply NoDup_cons in Hnd2 as [Hd2 _].
    split_and!; [done | done | |].
    + left. split; [done |]. unfold keys. rewrite HL, fmap_app, fmap_cons, Hd.
      apply elem_of_app. right. by apply elem_of_cons; left.
    + intros kv. rewrite HL, HL', !elem_of_app, elem_of_cons. split.
      * intros [Hin|Hin].
        -- split; [by left |]. intros Heq.
           apply (Hdis kv.1); [by apply (list_elem_of_fmap_2 fst) |].
           rewrite Heq, <- Hd. by apply elem_of_cons; left.
        -- split; [by right; right |]. intros Heq. apply Hd2.
           rewrite Hd, <- Heq. by apply (list_elem_of_fmap_2 fst).
      * intros [[Hin|[->|Hin]] Hne]; [by left | done | by right].
Qed.

End table_contracts.

Section table_contract_theorems.
Import FixedHashmap FixedHashmapInv.
Import TreeListInv.
Context {Key Mapped Hash TablePtr : Type} `{EqDecision Key}.
Context (key_less : Key → Key → bool).
Context (hash_call : Hash → Key → Z).
Context (default_mapped : Mapped).
Implicit Types (m : fixed_hashmap Key Mapped Hash) (key k : Key) (this : TablePtr).
Implicit Types (kv d : value_type Key Mapped) (v : Mapped).

(** X1. [fixed_hashmap::insert] on a well-formed table. A call that
    returns [true] found the key absent and leaves a well-formed table that
    holds the pair besides the former elements, with [size_] one higher; a
    call that returns [false] found the key present and leaves the table as it
    was. For a key that the table holds the call returns, with [false] and an
    iterator to the element stored under the key. *)
Theorem fixed_insert_contract this kv m :
  table_wf hash_call m →
  (∀ it ins m', insert key_less hash_call this kv m = Ok (it, ins, m') →
     if ins
     then (kv.1 ∉ keys m) ∧ table_wf hash_call m' ∧ elements m' ≡ₚ kv :: elements m ∧
          size_ m' = size_ m + 1
     else kv.1 ∈ keys m ∧ m' = m) ∧
  (∀ v, (kv.1, v) ∈ elements m →
     ∃ it, insert key_less hash_call this kv m = Ok (it, false, m) ∧
           end_ it = false ∧ deref (table_ m) it = Ok (kv.1, v)).
Proof.
  intros Hwf. split.
  - intros it ins m' Hi.
    destruct (insert_inv _ _ _ _ _ _ _ _ Hwf Hi) as (_ & _ & _ & _ & Hcase).
    destruct ins; [| by destruct Hcase].
    destruct Hcase as (Hk & Hwf' & Hp). split_and!; try done.
    rewrite (table_wf_size hash_call m' Hwf'), (table_wf_size hash_call m Hwf), Hp, length_cons.
    lia.
  - intros v Hin. destruct kv as [k v']. by apply (insert_present _ _ _ _ _ v).
Qed.

(** X2. [fixed_hashmap::find] on a well-formed table. An end iterator
    means that the key is absent; any other result points to the element
    stored under the key. For a key that the table holds the call returns an
    iterator to its element. *)
Theorem fixed_find_contract this key m :
  table_wf hash_call m →
  (∀ it, find hash_call this key m = Ok it →
     if end_ it then key ∉ keys m
     else ∃ v, deref (table_ m) it = Ok (key, v) ∧ (key, v) ∈ elements m) ∧
  (∀ v, (key, v) ∈ elements m →
     ∃ it, find hash_call this key m = Ok it ∧ end_ it = false ∧
           deref (table_ m) it = Ok (key, v)).
Proof.
  intros Hwf. split.
  - intros it Hf. destruct (find_inv _ _ _ _ _ Hwf Hf) as [_ Hcase].
    destruct (end_ it); [done |]. destruct Hcase as ([k v] & Hd & Hk & Hin).
    simpl in Hk. subst k. by exists v.
  - intros v Hin. destruct (find_present hash_call this m (key, v) Hwf Hin) as (it & ? & ? & _ & ?).
    by exists it.
Qed.

(** X3. [fixed_hashmap::erase] on a well-formed table. A call that
    returns leaves a well-formed table without the key and with every other
    element, its result is 1 if the key was present and 0 if not, and [size_]
    goes down by the result. For a key that the table holds the call
    returns. *)
Theorem fixed_erase_contract key m :
  table_wf hash_call m →
  (∀ n m', erase hash_call key m = Ok (n, m') →
     table_wf hash_call m' ∧ size_ m' = size_ m - n ∧
     (n = 1 ∧ key ∈ keys m ∨ n = 0 ∧ key ∉ keys m) ∧
     ∀ kv, kv ∈ elements m' ↔ kv ∈ elements m ∧ kv.1 ≠ key) ∧
  (key ∈ keys m → ∃ m', erase hash_call key m = Ok (1, m')).
Proof.
  intros Hwf. split.
  - intros n m'. by apply erase_bindings.
  - intros Hk. apply list_elem_of_fmap in Hk as (kv & -> & Hin). by apply erase_present.
Qed.

(** X4. [fixed_hashmap::contains] on a well-formed table returns [true]
    exactly for the keys of the table, and it returns for every key that the
    table holds. *)
Theorem fixed_contains_contract key m :
  table_wf hash_call m →
  (∀ r, contains hash_call key m = Ok r → (r = true ↔ key ∈ keys m)) ∧
  (key ∈ keys m → contains hash_call key m = Ok true).
Proof.
  intros Hwf. split.
  - intros r Hc. by destruct (contains_inv _ _ _ _ Hwf Hc).
  - intros Hk. apply list_elem_of_fmap in Hk as (kv & -> & Hin). by apply contains_present.
Qed.

(** X5. [fixed_hashmap::at() const] on a well-formed table returns [v]
    exactly when the table binds the key to [v]. For a key that the table does
    not hold the call returns no value: on a table without slots [hash]
    divides by zero; when the slot of the key is a tree without nodes,
    [bucket.begin()] reads through the null root; in every other case the call
    throws [std::out_of_range]. *)
Theorem fixed_at_const_contract key m :
  table_wf hash_call m →
  (∀ v, at_const hash_call key m = Ok v ↔ (key, v) ∈ elements m) ∧
  (key ∉ keys m →
     (get_bucket_count m = 0 → at_const hash_call key m = Fault undefined_behaviour) ∧
     (∀ b, table_ m !! Z.to_nat (index_of hash_call m key) = Some b →
        at_const hash_call key m =
          if bool_decide (TreeList.ds_type_ b = TreeList.k_red_black_tree) && TreeList.empty b
          then Fault undefined_behaviour else Fault out_of_range)).
Proof.
  intros Hwf. split.
  - intros v. split; [by apply at_const_inv | by apply at_const_present].
  - by apply at_const_missing_fault.
Qed.

(** X6. [fixed_hashmap::at()] and [operator[]], non-const, on a
    well-formed table. For a key that the table binds to [v] the call returns
    [v] and changes nothing. For a key that the table does not hold, a call
    that returns has stored the key with [Mapped()], which it returns. *)
Theorem fixed_at_contract key m :
  table_wf hash_call m →
  (∀ v, (key, v) ∈ elements m →
     at_ key_less hash_call default_mapped key m = Ok (v, m)) ∧
  (key ∉ keys m →
     ∀ v m', at_ key_less hash_call default_mapped key m = Ok (v, m') →
       v = default_mapped ∧ table_wf hash_call m' ∧
       elements m' ≡ₚ (key, default_mapped) :: elements m ∧ size_ m' = size_ m + 1).
Proof.
  intros Hwf. split.
  - intros v Hin. by apply at_present.
  - intros Hk v m' Hat.
    destruct (at_inv _ _ _ _ _ _ _ Hwf Hat) as (_ & _ & _ & _ & Hcase).
    destruct Hcase as [[_ Hin]|(_ & -> & Hwf' & Hp)].
    + exfalso. apply Hk. by apply (list_elem_of_fmap_2 fst) in Hin.
    + split_and!; try done.
      rewrite (table_wf_size hash_call m' Hwf'), (table_wf_size hash_call m Hwf), Hp, length_cons.
      lia.
Qed.

End table_contract_theorems.

Section table_contract_examples.
Import FixedHashmap FixedHashmapInv Examples.

Lemma drained_table_wf : table_wf identity_hash drained_table.
Proof.
  split_and!.
  - split; [| reflexivity]. repeat constructor.
  - intros i b kv Hi Hkv. destruct i as [|[|[|i]]]; simpl in Hi; [| | | done];
      injection Hi as <-; simpl in Hkv.
    + by apply elem_of_nil in Hkv.
    + apply elem_of_cons in Hkv as [->|Hkv]; [reflexivity |].
      apply elem_of_cons in Hkv as [->|Hkv]; [reflexivity |]. by apply elem_of_nil in Hkv.
    + apply elem_of_cons in Hkv as [->|Hkv]; [reflexivity |]. by apply elem_of_nil in Hkv.
  - apply (bool_decide_unpack _). by vm_compute.
Qed.

Lemma fixed_insert_contract_witness :
  (∀ it ins m', insert Z.ltb identity_hash () (4, 44) drained_table = Ok (it, ins, m') →
     if ins
     then (4 ∉ keys drained_table) ∧ table_wf identity_hash m' ∧
          elements m' ≡ₚ (4, 44) :: elements drained_table ∧
          size_ m' = size_ drained_table + 1
     else 4 ∈ keys drained_table ∧ m' = drained_table) ∧
  (∀ v, (4, v) ∈ elements drained_table →
     ∃ it, insert Z.ltb identity_hash () (4, 44) drained_table = Ok (it, false, drained_table) ∧
           end_ it = false ∧ deref (table_ drained_table) it = Ok (4, v)).
Proof. apply (fixed_insert_contract Z.ltb identity_hash () (4, 44)), drained_table_wf. Defined.

Lemma fixed_find_contract_witness :
  (∀ it, find identity_hash () 1 drained_table = Ok it →
     if end_ it then 1 ∉ keys drained_table
     else ∃ v, deref (table_ drained_table) it = Ok (1, v) ∧ (1, v) ∈ elements drained_table) ∧
  (∀ v, (1, v) ∈ elements drained_table →
     ∃ it, find identity_hash () 1 drained_table = Ok it ∧ end_ it = false ∧
           deref (table_ drained_table) it = Ok (1, v)).
Proof. apply (fixed_find_contract identity_hash () 1), drained_table_wf. Defined.

Lemma fixed_erase_contract_witness :
  (∀ n m', erase identity_hash 1 drained_table = Ok (n, m') →
     table_wf identity_hash m' ∧ size_ m' = size_ drained_table - n ∧
     (n = 1 ∧ 1 ∈ keys drained_table ∨ n = 0 ∧ 1 ∉ keys drained_table) ∧
     ∀ kv, kv ∈ elements m' ↔ kv ∈ elements drained_table ∧ kv.1 ≠ 1) ∧
  (1 ∈ keys drained_table → ∃ m', erase identity_hash 1 drained_table = Ok (1, m')).
Proof. apply (fixed_erase_contract identity_hash 1), drained_table_wf. Defined.

Lemma fixed_contains_contract_witness :
  (∀ r, contains identity_hash 2 drained_table = Ok r → (r = true ↔ 2 ∈ keys drained_table)) ∧
  (2 ∈ keys drained_table → contains identity_hash 2 drained_table = Ok true).
Proof. apply (fixed_contains_contract identity_hash 2), drained_table_wf. Defined.

Lemma fixed_at_const_contract_witness :
  (∀ v, at_const identity_hash 7 drained_table = Ok v ↔ (7, v) ∈ elements drained_table) ∧
  (7 ∉ keys drained_table →
     (get_bucket_count drained_table = 0 →
        at_const identity_hash 7 drained_table = Fault undefined_behaviour) ∧
     (∀ b, table_ drained_table !! Z.to_nat (index_of identity_hash drained_table 7) = Some b →
        at_const identity_hash 7 drained_table =
          if bool_decide (TreeList.ds_type_ b = TreeList.k_red_black_tree) && TreeList.empty b
          then Fault undefined_behaviour else Fault out_of_range)).
Proof. apply (fixed_at_const_contract identity_hash 7), drained_table_wf. Defined.

Lemma fixed_at_contract_witness :
  (∀ v, (7, v) ∈ elements drained_table →
     at_ Z.ltb identity_hash 0 7 drained_table = Ok (v, drained_table)) ∧
  (7 ∉ keys drained_table →
     ∀ v m', at_ Z.ltb identity_hash 0 7 drained_table = Ok (v, m') →
       v = 0 ∧ table_wf identity_hash m' ∧
       elements m' ≡ₚ (7, 0) :: elements drained_table ∧ size_ m' = size_ drained_table + 1).
Proof. apply (fixed_at_contract Z.ltb identity_hash 0 7), drained_table_wf. Defined.

End table_contract_examples.

(** ** The public calls of a hashmap, binding by binding *)

Section hashmap_contracts.
Import Hashmap HashmapInv FixedHashmapInv HashmapFacts.
Context {Key Mapped Hash : Type} `{EqDecision Key}.
Context (key_less : Key → Key → bool).
Context (hash_call : Hash → Key → Z).
Context (default_hash : Hash).
Context (default_mapped : Mapped).
Implicit Types (m : hashmap Key Mapped Hash) (key k : Key).
Implicit Types (c o : FixedHashmap.fixed_hashmap Key Mapped Hash).
Implicit Types (kv d : Key * Mapped) (v : Mapped).

Lemma bound_keys m k v : bound m k v → k ∈ (contents m).*1.
Proof. intros Hb. by apply (list_elem_of_fmap_2 fst) in Hb. Qed.

Lemma keys_bound m k : k ∈ (contents m).*1 → ∃ v, bound m k v.
Proof. intros Hk. apply list_elem_of_fmap in Hk as ([k' v] & -> & Hin). by exists v. Qed.

Lemma bound_current m k v : (k, v) ∈ FixedHashmap.elements (current_ m) → bound m k v.
Proof. intros Hin. apply elem_of_app. by left. Qed.

Lemma bound_old m k v : (k, v) ∈ FixedHashmap.elements (old_ m) → bound m k v.
Proof. intros Hin. apply elem_of_app. by right. Qed.

Lemma idle_contents m :
  Inv hash_call default_hash m → rehashing_ m = false →
  contents m = FixedHashmap.elements (current_ m).
Proof.
  intros Hinv Hre. unfold contents. by rewrite (idle_old_empty _ _ _ Hinv Hre), app_nil_r.
Qed.

(** [contains]. *)
Lemma hashmap_contains_inv key m r m' :
  Inv hash_call default_hash m → contains hash_call key m = Ok (r, m') →
  m' = m ∧ (r = true ↔ key ∈ (contents m).*1).
Proof.
  intros Hinv Hc. unfold contains in Hc. inv_bind Hc as in_current Hcur.
  destruct (contains_inv _ _ _ _ (current_wf _ _ _ Hinv) Hcur) as [_ Hc1].
  rewrite keys_contents. destruct in_current.
  - injection Hc as <- <-. split; [done |]. split; [intros _; left; by apply Hc1 | done].
  - inv_bind Hc as in_old Hold. injection Hc as <- <-.
    destruct (contains_inv _ _ _ _ (old_wf _ _ _ Hinv) Hold) as [_ Hc2].
    split; [done |]. rewrite <- Hc2. split; [by right |].
    intros [Hk|?]; [| done]. apply Hc1 in Hk. done.
Qed.

Lemma find_table {TablePtr} (this : TablePtr) key c (it : FixedHashmap.iterator TablePtr) :
  FixedHashmap.find hash_call this key c = Ok it → FixedHashmap.it_table_ it = this.
Proof.
  unfold FixedHashmap.find. intros Hf.
  inv_bind Hf as i Hh. inv_bind Hf as b Hb. inv_bind Hf as found Hfound.
  by destruct found; injection Hf as <-.
Qed.

(** [find(const Key&)]. *)
Lemma hashmap_find_inv key m it m' :
  Inv hash_call default_hash m → find hash_call key m = Ok (it, m') →
  m' = m ∧
  if end_ it then key ∉ (contents m).*1
  else ∃ v, deref m it = Ok (key, v) ∧ bound m key v.
Proof.
  intros Hinv Hf. unfold find in Hf. inv_bind Hf as u Hu.
  set (larger_is_current := bool_decide (FixedHashmap.size (old_ m) < FixedHashmap.size (current_ m))) in *.
  assert (Hlookup : ∀ (p : table_ptr) it1,
    FixedHashmap.find hash_call p key
      (match p with current_table => current_ m | old_table => old_ m end) = Ok it1 →
    if FixedHashmap.end_ it1
    then key ∉ keys (match p with current_table => current_ m | old_table => old_ m end)
    else ∃ v, FixedHashmap.deref (table_of m (FixedHashmap.it_table_ it1)) it1 = Ok (key, v) ∧
              bound m key v).
  { intros p it1 H1. rewrite (find_table _ _ _ _ H1).
    assert (Hwf : table_wf hash_call
              (match p with current_table => current_ m | old_table => old_ m end)).
    { destruct p; [apply (current_wf _ _ _ Hinv) | apply (old_wf _ _ _ Hinv)]. }
    destruct (find_inv _ _ _ _ _ Hwf H1) as [_ Hcase].
    destruct (FixedHashmap.end_ it1); [done |].
    destruct Hcase as ([k v] & Hd & Hk & Hin). simpl in Hk. subst k. exists v.
    destruct p; simpl in *; (split; [done |]); [by apply bound_current | by apply bound_old]. }
  destruct larger_is_current.
  - inv_bind Hf as it1 H1. pose proof (Hlookup current_table it1 H1) as L1.
    rewrite iterator_ne_end in Hf. destruct (FixedHashmap.end_ it1) eqn:E1; simpl in Hf.
    + inv_bind Hf as it2 H2. pose proof (Hlookup old_table it2 H2) as L2.
      rewrite iterator_ne_end in Hf. destruct (FixedHashmap.end_ it2) eqn:E2; simpl in Hf;
        injection Hf as <- <-; (split; [done |]); simpl.
      * rewrite keys_contents. by intros [?|?].
      * done.
    + injection Hf as <- <-. by split.
  - inv_bind Hf as it1 H1. pose proof (Hlookup old_table it1 H1) as L1.
    rewrite iterator_ne_end in Hf. destruct (FixedHashmap.end_ it1) eqn:E1; simpl in Hf.
    + inv_bind Hf as it2 H2. pose proof (Hlookup current_table it2 H2) as L2.
      rewrite iterator_ne_end in Hf. destruct (FixedHashmap.end_ it2) eqn:E2; simpl in Hf;
        injection Hf as <- <-; (split; [done |]); simpl.
      * rewrite keys_contents. by intros [?|?].
      * done.
    + injection Hf as <- <-. by split.
Qed.

(** A lookup in a table faults only where the source has undefined
    behaviour. *)
Lemma find_fault {TablePtr} (this : TablePtr) key c f :
  table_wf hash_call c → FixedHashmap.find hash_call this key c = Fault f →
  f = undefined_behaviour.
Proof.
  intros Hwf. unfold FixedHashmap.find, FixedHashmap.hash, FixedHashmap.mmap_array_index.
  case_bool_decide; [by intros [= <-] | simpl].
  case_bool_decide; [| by intros [= <-]].
  destruct (FixedHashmap.table_ c !! _) as [b|] eqn:Hb; [simpl | by intros [= <-]].
  assert (Hwfb : TreeListInv.bucket_wf b).
  { destruct Hwf as ((Hall & _) & _). by eapply Forall_lookup_1. }
  pose proof (bucket_find_spec b key Hwfb) as Hs.
  destruct (FixedHashmap.bucket_find b key) as [[it|]|f']; simpl; [done | done |].
  destruct Hs as (-> & _). by intros [= <-].
Qed.

Lemma fixed_at_const_out_of_range key c :
  table_wf hash_call c → FixedHashmap.at_const hash_call key c = Fault out_of_range →
  key ∉ keys c.
Proof.
  intros Hwf Hat Hk. apply list_elem_of_fmap in Hk as ([k v] & -> & Hin).
  by rewrite (at_const_present hash_call c k v Hwf Hin) in Hat.
Qed.

(** [at() const]. *)
Lemma hashmap_at_const_spec key m :
  Inv hash_call default_hash m →
  match at_const hash_call key m with
  | Ok v => bound m key v
  | Fault f => f = out_of_range → key ∉ (contents m).*1
  end.
Proof.
  intros Hinv. pose proof (current_wf _ _ _ Hinv) as Hwc. pose proof (old_wf _ _ _ Hinv) as Hwo.
  assert (Hcur : key ∉ keys (old_ m) →
    match FixedHashmap.at_const hash_call key (current_ m) with
    | Ok v => bound m key v
    | Fault f => f = out_of_range → key ∉ (contents m).*1
    end).
  { intros Hko. destruct (FixedHashmap.at_const hash_call key (current_ m)) as [v|f] eqn:Hat.
    - apply bound_current. by apply (at_const_inv hash_call).
    - intros ->. rewrite keys_contents. intros [Hk|Hk]; [| done].
      by apply (fixed_at_const_out_of_range key (current_ m) Hwc Hat). }
  unfold at_const. destruct (rehashing_ m) eqn:Hre; simpl.
  - destruct (FixedHashmap.find hash_call old_table key (old_ m)) as [it_old|f] eqn:Hfind; simpl.
    + destruct (find_inv _ _ _ _ _ Hwo Hfind) as [_ Hcase].
      rewrite iterator_ne_end. destruct (FixedHashmap.end_ it_old); simpl; [by apply Hcur |].
      destruct Hcase as ([k v] & -> & Hk & Hin). simpl in *. subst k. by apply bound_old.
    + intros ->. by apply (find_fault _ _ _ _ Hwo) in Hfind.
  - apply Hcur. by apply (idle_keys hash_call default_hash).
Qed.

Lemma hashmap_at_const_idle key v m :
  Inv hash_call default_hash m → rehashing_ m = false → bound m key v →
  at_const hash_call key m = Ok v.
Proof.
  intros Hinv Hre Hb. unfold at_const. rewrite Hre. simpl.
  apply (at_const_present hash_call); [apply (current_wf _ _ _ Hinv) |].
  unfold bound in Hb. by rewrite (idle_contents m Hinv Hre) in Hb.
Qed.

(** [at()], non-const. *)
Lemma hashmap_at_contents key m v m' :
  Inv hash_call default_hash m →
  at_ key_less hash_call default_hash default_mapped key m = Ok (v, m') →
  Inv hash_call default_hash m' ∧
  ((bound m key v ∧ contents m' ≡ₚ contents m) ∨
   ((key ∉ (contents m).*1) ∧ v = default_mapped ∧
    contents m' ≡ₚ (key, default_mapped) :: contents m)).
Proof.
  intros Hinv Hi. unfold at_ in Hi.
  inv_bind Hi as m1 Hmp. inv_bind Hi as [v0 m2] Hbody. inv_bind Hi as m3 Hmr.
  injection Hi as <- <-.
  destruct (move_progressively_inv _ _ _ _ _ Hinv Hmp) as (Hinv1 & Hc1 & _).
  destruct (at_body_inv _ _ _ _ _ _ _ _ Hinv1 Hbody) as (Hinv2 & Hre2 & Ho2 & Hne2 & Hcase).
  destruct (maybe_rehash_inv hash_call default_hash m2 m3 Hinv2) as (Hinv3 & Hc3 & _);
    [by rewrite Hre2 | done |].
  split; [done |]. destruct Hcase as [[-> Hin]|(Hk & -> & Hp)].
  - left. split; [unfold bound; by rewrite <- Hc1 | by rewrite Hc3, Hc1].
  - right. rewrite Hc1 in Hk. split_and!; [done | done |]. by rewrite Hc3, Hp, Hc1.
Qed.

(** [insert]. *)
Lemma hashmap_insert_contents kv m it ins m' :
  Inv hash_call default_hash m →
  insert key_less hash_call default_hash kv m = Ok (it, ins, m') →
  Inv hash_call default_hash m' ∧
  (if ins then (kv.1 ∉ (contents m).*1) ∧ contents m' ≡ₚ kv :: contents m ∧ size m' = size m + 1
   else kv.1 ∈ (contents m).*1 ∧ contents m' ≡ₚ contents m ∧ size m' = size m).
Proof.
  intros Hinv Hi.
  destruct (insert_spec _ _ _ _ _ _ _ _ Hinv Hi) as (m1 & _ & Hinv' & _ & Hcase).
  split; [done |].
  rewrite (size_contents hash_call default_hash m' Hinv'), (size_contents hash_call default_hash m Hinv).
  destruct ins.
  - destruct Hcase as [Hk Hp]. split_and!; [done | done |]. rewrite Hp, length_cons. lia.
  - destruct Hcase as [Hp Hk]. split_and!; [done | done |]. by rewrite Hp.
Qed.

(** [erase]. *)
Lemma hashmap_erase_contents key m n m' :
  Inv hash_call default_hash m →
  erase key_less hash_call default_hash key m = Ok (n, m') →
  Inv hash_call default_hash m' ∧
  (n = 1 ∧ key ∈ (contents m).*1 ∨ n = 0 ∧ key ∉ (contents m).*1) ∧
  (∀ kv, kv ∈ contents m' ↔ kv ∈ contents m ∧ kv.1 ≠ key) ∧
  size m' = size m - n.
Proof.
  intros Hinv He.
  destruct (erase_spec _ _ _ _ _ _ _ Hinv He) as (m1' & _ & Hinv' & _).
  unfold erase in He.
  inv_bind He as m1 Hmp. inv_bind He as [n0 m2] Hbody. inv_bind He as m3 Hmr.
  injection He as <- <-.
  destruct (move_progressively_inv _ _ _ _ _ Hinv Hmp) as (Hinv1 & Hc1 & _).
  pose proof (current_wf _ _ _ Hinv1) as Hwc. pose proof (old_wf _ _ _ Hinv1) as Hwo.
  assert (Hmain : (n0 = 1 ∧ key ∈ (contents m1).*1 ∨ n0 = 0 ∧ key ∉ (contents m1).*1) ∧
                  (∀ kv, kv ∈ contents m3 ↔ kv ∈ contents m1 ∧ kv.1 ≠ key) ∧
                  Z.of_nat (length (contents m3)) = Z.of_nat (length (contents m1)) - n0).
  { destruct (rehashing_ m1) eqn:Hre; simpl in Hbody.
    - inv_bind Hbody as [num1 c] Hec. inv_bind Hbody as [num2 o] Heo.
      inv_bind Hbody as m4 Hmr4. injection Hbody as <- <-.
      unfold maybe_rehash in Hmr4. simpl in Hmr4. rewrite Hre in Hmr4. injection Hmr4 as <-.
      unfold maybe_rehash in Hmr. simpl in Hmr. rewrite Hre in Hmr. injection Hmr as <-.
      destruct (erase_bindings hash_call _ _ _ _ Hwc Hec) as (Hwc' & Hs1 & Hn1 & Hb1).
      destruct (erase_bindings hash_call _ _ _ _ Hwo Heo) as (Hwo' & Hs2 & Hn2 & Hb2).
      assert (Hnot : ¬ (key ∈ keys (current_ m1) ∧ key ∈ keys (old_ m1))).
      { intros [Hk1 Hk2]. pose proof (keys_unique _ _ _ Hinv1) as Hnd.
        unfold contents in Hnd. rewrite fmap_app in Hnd.
        apply NoDup_app in Hnd as (_ & Hdis & _). by apply (Hdis key). }
      rewrite keys_contents. unfold contents. simpl. rewrite !length_app, !Nat2Z.inj_add.
      rewrite <- (table_wf_size hash_call _ Hwc'), <- (table_wf_size hash_call _ Hwo').
      rewrite <- (table_wf_size hash_call _ Hwc), <- (table_wf_size hash_call _ Hwo).
      split_and!.
      + destruct Hn1 as [[-> ?]|[-> ?]], Hn2 as [[-> ?]|[-> ?]]; simpl.
        * left. split; [done | by left].
        * left. split; [done | by left].
        * left. split; [done | by right].
        * right. split; [done | by intros [?|?]].
      + intros kv. rewrite !elem_of_app, Hb1, Hb2. tauto.
      + destruct Hn1 as [[-> ?]|[-> ?]], Hn2 as [[-> ?]|[-> ?]]; simpl; try lia.
        exfalso. by apply Hnot.
    - inv_bind Hbody as [n1 c] Hec. injection Hbody as <- <-.
      destruct (fixed_erase_shrinks _ _ _ _ _ Hwc Hec)
        as (Hwc' & Hsubc & _ & _ & Hcc & Hsc & Hne & _ & Hhc).
      pose proof (tables_shrink hash_call default_hash m1 c (old_ m1) Hinv1 Hwc' Hwo Hsubc
                    (reflexivity _) Hcc Hsc Hhc eq_refl (λ H, H)) as Hinv2.
      rewrite Hre in Hinv2.
      destruct (maybe_rehash_inv hash_call default_hash (set_current c m1) m3)
        as (_ & Hc3 & _); [by unfold set_current; rewrite Hre | | done |].
      { intros _. simpl. by rewrite Hcc. }
      destruct (erase_bindings hash_call _ _ _ _ Hwc Hec) as (_ & Hs1 & Hn1 & Hb1).
      pose proof (idle_old_empty _ _ _ Hinv1 Hre) as Hold.
      rewrite Hc3. unfold contents. simpl. rewrite Hold, !app_nil_r.
      rewrite <- (table_wf_size hash_call _ Hwc'), <- (table_wf_size hash_call _ Hwc).
      split_and!.
      + destruct Hn1 as [[-> ?]|[-> ?]]; [by left | by right].
      + intros kv. fold (contents m3). rewrite Hc3. unfold contents. simpl.
        rewrite Hold, app_nil_r. apply Hb1.
      + done. }
  destruct Hmain as (Hn & Hb & Hlen). split; [done |].
  rewrite (size_contents hash_call default_hash m3 Hinv'), (size_contents hash_call default_hash m Hinv).
  split_and!.
  - by rewrite <- Hc1.
  - intros kv. by rewrite Hb, Hc1.
  - by rewrite Hlen, Hc1.
Qed.

(** [maybe_rehash] leaves a migration under way or a load below 3/4. *)
Lemma maybe_rehash_load m m' :
  maybe_rehash default_hash m = Ok m' → rehashing_ m' = false →
  FixedHashmap.size (current_ m') * 4 < FixedHashmap.get_bucket_count (current_ m') * 3.
Proof.
  unfold maybe_rehash, shrink. intros Hm Hre.
  destruct (rehashing_ m) eqn:Hre0; [injection Hm as <-; congruence |].
  case_bool_decide as Hgrow.
  { apply rehash_inv in Hm as (fresh & _ & _ & ->). done. }
  destruct (bool_decide _ && bool_decide _).
  { apply rehash_inv in Hm as (fresh & _ & _ & ->). done. }
  injection Hm as <-. lia.
Qed.

Lemma run_load op m m' :
  run key_less hash_call default_hash default_mapped op m = Ok m' → load_ok m'.
Proof.
  intros Hr Hre. destruct op as [kv|kv|key|key|key|]; simpl in Hr.
  - inv_bind Hr as [[it ins] m2] Hop. injection Hr as <-. unfold insert in Hop.
    inv_bind Hop as m1 Hmp. inv_bind Hop as [[it0 ins0] m3] Hbody. inv_bind Hop as m4 Hmr.
    injection Hop as <- <- <-. right. by apply (maybe_rehash_load m3).
  - inv_bind Hr as [[it ins] m2] Hop. injection Hr as <-. unfold emplace in Hop.
    inv_bind Hop as m1 Hmp. inv_bind Hop as [[it0 ins0] m3] Hbody. inv_bind Hop as m4 Hmr.
    injection Hop as <- <- <-. right. by apply (maybe_rehash_load m3).
  - inv_bind Hr as [v m2] Hop. injection Hr as <-. unfold at_ in Hop.
    inv_bind Hop as m1 Hmp. inv_bind Hop as [v0 m3] Hbody. inv_bind Hop as m4 Hmr.
    injection Hop as <- <-. right. by apply (maybe_rehash_load m3).
  - inv_bind Hr as [v m2] Hop. injection Hr as <-. unfold subscript, at_ in Hop.
    inv_bind Hop as m1 Hmp. inv_bind Hop as [v0 m3] Hbody. inv_bind Hop as m4 Hmr.
    injection Hop as <- <-. right. by apply (maybe_rehash_load m3).
  - inv_bind Hr as [n m2] Hop. injection Hr as <-. unfold erase in Hop.
    inv_bind Hop as m1 Hmp. inv_bind Hop as [n0 m3] Hbody. inv_bind Hop as m4 Hmr.
    injection Hop as <- <-. right. by apply (maybe_rehash_load m3).
  - left. unfold clear in Hr. inv_bind Hr as c Hc. inv_bind Hr as o Ho. injection Hr as <-.
    simpl. destruct (clear_inv _ _ Hc) as (Ht & _). by apply bucket_count_0.
Qed.

Lemma hashmap_new_load (n : Z) (h : Hash) m : hashmap_new n h = Ok m → load_ok m.
Proof.
  unfold hashmap_new. intros Hn _. inv_bind Hn as c Hc. inv_bind Hn as o Ho.
  injection Hn as <-. simpl.
  destruct (fixed_hashmap_new_inv (λ _ _, 0) _ _ _ Hc) as (_ & _ & Hs & _ & Hcc & Hpos & _).
  unfold FixedHashmap.size. rewrite Hs, Hcc. lia.
Qed.

Lemma run_all_load ops m m' :
  load_ok m →
  run_all key_less hash_call default_hash default_mapped ops m = Ok m' → load_ok m'.
Proof.
  revert m. induction ops as [|op ops IH]; intros m Hl Hr; simpl in Hr.
  - by injection Hr as <-.
  - inv_bind Hr as m1 Hop. apply (IH m1); [| done]. by eapply run_load.
Qed.

Lemma iter_decr (n : nat) : Nat.iter n decr (Z.of_nat n) = 0.
Proof.
  induction n as [|n IH]; [done |].
  rewrite Nat.iter_succ_r. unfold decr at 2. rewrite bool_decide_false by lia.
  replace (Z.of_nat (S n) - 1) with (Z.of_nat n) by lia. done.
Qed.

Lemma iter_decr_eq (k : nat) (n : Z) : n = Z.of_nat k → Nat.iter k decr n = 0.
Proof. intros ->. apply iter_decr. Qed.

(** [tree_list_base::clear] on a well-formed bucket. *)
Lemma bucket_clear_wf {T} (b : TreeList.tree_list_base T) :
  TreeListInv.bucket_wf b →
  ∃ b', TreeList.clear b = Ok b' ∧ TreeList.elements b' = [] ∧ TreeList.size_ b' = 0 ∧
        TreeList.ds_type_ b' = TreeList.k_linked_list.
Proof.
  assert (Hcnt : ∀ t : TreeList.rb_node_type T,
            TreeList.node_count t = length (TreeList.inorder t)).
  { induction t as [|c tl IHl y tr IHr]; simpl; [done |]. rewrite length_app. simpl. lia. }
  intros [Hsz Hshape]. destruct b as [[ch|t] n ds]; unfold TreeList.elements in *; simpl in *.
  - destruct ds; [| done]. destruct ch as [|x ch].
    + simpl in Hsz. subst n. by eexists.
    + unfold TreeList.clear, TreeList.clear_list, TreeList.read_head. simpl.
      unfold TreeList.clear_tree. simpl.
      rewrite <- (Nat.iter_succ (length ch) decr n).
      rewrite (iter_decr_eq (S (length ch)) n Hsz). simpl. by eexists.
  - destruct ds.
    + subst t. simpl in Hsz. subst n. by eexists.
    + destruct t as [|c tl y tr].
      * simpl in Hsz. subst n. by eexists.
      * unfold TreeList.clear, TreeList.clear_list, TreeList.clear_tree, TreeList.read_root.
        simpl.
        rewrite <- (Nat.iter_succ (TreeList.node_count tl + TreeList.node_count tr) decr n).
        change (S (TreeList.node_count tl + TreeList.node_count tr))
          with (TreeList.node_count (TreeList.rb_node c tl y tr)).
        rewrite (iter_decr_eq _ n); [simpl; by eexists |].
        rewrite Hcnt. exact Hsz.
Qed.

Lemma clear_buckets_wf (l : list (FixedHashmap.bucket_type Key Mapped)) :
  Forall TreeListInv.bucket_wf l → FixedHashmap.clear_buckets l = Ok ().
Proof.
  induction 1 as [|b l Hb _ IH]; simpl; [done |].
  destruct (bucket_clear_wf b Hb) as (b' & -> & _). done.
Qed.

(** [clear] on a map whose tables are well formed. *)
Lemma hashmap_clear_spec m :
  Inv hash_call default_hash m →
  ∃ m', clear m = Ok m' ∧ contents m' = [] ∧ size m' = 0 ∧ rehashing_ m' = false.
Proof.
  intros Hinv. unfold clear, FixedHashmap.clear.
  destruct (current_wf _ _ _ Hinv) as ((Hallc & _) & _).
  destruct (old_wf _ _ _ Hinv) as ((Hallo & _) & _).
  rewrite (clear_buckets_wf _ Hallc). simpl. rewrite (clear_buckets_wf _ Hallo). simpl.
  eexists. split; [done |]. by split_and!.
Qed.

(** The loop of the constructor from a list of pairs. *)
Lemma insert_pairs_spec pairs m m' :
  Inv hash_call default_hash m →
  insert_pairs key_less hash_call default_hash pairs m = Ok m' →
  Inv hash_call default_hash m' ∧
  ∀ k v, bound m' k v ↔
         bound m k v ∨ (k ∉ (contents m).*1) ∧ first_binding k pairs = Some v.
Proof.
  revert m. induction pairs as [|[k0 v0] pairs IH]; intros m Hinv Hr; simpl in Hr.
  - injection Hr as <-. split; [done |]. intros k v. simpl. split; [by left |].
    by intros [?|[_ ?]].
  - inv_bind Hr as [[it ins] m1] Hi. simpl in Hr.
    destruct (hashmap_insert_contents _ _ _ _ _ Hinv Hi) as (Hinv1 & Hcase).
    destruct (IH m1 Hinv1 Hr) as (Hinv' & Hb). split; [done |].
    intros k v. rewrite Hb. simpl. unfold bound.
    destruct ins.
    + destruct Hcase as (Hfresh & Hp & _). simpl in Hfresh. rewrite Hp, fmap_cons. simpl.
      rewrite elem_of_cons, not_elem_of_cons. case_bool_decide as Hk.
      * subst k0. split.
        -- intros [[[= ->]|Hin]|[[Hne _] _]]; [right | left | done]; done.
        -- intros [Hin|[Hk [= ->]]]; [left; by right | left; by left].
      * split.
        -- intros [[[= -> ->]|Hin]|[[_ Hk'] Hf]]; [done | by left | by right].
        -- intros [Hin|[Hk' Hf]]; [left; by right | right; done].
    + destruct Hcase as (Hbound & Hp & _). simpl in Hbound. rewrite Hp.
      case_bool_decide as Hk; [subst k0 |]; split.
      * intros [Hin|[Hk' _]]; [by left | done].
      * intros [Hin|[Hk' _]]; [by left | done].
      * intros [Hin|[Hk' Hf]]; [by left | by right].
      * intros [Hin|[Hk' Hf]]; [by left | by right].
Qed.

Lemma run_all_app ops1 ops2 m :
  run_all key_less hash_call default_hash default_mapped (ops1 ++ ops2) m =
  run_all key_less hash_call default_hash default_mapped ops1 m
    ≫= run_all key_less hash_call default_hash default_mapped ops2.
Proof.
  revert m. induction ops1 as [|op ops1 IH]; intros m; simpl; [done |].
  destruct (run _ _ _ _ op m) as [m1|]; simpl; [apply IH | done].
Qed.

(** A call that returns leads from a reachable map to a reachable map. *)
Lemma reachable_run op m m' :
  reachable key_less hash_call default_hash default_mapped m →
  run key_less hash_call default_hash default_mapped op m = Ok m' →
  reachable key_less hash_call default_hash default_mapped m'.
Proof.
  intros (n & h & ops & Hr) Hop. exists n, h, (ops ++ [op]).
  destruct (hashmap_new n h) as [m0|]; simpl in *; [| done].
  rewrite run_all_app, Hr. simpl. by rewrite Hop.
Qed.

Lemma insert_pairs_run_all pairs m :
  insert_pairs key_less hash_call default_hash pairs m =
  run_all key_less hash_call default_hash default_mapped (op_insert <$> pairs) m.
Proof.
  revert m. induction pairs as [|kv pairs IH]; intros m; simpl; [done |].
  destruct (insert _ _ _ kv m) as [[[it ins] m1]|]; simpl; [apply IH | done].
Qed.

End hashmap_contracts.

Section hashmap_contract_theorems.
Import Hashmap HashmapInv FixedHashmapInv HashmapFacts.
Context {Key Mapped Hash : Type} `{EqDecision Key}.
Context (key_less : Key → Key → bool).
Context (hash_call : Hash → Key → Z).
Context (default_hash : Hash).
Context (default_mapped : Mapped).
Implicit Types (m : hashmap Key Mapped Hash) (key k : Key) (kv : Key * Mapped) (v : Mapped).

(** X7. [hashmap::insert] on a reachable map. The loops of the call end,
    and a call that returns leaves a reachable map in which the key is bound.
    With [true] the key was unbound before, the map holds the pair besides the
    former bindings and [size()] is one higher; with [false] the key was bound
    before and bindings and [size()] are as they were. *)
Theorem hashmap_insert_contract kv m :
  reachable key_less hash_call default_hash default_mapped m →
  fuel_suffices (insert key_less hash_call default_hash kv m) ∧
  ∀ it ins m', insert key_less hash_call default_hash kv m = Ok (it, ins, m') →
    reachable key_less hash_call default_hash default_mapped m' ∧
    kv.1 ∈ (contents m').*1 ∧
    if ins
    then (kv.1 ∉ (contents m).*1) ∧ contents m' ≡ₚ kv :: contents m ∧ size m' = size m + 1
    else kv.1 ∈ (contents m).*1 ∧ contents m' ≡ₚ contents m ∧ size m' = size m.
Proof.
  intros Hr.
  pose proof (reachable_Inv key_less hash_call default_hash default_mapped m Hr) as Hinv.
  split; [by apply insert_call_fuel |].
  intros it ins m' Hi.
  destruct (hashmap_insert_contents _ _ _ _ _ _ _ _ Hinv Hi) as (_ & Hcase).
  split_and!; [| | done].
  - apply (reachable_run _ _ _ _ (op_insert kv) m); [done |]. simpl. by rewrite Hi.
  - destruct ins.
    + destruct Hcase as (_ & -> & _). rewrite fmap_cons. by left.
    + destruct Hcase as (Hin & -> & _). done.
Qed.

(** X8. [hashmap::erase] on a reachable map. The loops of the call end,
    and a call that returns leaves a reachable map without the key and with
    every other binding; the result is 1 if the key was bound and 0 if not, and
    [size()] goes down by the result. *)
Theorem hashmap_erase_contract key m :
  reachable key_less hash_call default_hash default_mapped m →
  fuel_suffices (erase key_less hash_call default_hash key m) ∧
  ∀ n m', erase key_less hash_call default_hash key m = Ok (n, m') →
    reachable key_less hash_call default_hash default_mapped m' ∧
    (n = 1 ∧ key ∈ (contents m).*1 ∨ n = 0 ∧ key ∉ (contents m).*1) ∧
    (∀ k v, bound m' k v ↔ bound m k v ∧ k ≠ key) ∧
    size m' = size m - n.
Proof.
  intros Hr.
  pose proof (reachable_Inv key_less hash_call default_hash default_mapped m Hr) as Hinv.
  split; [by apply erase_call_fuel |].
  intros n m' He.
  destruct (hashmap_erase_contents _ _ _ _ _ _ _ Hinv He) as (_ & Hn & Hb & Hs).
  split_and!; [| done | | done].
  - apply (reachable_run _ _ _ _ (op_erase key) m); [done |]. simpl. by rewrite He.
  - intros k v. apply (Hb (k, v)).
Qed.

(** X9. [hashmap::find(const Key&)] on a reachable map, during a
    migration or not. A call that returns the end iterator means that the key
    is unbound; any other result is an iterator that dereferences to the key
    and the value bound to it. *)
Theorem hashmap_find_contract key m it m' :
  reachable key_less hash_call default_hash default_mapped m →
  find hash_call key m = Ok (it, m') →
  if end_ it then key ∉ (contents m).*1
  else ∃ v, deref m it = Ok (key, v) ∧ bound m key v ∧ ∀ w, bound m key w → w = v.
Proof.
  intros Hr Hf.
  pose proof (reachable_Inv key_less hash_call default_hash default_mapped m Hr) as Hinv.
  destruct (hashmap_find_inv _ _ _ _ _ _ Hinv Hf) as [_ Hcase].
  destruct (end_ it); [done |]. destruct Hcase as (v & Hd & Hb).
  exists v. split_and!; [done | done |].
  intros w Hw. by apply (NoDup_fst_agree _ _ _ _ (keys_unique _ _ _ Hinv) Hw Hb).
Qed.

(** X10. [hashmap::contains] on a reachable map: a call that returns
    gives [true] exactly when the key is bound, in [current_] or in [old_];
    for a key of [current_] the call returns. *)
Theorem hashmap_contains_contract key m :
  reachable key_less hash_call default_hash default_mapped m →
  (∀ r m', contains hash_call key m = Ok (r, m') → (r = true ↔ key ∈ (contents m).*1)) ∧
  (key ∈ keys (current_ m) → contains hash_call key m = Ok (true, m)).
Proof.
  intros Hr.
  pose proof (reachable_Inv key_less hash_call default_hash default_mapped m Hr) as Hinv.
  split.
  - intros r m' Hc. by destruct (hashmap_contains_inv _ _ _ _ _ _ Hinv Hc).
  - intros Hk. unfold contains. apply list_elem_of_fmap in Hk as (kv & -> & Hin).
    by rewrite (contains_present hash_call (current_ m) kv (current_wf _ _ _ Hinv) Hin).
Qed.

(** X11. [hashmap::at() const] on a reachable map. A value that the call
    returns is the value bound to the key; [std::out_of_range] is thrown only
    for an unbound key, and for an unbound key no value is returned. While no
    migration is under way the call returns the value of every bound key. *)
Theorem hashmap_at_const_contract key m :
  reachable key_less hash_call default_hash default_mapped m →
  (∀ v, at_const hash_call key m = Ok v → bound m key v) ∧
  (at_const hash_call key m = Fault out_of_range → key ∉ (contents m).*1) ∧
  (rehashing_ m = false → ∀ v, bound m key v → at_const hash_call key m = Ok v).
Proof.
  intros Hr.
  pose proof (reachable_Inv key_less hash_call default_hash default_mapped m Hr) as Hinv.
  pose proof (hashmap_at_const_spec hash_call default_hash key m Hinv) as Hspec.
  split_and!.
  - intros v Hat. by rewrite Hat in Hspec.
  - intros Hat. rewrite Hat in Hspec. by apply Hspec.
  - intros Hre v Hb. by apply (hashmap_at_const_idle hash_call default_hash).
Qed.

(** X12. [hashmap::at()] and [operator[]], non-const, on a reachable map.
    The loops of the call end. A call that returns leaves a reachable map;
    either the key was bound to the value returned and the bindings are as
    they were, or the key was unbound, the value returned is [Mapped()] and the
    map holds the key with that value besides the former bindings.
    [operator[]] is [at]. *)
Theorem hashmap_at_contract key m :
  reachable key_less hash_call default_hash default_mapped m →
  fuel_suffices (at_ key_less hash_call default_hash default_mapped key m) ∧
  subscript key_less hash_call default_hash default_mapped key m
    = at_ key_less hash_call default_hash default_mapped key m ∧
  ∀ v m', at_ key_less hash_call default_hash default_mapped key m = Ok (v, m') →
    reachable key_less hash_call default_hash default_mapped m' ∧
    ((bound m key v ∧ contents m' ≡ₚ contents m ∧ size m' = size m) ∨
     ((key ∉ (contents m).*1) ∧ v = default_mapped ∧
      contents m' ≡ₚ (key, default_mapped) :: contents m ∧ size m' = size m + 1)).
Proof.
  intros Hr.
  pose proof (reachable_Inv key_less hash_call default_hash default_mapped m Hr) as Hinv.
  split_and!; [by apply at_call_fuel | done |].
  intros v m' Hat.
  destruct (hashmap_at_contents _ _ _ _ _ _ _ _ Hinv Hat) as (Hinv' & Hcase).
  split.
  - apply (reachable_run _ _ _ _ (op_at key) m); [done |]. simpl. by rewrite Hat.
  - rewrite (size_contents hash_call default_hash m' Hinv'),
      (size_contents hash_call default_hash m Hinv).
    destruct Hcase as [[Hb Hp]|(Hk & -> & Hp)]; [left | right]; rewrite Hp.
    + done.
    + split_and!; try done. rewrite length_cons. lia.
Qed.

(** X13. On a reachable map [size()] is the number of bindings held by
    the two tables together, which is the number of bound keys. *)
Theorem hashmap_size_counts_bindings m :
  reachable key_less hash_call default_hash default_mapped m →
  size m = Z.of_nat (length (contents m)) ∧
  size m = Z.of_nat (length (remove_dups (contents m).*1)) ∧
  (size m = 0 ↔ ∀ k v, ¬ bound m k v).
Proof.
  intros Hr.
  pose proof (reachable_Inv key_less hash_call default_hash default_mapped m Hr) as Hinv.
  pose proof (size_contents hash_call default_hash m Hinv) as Hs.
  split_and!; [done | |].
  - rewrite Hs. assert (Hd : ∀ l : list Key, NoDup l → remove_dups l = l).
    { induction 1 as [|x l Hx _ IH]; [done |]. simpl.
      destruct (decide_rel elem_of x l); [done |]. by rewrite IH. }
    by rewrite (Hd _ (keys_unique _ _ _ Hinv)), length_fmap.
  - rewrite Hs. unfold bound. destruct (contents m) as [|[k v] l]; simpl.
    + split; [| done]. intros _ k v Hin. by apply elem_of_nil in Hin.
    + split; [lia |]. intros Hno. exfalso. apply (Hno k v). by left.
Qed.

(** X14. After the constructor and any sequence of calls that return,
    unless a migration is under way, [current_] has no slot (after [clear()])
    or holds fewer elements than three quarters of its slots. *)
Theorem hashmap_load_bound m :
  reachable key_less hash_call default_hash default_mapped m →
  rehashing_ m = false →
  FixedHashmap.get_bucket_count (current_ m) = 0 ∨
  FixedHashmap.size (current_ m) * 4 < FixedHashmap.get_bucket_count (current_ m) * 3.
Proof.
  intros (n & h & ops & Hr). inv_bind Hr as m0 Hnew.
  apply (run_all_load key_less hash_call default_hash default_mapped ops m0 m); [| done].
  by apply (hashmap_new_load n h).
Qed.

(** X15. [hashmap::clear] on a reachable map returns, and leaves a
    reachable map without bindings, with [size()] 0 and no migration under
    way. *)
Theorem hashmap_clear_contract m :
  reachable key_less hash_call default_hash default_mapped m →
  ∃ m', clear m = Ok m' ∧
        reachable key_less hash_call default_hash default_mapped m' ∧
        contents m' = [] ∧ size m' = 0 ∧ rehashing_ m' = false.
Proof.
  intros Hr.
  pose proof (reachable_Inv key_less hash_call default_hash default_mapped m Hr) as Hinv.
  destruct (hashmap_clear_spec hash_call default_hash m Hinv) as (m' & Hc & Hrest).
  exists m'. split_and!; [done | | apply Hrest..].
  by apply (reachable_run key_less hash_call default_hash default_mapped op_clear m).
Qed.

(** X16. The constructor from a list of pairs. When it returns, the map
    is reachable and binds each key of the list to the value of the first pair
    with that key, and nothing else; [size()] is the number of distinct keys
    of the list. *)
Theorem hashmap_of_pairs_contract pairs (initial_size : Z) (hash : Hash) m :
  hashmap_of_pairs key_less hash_call default_hash pairs initial_size hash = Ok m →
  reachable key_less hash_call default_hash default_mapped m ∧
  (∀ k v, bound m k v ↔ first_binding k pairs = Some v) ∧
  size m = Z.of_nat (length (remove_dups pairs.*1)).
Proof.
  intros Hc. unfold hashmap_of_pairs in Hc. inv_bind Hc as m0 Hnew.
  pose proof (hashmap_new_Inv hash_call default_hash _ _ _ Hnew) as Hinv0.
  assert (Hempty : contents m0 = []).
  { unfold hashmap_new in Hnew. inv_bind Hnew as c Hcur. inv_bind Hnew as o Hold.
    injection Hnew as <-. unfold contents. simpl.
    destruct (fixed_hashmap_new_inv hash_call _ _ _ Hcur) as (_ & -> & _).
    by destruct (fixed_hashmap_new_inv hash_call _ _ _ Hold) as (_ & -> & _). }
  destruct (insert_pairs_spec key_less hash_call default_hash pairs m0 m Hinv0 Hc)
    as (Hinv & Hb).
  assert (Hbound : ∀ k v, bound m k v ↔ first_binding k pairs = Some v).
  { intros k v. rewrite Hb. unfold bound. rewrite Hempty. split.
    - intros [Hin|[_ Hf]]; [by apply elem_of_nil in Hin | done].
    - intros Hf. right. split; [| done]. simpl. apply not_elem_of_nil. }
  split_and!; [| done |].
  - exists initial_size, hash, (op_insert <$> pairs). rewrite Hnew. simpl.
    by rewrite <- (insert_pairs_run_all key_less hash_call default_hash default_mapped).
  - rewrite (size_contents hash_call default_hash m Hinv).
    rewrite <- (length_fmap fst (contents m)). f_equal. apply Permutation_length.
    apply NoDup_Permutation; [apply (keys_unique _ _ _ Hinv) | apply NoDup_remove_dups |].
    intros k. rewrite elem_of_remove_dups. split.
    + intros Hk. apply list_elem_of_fmap in Hk as ([k' v] & -> & Hin). simpl.
      apply Hbound in Hin. clear -Hin. induction pairs as [|[k0 v0] l IH]; [done |].
      simpl in Hin. rewrite fmap_cons. case_bool_decide as Hk; [subst; by left |].
      right. by apply IH.
    + intros Hk. assert (Hv : ∃ v, first_binding k pairs = Some v).
      { clear -Hk. induction pairs as [|[k0 v0] l IH]; [by apply elem_of_nil in Hk |].
        simpl. case_bool_decide as Hk0; [by eexists |].
        rewrite fmap_cons in Hk. apply elem_of_cons in Hk as [->|Hk]; [done | by apply IH]. }
      destruct Hv as [v Hv]. apply Hbound in Hv. by apply (list_elem_of_fmap_2 fst) in Hv.
Qed.

(** X17. The migration step of a mutating call, on a reachable map: when
    it returns, the map holds the bindings it held, [size()] is unchanged, a
    map that was not migrating is untouched, and no migration has started. *)
Theorem hashmap_migration_keeps_bindings m m1 :
  reachable key_less hash_call default_hash default_mapped m →
  move_progressively key_less hash_call default_hash m = Ok m1 →
  contents m1 ≡ₚ contents m ∧ size m1 = size m ∧
  (rehashing_ m = false → m1 = m) ∧ (rehashing_ m1 = true → rehashing_ m = true).
Proof.
  intros Hr Hmp.
  pose proof (reachable_Inv key_less hash_call default_hash default_mapped m Hr) as Hinv.
  destruct (move_progressively_inv _ _ _ _ _ Hinv Hmp) as (Hinv1 & Hp & _ & _ & Hidle & Hbusy).
  split_and!; try done.
  by rewrite (size_contents hash_call default_hash m1 Hinv1),
    (size_contents hash_call default_hash m Hinv), Hp.
Qed.


End hashmap_contract_theorems.

Section hashmap_contract_examples.
Import Hashmap HashmapInv FixedHashmapInv HashmapFacts Examples.

Lemma migrating_map_reachable : reachable Z.ltb identity_hash () 0 migrating_map.
Proof. exists 2, (), migrating_map_calls. reflexivity. Qed.

Lemma single_map_reachable : reachable Z.ltb identity_hash () 0 single_map.
Proof. exists 2, (), single_map_calls. reflexivity. Qed.

Lemma hashmap_insert_contract_witness :
  fuel_suffices (insert Z.ltb identity_hash () (3, 30) migrating_map) ∧
  ∀ it ins m', insert Z.ltb identity_hash () (3, 30) migrating_map = Ok (it, ins, m') →
    reachable Z.ltb identity_hash () 0 m' ∧
    3 ∈ (contents m').*1 ∧
    if ins
    then (3 ∉ (contents migrating_map).*1) ∧ contents m' ≡ₚ (3, 30) :: contents migrating_map ∧
         size m' = size migrating_map + 1
    else 3 ∈ (contents migrating_map).*1 ∧ contents m' ≡ₚ contents migrating_map ∧
         size m' = size migrating_map.
Proof.
  apply (hashmap_insert_contract Z.ltb identity_hash () 0 (3, 30)), migrating_map_reachable.
Defined.

Lemma hashmap_erase_contract_witness :
  fuel_suffices (erase Z.ltb identity_hash () 2 migrating_map) ∧
  ∀ n m', erase Z.ltb identity_hash () 2 migrating_map = Ok (n, m') →
    reachable Z.ltb identity_hash () 0 m' ∧
    (n = 1 ∧ 2 ∈ (contents migrating_map).*1 ∨ n = 0 ∧ 2 ∉ (contents migrating_map).*1) ∧
    (∀ k v, bound m' k v ↔ bound migrating_map k v ∧ k ≠ 2) ∧
    size m' = size migrating_map - n.
Proof.
  apply (hashmap_erase_contract Z.ltb identity_hash () 0 2), migrating_map_reachable.
Defined.

Lemma hashmap_find_contract_witness :
  if end_ migrating_map_begin then 2 ∉ (contents migrating_map).*1
  else ∃ v, deref migrating_map migrating_map_begin = Ok (2, v) ∧ bound migrating_map 2 v ∧
            ∀ w, bound migrating_map 2 w → w = v.
Proof.
  apply (hashmap_find_contract Z.ltb identity_hash () 0 2 migrating_map migrating_map_begin
           migrating_map); [apply migrating_map_reachable | reflexivity].
Defined.

Lemma hashmap_contains_contract_witness :
  (∀ r m', contains identity_hash 1 single_map = Ok (r, m') →
     (r = true ↔ 1 ∈ (contents single_map).*1)) ∧
  (1 ∈ keys (current_ single_map) → contains identity_hash 1 single_map = Ok (true, single_map)).
Proof.
  apply (hashmap_contains_contract Z.ltb identity_hash () 0 1), single_map_reachable.
Defined.

Lemma hashmap_at_const_contract_witness :
  (∀ v, at_const identity_hash 1 single_map = Ok v → bound single_map 1 v) ∧
  (at_const identity_hash 1 single_map = Fault out_of_range → 1 ∉ (contents single_map).*1) ∧
  (rehashing_ single_map = false →
     ∀ v, bound single_map 1 v → at_const identity_hash 1 single_map = Ok v).
Proof.
  apply (hashmap_at_const_contract Z.ltb identity_hash () 0 1), single_map_reachable.
Defined.

Lemma hashmap_at_contract_witness :
  fuel_suffices (at_ Z.ltb identity_hash () 0 5 migrating_map) ∧
  subscript Z.ltb identity_hash () 0 5 migrating_map = at_ Z.ltb identity_hash () 0 5 migrating_map ∧
  ∀ v m', at_ Z.ltb identity_hash () 0 5 migrating_map = Ok (v, m') →
    reachable Z.ltb identity_hash () 0 m' ∧
    ((bound migrating_map 5 v ∧ contents m' ≡ₚ contents migrating_map ∧
      size m' = size migrating_map) ∨
     ((5 ∉ (contents migrating_map).*1) ∧ v = 0 ∧
      contents m' ≡ₚ (5, 0) :: contents migrating_map ∧ size m' = size migrating_map + 1)).
Proof.
  apply (hashmap_at_contract Z.ltb identity_hash () 0 5), migrating_map_reachable.
Defined.

Lemma hashmap_size_counts_bindings_witness :
  size migrating_map = Z.of_nat (length (contents migrating_map)) ∧
  size migrating_map = Z.of_nat (length (remove_dups (contents migrating_map).*1)) ∧
  (size migrating_map = 0 ↔ ∀ k v, ¬ bound migrating_map k v).
Proof.
  apply (hashmap_size_counts_bindings Z.ltb identity_hash () 0), migrating_map_reachable.
Defined.

Lemma hashmap_load_bound_witness :
  FixedHashmap.get_bucket_count (current_ single_map) = 0 ∨
  FixedHashmap.size (current_ single_map) * 4
    < FixedHashmap.get_bucket_count (current_ single_map) * 3.
Proof.
  apply (hashmap_load_bound Z.ltb identity_hash () 0 single_map single_map_reachable).
  reflexivity.
Defined.

Lemma hashmap_clear_contract_witness :
  ∃ m', clear migrating_map = Ok m' ∧ reachable Z.ltb identity_hash () 0 m' ∧
        contents m' = [] ∧ size m' = 0 ∧ rehashing_ m' = false.
Proof.
  apply (hashmap_clear_contract Z.ltb identity_hash () 0), migrating_map_reachable.
Defined.

Lemma hashmap_of_pairs_contract_witness :
  reachable Z.ltb identity_hash () 0 listed_map ∧
  (∀ k v, bound listed_map k v ↔ first_binding k listed_pairs = Some v) ∧
  size listed_map = Z.of_nat (length (remove_dups listed_pairs.*1)).
Proof.
  apply (hashmap_of_pairs_contract Z.ltb identity_hash () 0 listed_pairs 10 ()).
  reflexivity.
Defined.

Lemma hashmap_migration_keeps_bindings_witness :
  contents migrating_map_stepped ≡ₚ contents migrating_map ∧
  size migrating_map_stepped = size migrating_map ∧
  (rehashing_ migrating_map = false → migrating_map_stepped = migrating_map) ∧
  (rehashing_ migrating_map_stepped = true → rehashing_ migrating_map = true).
Proof.
  apply (hashmap_migration_keeps_bindings Z.ltb identity_hash () 0);
    [apply migrating_map_reachable | reflexivity].
Defined.


End hashmap_contract_examples.

(** ** Loops over a bucket, a table and a map *)

Section bucket_loop.
Import TreeList TreeListInv.
Context {T : Type}.
Implicit Types (b : tree_list_base T) (it : mixed_node_type).

Lemma visit_from_end b fuel : visit_from fuel b end_ = Ok [].
Proof. by destruct fuel. Qed.

Lemma visit_from_names b it l1 d l2 fuel :
  names b it l1 d l2 → (length (d :: l2) ≤ fuel)%nat →
  visit_from fuel b it = Ok (d :: l2).
Proof.
  revert it l1 d fuel. induction l2 as [|d' l2 IH]; intros it l1 d fuel Hn Hf;
    (destruct fuel as [|fuel]; [simpl in Hf; lia |]); simpl;
    rewrite (names_not_end _ _ _ _ _ Hn), (get_data_names _ _ _ _ _ Hn); simpl;
    destruct (increment_names _ _ _ _ _ Hn) as (it' & -> & Hnext); simpl.
  - destruct fuel; simpl; by rewrite Hnext.
  - rewrite (IH it' (l1 ++ [d]) d' fuel Hnext); [done | simpl in *; lia].
Qed.

Lemma begin_empty_tree b :
  bucket_wf b → ds_type_ b = k_red_black_tree → elements b = [] →
  begin b = Fault undefined_behaviour.
Proof.
  intros [_ Hshape] Hds He. unfold begin. rewrite Hds in *.
  destruct b as [[ch|t] n ds]; unfold elements in He; simpl in *; [done |].
  destruct t as [|c l x r]; [done |]. simpl in He. by destruct (inorder l).
Qed.

Lemma visit_spec b fuel :
  bucket_wf b → (length (elements b) ≤ fuel)%nat →
  ds_type_ b = k_linked_list ∨ elements b ≠ [] →
  visit fuel b = Ok (elements b).
Proof.
  intros Hwf Hf Hcase. unfold visit. destruct (elements b) as [|d l] eqn:He.
  - destruct Hcase as [Hds|]; [| done]. rewrite (begin_empty b Hwf Hds He). simpl.
    apply visit_from_end.
  - destruct (begin_names b d l Hwf He) as (it & -> & Hn). simpl.
    by apply (visit_from_names b it [] d l).
Qed.

End bucket_loop.

Section table_loop.
Import FixedHashmap FixedHashmapInv IterationFacts.
Import TreeListInv.
Context {Key Mapped Hash TablePtr : Type}.
Implicit Types (m : fixed_hashmap Key Mapped Hash) (this : TablePtr).
Implicit Types (table slots : mmap_array Key Mapped).

Lemma first_nonempty_spec slots (i : Z) :
  Forall bucket_wf slots →
  match flat slots with
  | [] => first_nonempty slots i = Ok None
  | d :: l =>
      ∃ pre b post it l',
        slots = pre ++ b :: post ∧ names b it [] d l' ∧ l = l' ++ flat post ∧
        first_nonempty slots i = Ok (Some (it, i + Z.of_nat (length pre)))
  end.
Proof.
  intros Hall. revert i. induction Hall as [|b rest Hb Hall IH]; intros i; [done |].
  rewrite flat_cons. simpl. unfold TreeList.empty. pose proof Hb as [Hsz _].
  destruct (TreeList.elements b) as [|d l'] eqn:He.
  - rewrite bool_decide_true by (by rewrite Hsz). simpl.
    specialize (IH (i + 1)). destruct (flat rest) as [|d l]; [done |].
    destruct IH as (pre & b' & post & it & l' & -> & Hn & -> & ->).
    exists (b :: pre), b', post, it, l'. split_and!; try done. do 3 f_equal. simpl. lia.
  - rewrite bool_decide_false by (rewrite Hsz; simpl; lia). simpl.
    destruct (begin_names b d l' Hb He) as (it & -> & Hn). simpl.
    exists [], b, rest, it, l'. split_and!; try done. do 3 f_equal. simpl. lia.
Qed.

Lemma begin_position this m :
  Forall bucket_wf (table_ m) →
  match elements m with
  | [] => begin this m = Ok (end_it this)
  | d :: rest => ∃ it, begin this m = Ok it ∧ position this (table_ m) it d rest
  end.
Proof.
  intros Hall. pose proof (first_nonempty_spec (table_ m) 0 Hall) as Hf.
  unfold begin. rewrite elements_flat. destruct (flat (table_ m)) as [|d l].
  - by rewrite Hf.
  - destruct Hf as (pre & b & post & it & l' & Ht & Hn & -> & ->). simpl.
    eexists. split; [done |]. by exists pre, b, post, [], l'.
Qed.

Lemma step_position this table it d rest :
  Forall bucket_wf table → position this table it d rest →
  deref table it = Ok d ∧
  ∃ it', increase table it = Ok it' ∧ it_table_ it' = this ∧
    match rest with
    | [] => end_ it' = true
    | d' :: rest' => position this table it' d' rest'
    end.
Proof.
  intros Hall (pre & b & post & l1 & l2 & -> & Hthis & Hidx & Hend & Hn & ->).
  assert (Hb : mmap_array_index (pre ++ b :: post) (index_ it) = Ok b).
  { unfold mmap_array_index. rewrite Hidx, bool_decide_true by lia.
    by rewrite Nat2Z.id, list_lookup_middle. }
  split.
  - unfold deref. rewrite Hb. simpl. by apply (get_data_names _ _ l1 _ l2).
  - unfold increase. rewrite Hend, Hb. simpl.
    destruct (increment_names _ _ _ _ _ Hn) as (bi & -> & Hnext). simpl.
    destruct l2 as [|d' l2].
    + rewrite Hnext. simpl.
      replace (Z.to_nat (index_ it + 1)) with (S (length pre)) by lia.
      replace (drop (S (length pre)) (pre ++ b :: post)) with post
        by (clear; induction pre; [done | by simpl]).
      apply Forall_app in Hall as [_ Hall]. apply Forall_cons in Hall as [_ Hall].
      pose proof (first_nonempty_spec post (index_ it + 1) Hall) as Hf.
      destruct (flat post) as [|d' l].
      * rewrite Hf. simpl. by eexists.
      * destruct Hf as (pre' & b' & post' & it' & l' & -> & Hn' & -> & ->). simpl.
        eexists. split; [done |]. split; [done |].
        exists (pre ++ b :: pre'), b', post', [], l'. simpl.
        split_and!; try done.
        -- by rewrite <- app_assoc.
        -- rewrite length_app. simpl. lia.
    + rewrite (names_not_end _ _ _ _ _ Hnext). simpl.
      eexists. split; [done |]. split; [done |].
      by exists pre, b, post, (l1 ++ [d]), l2.
Qed.

Lemma visit_from_position this m it d rest fuel :
  Forall bucket_wf (table_ m) → position this (table_ m) it d rest →
  (length (d :: rest) ≤ fuel)%nat →
  visit_from fuel this m it = Ok (d :: rest).
Proof.
  intros Hall. revert it d fuel. induction rest as [|d' rest IH]; intros it d fuel Hp Hf;
    (destruct fuel as [|fuel]; [simpl in Hf; lia |]);
    destruct (step_position this _ it d _ Hall Hp) as (Hd & it' & Hi & Hthis & Hnext);
    destruct Hp as (_ & _ & _ & _ & _ & _ & _ & _ & Hend & _);
    simpl; unfold iterator_ne, iterator_eq; rewrite Hend, Hd; simpl; rewrite Hi; simpl.
  - destruct fuel; simpl; unfold iterator_ne, iterator_eq; by rewrite Hnext.
  - rewrite (IH it' d' fuel Hnext); [done | simpl in *; lia].
Qed.

Lemma table_visit_spec this m fuel :
  Forall bucket_wf (table_ m) → (length (elements m) ≤ fuel)%nat →
  visit fuel this m = Ok (elements m).
Proof.
  intros Hall Hf. pose proof (begin_position this m Hall) as Hb. unfold visit.
  destruct (elements m) as [|d rest].
  - rewrite Hb. simpl. by destruct fuel.
  - destruct Hb as (it & -> & Hp). simpl. by apply visit_from_position.
Qed.

End table_loop.

Section map_loop.
Import Hashmap HashmapInv FixedHashmapInv IterationFacts.
Import TreeListInv.
Context {Key Mapped Hash : Type} `{EqDecision Key}.
Implicit Types (m : hashmap Key Mapped Hash) (it : iterator).

Lemma iterate_from_old m it d rest fuel :
  Forall bucket_wf (FixedHashmap.table_ (old_ m)) →
  position old_table (FixedHashmap.table_ (old_ m)) (it_ it) d rest →
  end_ it = false → which_ it = 1 → (length (d :: rest) ≤ fuel)%nat →
  iterate_from fuel m it = Ok (d :: rest).
Proof.
  intros Hall. revert it d fuel.
  induction rest as [|d' rest IH]; intros it d fuel Hp Hend Hwhich Hf;
    (destruct fuel as [|fuel]; [simpl in Hf; lia |]);
    destruct (step_position old_table _ (it_ it) d _ Hall Hp) as (Hd & it' & Hi & Hthis & Hnext);
    assert (Htab : FixedHashmap.it_table_ (it_ it) = old_table)
      by (by destruct Hp as (? & ? & ? & ? & ? & ? & ? & ?));
    simpl; unfold iterator_ne, iterator_eq, deref, increase, inner_increase;
    rewrite Hend, Hwhich, Htab; simpl; rewrite Hd; simpl; rewrite Hi; simpl;
    unfold FixedHashmap.iterator_ne, FixedHashmap.iterator_eq.
  - rewrite Hnext. simpl. by destruct fuel.
  - assert (Hend' : FixedHashmap.end_ it' = false)
      by (by destruct Hnext as (? & ? & ? & ? & ? & ? & ? & ? & ? & ?)).
    rewrite Hend'. simpl. rewrite (IH _ d' fuel); [done | done | done | done |].
    simpl in *. lia.
Qed.

Lemma iterate_from_current m it d rest fuel :
  Forall bucket_wf (FixedHashmap.table_ (current_ m)) →
  Forall bucket_wf (FixedHashmap.table_ (old_ m)) →
  position current_table (FixedHashmap.table_ (current_ m)) (it_ it) d rest →
  end_ it = false → which_ it = 0 →
  (length (d :: rest ++ FixedHashmap.elements (old_ m)) ≤ fuel)%nat →
  iterate_from fuel m it = Ok (d :: rest ++ FixedHashmap.elements (old_ m)).
Proof.
  intros Hallc Hallo. revert it d fuel.
  induction rest as [|d' rest IH]; intros it d fuel Hp Hend Hwhich Hf;
    (destruct fuel as [|fuel]; [simpl in Hf; lia |]);
    destruct (step_position current_table _ (it_ it) d _ Hallc Hp)
      as (Hd & it' & Hi & Hthis & Hnext);
    assert (Htab : FixedHashmap.it_table_ (it_ it) = current_table)
      by (by destruct Hp as (? & ? & ? & ? & ? & ? & ? & ?));
    simpl; unfold iterator_ne, iterator_eq, deref, increase, inner_increase;
    rewrite Hend, Hwhich, Htab; simpl; rewrite Hd; simpl; rewrite Hi; simpl;
    unfold FixedHashmap.iterator_ne, FixedHashmap.iterator_eq.
  - rewrite Hnext. simpl.
    pose proof (begin_position old_table (old_ m) Hallo) as Hb.
    destruct (FixedHashmap.elements (old_ m)) as [|d' rest'].
    + rewrite Hb. simpl. by destruct fuel.
    + destruct Hb as (it2 & -> & Hp2). simpl.
      assert (Hend2 : FixedHashmap.end_ it2 = false)
        by (by destruct Hp2 as (? & ? & ? & ? & ? & ? & ? & ? & ? & ?)).
      rewrite Hend2. simpl.
      rewrite (iterate_from_old m _ d' rest' fuel); [done | done | done | done | done |].
      simpl in *. lia.
  - assert (Hend' : FixedHashmap.end_ it' = false)
      by (by destruct Hnext as (? & ? & ? & ? & ? & ? & ? & ? & ? & ?)).
    rewrite Hend'. simpl. rewrite (IH _ d' fuel); [done | done | done | done |].
    simpl in *. lia.
Qed.

Lemma iterate_spec m fuel :
  Forall bucket_wf (FixedHashmap.table_ (current_ m)) →
  Forall bucket_wf (FixedHashmap.table_ (old_ m)) →
  FixedHashmap.elements (current_ m) ≠ [] ∨ FixedHashmap.elements (old_ m) = [] →
  (length (contents m) ≤ fuel)%nat →
  iterate fuel m = Ok (contents m).
Proof.
  intros Hallc Hallo Hcase Hf. unfold iterate, begin, contents in *.
  pose proof (begin_position current_table (current_ m) Hallc) as Hb.
  destruct (FixedHashmap.elements (current_ m)) as [|d rest].
  - destruct Hcase as [|Ho]; [done |]. rewrite Hb. simpl.
    pose proof (begin_position old_table (old_ m) Hallo) as Hb2. rewrite Ho in *.
    rewrite Hb2. simpl. by destruct fuel.
  - destruct Hb as (it & -> & Hp). simpl.
    assert (Hend : FixedHashmap.end_ it = false)
      by (by destruct Hp as (? & ? & ? & ? & ? & ? & ? & ? & ? & ?)).
    unfold FixedHashmap.iterator_eq. rewrite Hend. simpl.
    by apply iterate_from_current.
Qed.

End map_loop.

(** ** Search in a bucket *)

Section bucket_search.
Import TreeList TreeListInv TreeListFacts RedBlack.
Context {T : Type} `{EqDecision T} (compare : T → T → bool).
Implicit Types (b : tree_list_base T) (it : mixed_node_type) (t root : rb_node_type T).

Lemma tree_insert_node_search x t :
  search_tree compare t → search_tree compare (tree_insert_node compare (new_rb_node x) t).
Proof.
  induction t as [|c l IHl d r IHr]; simpl.
  - intros _. split_and!; try done; intros y Hy; by apply elem_of_nil in Hy.
  - intros (Hl & Hr & Hsl & Hsr). destruct (compare x d) eqn:Hc; simpl.
    + split_and!; [| done | by apply IHl | done].
      intros y Hy. rewrite tree_insert_node_perm in Hy.
      apply elem_of_cons in Hy as [->|Hy]; [done | by apply Hl].
    + split_and!; [done | | done | by apply IHr].
      intros y Hy. rewrite tree_insert_node_perm in Hy.
      apply elem_of_cons in Hy as [->|Hy]; [done | by apply Hr].
Qed.

Lemma treefy_fold_search l t :
  search_tree compare t →
  search_tree compare (foldl (λ t d, tree_insert_node compare (new_rb_node d) t) t l).
Proof.
  revert t. induction l as [|d l IH]; intros t Ht; simpl; [done |].
  by apply IH, tree_insert_node_search.
Qed.

Lemma tree_insert_path_node x t root p :
  node_at root p = tree_insert_node compare (new_rb_node x) t →
  node_at root (tree_insert_path compare x t p) = new_rb_node x.
Proof.
  revert p. induction t as [|c l IHl d r IHr]; intros p Hp; simpl in *; [done |].
  destruct (compare x d); [apply IHl | apply IHr]; simpl; by rewrite Hp.
Qed.

Lemma tree_search_normal_spec (x : T) t root p :
  search_tree compare t → node_at root p = t →
  match tree_search_normal compare t p x with
  | null_ref => x ∉ inorder t
  | tree_ref q => ∃ c l r, node_at root q = rb_node c l x r
  | list_ref _ => False
  end.
Proof.
  revert p. induction t as [|c l IHl d r IHr]; intros p Hs Hp; simpl.
  - apply not_elem_of_nil.
  - destruct Hs as (Hl & Hr & Hsl & Hsr). case_bool_decide as Hd.
    + subst d. by exists c, l, r.
    + destruct (compare x d) eqn:Hc.
      * specialize (IHl (go_left :: p) Hsl). simpl in IHl. rewrite Hp in IHl.
        specialize (IHl eq_refl).
        destruct (tree_search_normal compare l (go_left :: p) x); [| done | done].
        rewrite elem_of_app, elem_of_cons. intros [Hin|[->|Hin]]; [done | done |].
        apply Hr in Hin. congruence.
      * specialize (IHr (go_right :: p) Hsr). simpl in IHr. rewrite Hp in IHr.
        specialize (IHr eq_refl).
        destruct (tree_search_normal compare r (go_right :: p) x); [| done | done].
        rewrite elem_of_app, elem_of_cons. intros [Hin|[->|Hin]]; [| done | done].
        apply Hl in Hin. congruence.
Qed.

Lemma list_search_from_spec (x : T) (chain : list T) (i : nat) :
  match list_search_from chain i x with
  | null_ref => x ∉ chain
  | list_ref j => ∃ k : nat, j = (i + k)%nat ∧ chain !! k = Some x
  | tree_ref _ => False
  end.
Proof.
  revert i. induction chain as [|d chain IH]; intros i; simpl.
  - apply not_elem_of_nil.
  - case_bool_decide as Hd.
    + subst d. exists 0%nat. split; [lia | done].
    + specialize (IH (S i)). destruct (list_search_from chain (S i) x) as [|j|]; [| | done].
      * by apply not_elem_of_cons.
      * destruct IH as (k & -> & Hk). exists (S k). split; [lia | done].
Qed.

(** [find] on a bucket whose tree, if it has one, was built by insertions. *)
Lemma find_spec x b :
  bucket_wf b → search_bucket compare b →
  ∃ it, find compare x b = Ok it ∧
        (mixed_node_eq it end_ = true ↔ x ∉ elements b) ∧
        (x ∈ elements b → get_data b it = Ok x).
Proof.
  intros [_ Hshape] Hs. unfold find, search_bucket, list_search, tree_search, elements in *.
  destruct b as [[ch|t] n []]; simpl in *; try done.
  - pose proof (list_search_from_spec x ch 0) as Hl.
    destruct (list_search_from ch 0 x) as [|j|] eqn:Hj; [| | done]; eexists; (split; [done |]).
    + split; [done |]. intros Hin. done.
    + destruct Hl as (k & -> & Hk). split.
      * split; [done |]. intros Hno. exfalso. apply Hno. by eapply list_elem_of_lookup_2.
      * intros _. unfold get_data, chain_of. simpl. by rewrite Hk.
  - subst t. simpl. eexists. split; [done |]. split; [| intros Hin; by apply elem_of_nil in Hin].
    split; [intros _; apply not_elem_of_nil | done].
  - pose proof (tree_search_normal_spec x t t [] Hs eq_refl) as Ht.
    destruct (tree_search_normal compare t [] x) as [| |q] eqn:Hq; [| done |];
      eexists; (split; [done |]).
    + split; [done |]. intros Hin. done.
    + destruct Ht as (c & l & r & Hnode). split.
      * split; [done |]. intros Hno. exfalso. apply Hno.
        rewrite (inorder_split t q), Hnode.
        { simpl. rewrite !elem_of_app, elem_of_cons. right. left. right. by left. }
        apply node_at_link_ok. by rewrite Hnode.
      * intros _. unfold get_data, tree_of. simpl. by rewrite Hnode.
Qed.

Lemma tree_insert_iterator x t (n : Z) (ds : data_struct_type) :
  let b' := mk_tree_list (holds_root (tree_insert_node compare (new_rb_node x) t)) n ds in
  let it := tree_iterator (tree_ref (tree_insert_path compare x t [])) in
  get_data b' it = Ok x ∧ mixed_node_eq it end_ = false ∧
  (search_tree compare t → search_bucket compare b').
Proof.
  simpl. unfold get_data, mixed_node_eq, search_bucket, tree_of. simpl.
  rewrite (tree_insert_path_node x t _ []) by done. split_and!; [done | done |].
  apply tree_insert_node_search.
Qed.

(** [insert] on a bucket that is not due for the transition back to a
    list: the iterator returned names the new element, and the descent order
    of the tree is kept. *)
Lemma insert_iterator x b it b' :
  bucket_wf b → ¬ demotion_due b → insert compare x b = Ok (it, b') →
  get_data b' it = Ok x ∧ mixed_node_eq it end_ = false ∧
  (search_bucket compare b → search_bucket compare b').
Proof.
  intros [Hsz Hshape] Hnd Hi. unfold insert, treefy_or_un_treefy in Hi.
  destruct b as [[ch|t] n ds]; destruct ds; simpl in *; try done.
  - case_bool_decide as Hten; simpl in Hi; injection Hi as <- <-.
    + destruct (tree_insert_iterator x
                  (foldl (λ t d, tree_insert_node compare (new_rb_node d) t) rb_null ch)
                  (n + 1) k_red_black_tree) as (Hd & Hne & Hs).
      split_and!; [done | done |]. intros _. apply Hs. by apply treefy_fold_search.
    + by split_and!.
  - subst t. case_bool_decide as Hten; simpl in Hi; injection Hi as <- <-.
    + destruct (tree_insert_iterator x rb_null (n + 1) k_red_black_tree) as (Hd & Hne & Hs).
      split_and!; [done | done |]. intros _. by apply Hs.
    + by split_and!.
  - case_bool_decide as Hthree.
    { exfalso. apply Hnd. by split. }
    simpl in Hi. injection Hi as <- <-.
    apply (tree_insert_iterator x t (n + 1) k_red_black_tree).
Qed.

Lemma insert_each_search l b b' :
  bucket_wf b → grown b → search_bucket compare b →
  insert_each compare l b = Ok b' →
  bucket_wf b' ∧ search_bucket compare b' ∧ elements b' ≡ₚ l ++ elements b.
Proof.
  revert b. induction l as [|x l IH]; intros b Hwf Hg Hs Hr; simpl in Hr.
  - by injection Hr as <-.
  - destruct (insert_grown compare x b Hwf Hg) as (it & b1 & Hi & Hwf1 & Hg1 & _ & Hp).
    rewrite Hi in Hr. simpl in Hr.
    assert (Hnd : ¬ demotion_due b).
    { intros [Hds Hle]. destruct Hg as [_ Hg]. specialize (Hg Hds). lia. }
    destruct (insert_iterator x b it b1 Hwf Hnd Hi) as (_ & _ & Hs1).
    destruct (IH b1 Hwf1 Hg1 (Hs1 Hs) Hr) as (Hwf' & Hs' & Hp').
    split_and!; [done | done |]. rewrite Hp', Hp. simpl. by rewrite Permutation_middle.
Qed.

End bucket_search.

Section bucket_contract_theorems.
Import TreeList TreeListInv TreeListFacts RedBlack.
Context {T : Type} `{EqDecision T} (compare : T → T → bool).
Implicit Types (b : tree_list_base T) (it : mixed_node_type).

(** X19. The loop [for (it = begin(); it != end(); ++it)] over a
    well-formed bucket that is a list, or a tree with at least one node,
    ends and visits the elements of the bucket, each once, in chain order or
    in in-order. On a tree without nodes [begin()] reads through the null
    root. *)
Theorem treelist_iteration b (fuel : nat) :
  bucket_wf b → (length (elements b) ≤ fuel)%nat →
  (ds_type_ b = k_linked_list ∨ elements b ≠ [] → visit fuel b = Ok (elements b)) ∧
  (ds_type_ b = k_red_black_tree → elements b = [] → begin b = Fault undefined_behaviour).
Proof.
  intros Hwf Hf. split.
  - by apply visit_spec.
  - by apply begin_empty_tree.
Qed.

(** X20. [find] after insertions. The calls [insert(x)] for the elements
    of a list, made on an empty bucket, all return; on the bucket they build,
    as a list or as a tree, [find(x)] returns [end()] exactly for the data that
    were not inserted, and for the others an iterator whose datum is [x]. *)
Theorem treelist_find_after_inserts (l : list T) (x : T) :
  ∃ b, insert_each compare l zeroed = Ok b ∧ elements b ≡ₚ l ∧
       ∃ it, find compare x b = Ok it ∧
             (mixed_node_eq it end_ = true ↔ x ∉ l) ∧
             (x ∈ l → get_data b it = Ok x).
Proof.
  assert (Hg : grown (@zeroed T)) by (split; [intros _; simpl; lia | done]).
  destruct (insert_each_grown compare l zeroed zeroed_wf Hg) as (b & Hr & _).
  destruct (insert_each_search compare l zeroed b zeroed_wf Hg I Hr) as (Hwf & Hs & Hp).
  rewrite app_nil_r in Hp.
  destruct (find_spec compare x b Hwf Hs) as (it & Hf & Hend & Hd).
  exists b. split_and!; [done | done |]. exists it. by rewrite <- Hp.
Qed.

(** X21. [insert] on a well-formed bucket that is a list, or a tree of
    more than three nodes, returns; the iterator it returns is not [end()] and
    its datum is the new element; the bucket is well formed, holds the new
    element besides the former ones, and [size_] is one higher. *)
Theorem treelist_insert_contract (x : T) b :
  bucket_wf b → (ds_type_ b = k_red_black_tree → 3 < TreeList.size_ b) →
  ∃ it b', insert compare x b = Ok (it, b') ∧
           get_data b' it = Ok x ∧ mixed_node_eq it end_ = false ∧
           bucket_wf b' ∧ elements b' ≡ₚ x :: elements b ∧
           TreeList.size_ b' = TreeList.size_ b + 1.
Proof.
  intros Hwf Hbig.
  assert (Hnd : ¬ demotion_due b) by (intros [Hds Hle]; specialize (Hbig Hds); lia).
  destruct (bucket_insert_spec compare x b Hwf Hnd) as (it & b' & Hi & Hwf' & Hp & Hsz & _).
  destruct (insert_iterator compare x b it b' Hwf Hnd Hi) as (Hd & Hne & _).
  by exists it, b'.
Qed.

(** X22. [clear] on a well-formed bucket, list or tree, returns: the
    counter reaches 0, so the assertion holds; the bucket is then a list
    without elements. *)
Theorem treelist_clear_contract b :
  bucket_wf b →
  ∃ b', clear b = Ok b' ∧ bucket_wf b' ∧ elements b' = [] ∧ TreeList.size_ b' = 0 ∧
        ds_type_ b' = k_linked_list.
Proof.
  intros Hwf. destruct (bucket_clear_wf b Hwf) as (b' & Hc & He & Hs & Hds).
  exists b'. split_and!; try done. split; [by rewrite He |].
  rewrite Hds. destruct (head_root_ b') as [ch|t] eqn:Hroot; [done |].
  unfold elements in He. rewrite Hroot in He. destruct t as [|c tl y tr]; [done |].
  simpl in He. by destruct (inorder tl).
Qed.

End bucket_contract_theorems.

Section emplace_theorems.
Context {Key Mapped Hash TablePtr : Type} `{EqDecision Key}.
Context (key_less : Key → Key → bool).
Context (hash_call : Hash → Key → Z).
Context (default_hash : Hash).

(** X23. [emplace] gives the result and the state that [insert] gives:
    on every bucket, on every table and on every map. *)
Theorem emplace_is_insert :
  (∀ (compare : Key * Mapped → Key * Mapped → bool) x (b : TreeList.tree_list_base (Key * Mapped)),
     TreeList.emplace compare x b = TreeList.insert compare x b) ∧
  (∀ (this : TablePtr) kv (m : FixedHashmap.fixed_hashmap Key Mapped Hash),
     FixedHashmap.emplace key_less hash_call this kv m
       = FixedHashmap.insert key_less hash_call this kv m) ∧
  (∀ kv (m : Hashmap.hashmap Key Mapped Hash),
     Hashmap.emplace key_less hash_call default_hash kv m
       = Hashmap.insert key_less hash_call default_hash kv m).
Proof.
  split_and!.
  - intros compare x b. apply TreeList_emplace_insert.
  - intros this kv m. apply emplace_insert.
  - intros kv m. apply Hashmap_emplace_insert.
Qed.

End emplace_theorems.

Section loop_theorems.
Import Hashmap HashmapInv FixedHashmapInv.
Context {Key Mapped Hash : Type} `{EqDecision Key}.
Context (key_less : Key → Key → bool).
Context (hash_call : Hash → Key → Z).
Context (default_hash : Hash).
Context (default_mapped : Mapped).

(** X24. The loop [for (it = begin(); it != end(); ++it)] over a table
    whose slots are well formed ends and visits the elements of the table,
    each once, slot by slot; slots without elements are skipped. *)
Theorem fixed_iteration {TablePtr} (this : TablePtr) (m : FixedHashmap.fixed_hashmap Key Mapped Hash)
    (fuel : nat) :
  table_ok m → (length (FixedHashmap.elements m) ≤ fuel)%nat →
  FixedHashmap.visit fuel this m = Ok (FixedHashmap.elements m).
Proof. intros [Hall _] Hf. by apply table_visit_spec. Qed.

(** X25. The loop [for (it = begin(); it != end(); ++it)] over a
    reachable map that is not migrating, or whose [current_] holds an element,
    ends and visits every binding once: those of [current_], then those of
    [old_]. *)
Theorem hashmap_iteration (m : hashmap Key Mapped Hash) (fuel : nat) :
  reachable key_less hash_call default_hash default_mapped m →
  rehashing_ m = false ∨ FixedHashmap.elements (current_ m) ≠ [] →
  (length (contents m) ≤ fuel)%nat →
  iterate fuel m = Ok (contents m) ∧ NoDup (contents m).*1.
Proof.
  intros Hr Hcase Hf.
  pose proof (reachable_Inv key_less hash_call default_hash default_mapped m Hr) as Hinv.
  split; [| apply (keys_unique _ _ _ Hinv)].
  apply iterate_spec; [apply (current_wf _ _ _ Hinv) | apply (old_wf _ _ _ Hinv) | | done].
  destruct Hcase as [Hidle|Hne]; [right | by left]. by apply (idle_old_empty _ _ _ Hinv).
Qed.

End loop_theorems.

Section further_examples.
Import Examples.

Lemma chain_wf (l : list (Z * Z)) : TreeListInv.bucket_wf (chain l).
Proof. done. Qed.

Lemma treelist_iteration_witness :
  (TreeList.ds_type_ (chain [(4, 40); (1, 10)]) = TreeList.k_linked_list ∨
   TreeList.elements (chain [(4, 40); (1, 10)]) ≠ [] →
   TreeList.visit 2 (chain [(4, 40); (1, 10)])
     = Ok (TreeList.elements (chain [(4, 40); (1, 10)]))) ∧
  (TreeList.ds_type_ (chain [(4, 40); (1, 10)]) = TreeList.k_red_black_tree →
   TreeList.elements (chain [(4, 40); (1, 10)]) = [] →
   TreeList.begin (chain [(4, 40); (1, 10)]) = Fault undefined_behaviour).
Proof.
  apply (treelist_iteration (chain [(4, 40); (1, 10)]) 2); [apply chain_wf | simpl; lia].
Defined.

Lemma treelist_insert_contract_witness :
  ∃ it b', TreeList.insert (λ a c : Z * Z, a.1 <? c.1) (7, 70) (chain [(4, 40); (1, 10)])
             = Ok (it, b') ∧
           TreeList.get_data b' it = Ok (7, 70) ∧
           TreeList.mixed_node_eq it TreeList.end_ = false ∧
           TreeListInv.bucket_wf b' ∧
           TreeList.elements b' ≡ₚ (7, 70) :: TreeList.elements (chain [(4, 40); (1, 10)]) ∧
           TreeList.size_ b' = TreeList.size_ (chain [(4, 40); (1, 10)]) + 1.
Proof.
  apply (treelist_insert_contract (λ a c : Z * Z, a.1 <? c.1) (7, 70)
           (chain [(4, 40); (1, 10)])); [apply chain_wf | discriminate].
Defined.

Lemma treelist_clear_contract_witness :
  ∃ b', TreeList.clear (chain [(4, 40); (1, 10)]) = Ok b' ∧ TreeListInv.bucket_wf b' ∧
        TreeList.elements b' = [] ∧ TreeList.size_ b' = 0 ∧
        TreeList.ds_type_ b' = TreeList.k_linked_list.
Proof. apply (treelist_clear_contract (chain [(4, 40); (1, 10)])), chain_wf. Defined.

Lemma drained_table_ok : FixedHashmapInv.table_ok drained_table.
Proof. split; [repeat constructor | reflexivity]. Qed.

Lemma fixed_iteration_witness :
  FixedHashmap.visit 3 () drained_table = Ok (FixedHashmap.elements drained_table).
Proof.
  apply (fixed_iteration () drained_table 3); [apply drained_table_ok | simpl; lia].
Defined.

Lemma hashmap_iteration_witness :
  HashmapInv.iterate 1 single_map = Ok (HashmapInv.contents single_map) ∧
  NoDup (HashmapInv.contents single_map).*1.
Proof.
  apply (hashmap_iteration Z.ltb identity_hash () 0 single_map 1);
    [apply single_map_reachable | by left | simpl; lia].
Defined.

End further_examples.

(** ** The order of a bucket *)

Section bucket_order.
Import TreeList TreeListInv TreeListFacts RedBlack.
Context {T : Type} `{EqDecision T} (compare : T → T → bool).
Implicit Types (b : tree_list_base T) (t : rb_node_type T).

Lemma sorted_glue (l1 : list T) d (l2 : list T) :
  sorted compare l1 = true → sorted compare l2 = true →
  (∀ x, x ∈ l1 → compare d x = false) → (∀ y, y ∈ l2 → compare y d = false) →
  sorted compare (l1 ++ d :: l2) = true.
Proof.
  intros H1 H2 Hl Hr. induction l1 as [|a l1 IH].
  - simpl. destruct l2 as [|y l2]; [done |]. rewrite Hr by (by left). done.
  - assert (Htail : sorted compare (l1 ++ d :: l2) = true).
    { apply IH.
      - destruct l1 as [|a' l1]; [done |]. simpl in H1. by apply andb_true_iff in H1 as [_ ?].
      - intros x Hx. apply Hl. by right. }
    destruct l1 as [|a' l1]; simpl in *.
    + rewrite Hl by (by left). done.
    + apply andb_true_iff in H1 as [-> _]. done.
Qed.

Lemma search_tree_sorted t :
  (∀ x y, compare x y = true → compare y x = false) →
  search_tree compare t → sorted compare (inorder t) = true.
Proof.
  intros Hasym. induction t as [|c l IHl d r IHr]; [done |].
  intros (Hl & Hr & Hsl & Hsr). simpl. apply sorted_glue; [by apply IHl | by apply IHr | | done].
  intros x Hx. by apply Hasym, Hl.
Qed.

(** The bucket after the insertions of [seen], in that order, into an
    empty bucket. *)
Lemma insert_each_order (seen l : list T) b b' :
  bucket_wf b → search_bucket compare b →
  TreeList.size_ b = Z.of_nat (length seen) →
  (ds_type_ b = k_linked_list ↔ (length seen ≤ 10)%nat) →
  (ds_type_ b = k_linked_list → elements b = rev seen) →
  insert_each compare l b = Ok b' →
  bucket_wf b' ∧ search_bucket compare b' ∧
  (ds_type_ b' = k_linked_list ↔ (length (seen ++ l) ≤ 10)%nat) ∧
  (ds_type_ b' = k_linked_list → elements b' = rev (seen ++ l)).
Proof.
  revert seen b. induction l as [|x l IH]; intros seen b Hwf Hs Hsz Hds Hel Hr; simpl in Hr.
  - injection Hr as <-. by rewrite app_nil_r.
  - assert (Hnd : ¬ demotion_due b).
    { intros [Ht Hle]. destruct (ds_type_ b) eqn:Hd; [done |].
      assert (Hgt : ¬ (length seen ≤ 10)%nat) by (intros Hle'; by apply Hds in Hle'). lia. }
    destruct (bucket_insert_spec compare x b Hwf Hnd)
      as (it & b1 & Hi & Hwf1 & Hp1 & Hsz1 & Hds1 & Hel1).
    rewrite Hi in Hr. simpl in Hr.
    destruct (insert_iterator compare x b it b1 Hwf Hnd Hi) as (_ & _ & Hs1).
    replace (seen ++ x :: l) with ((seen ++ [x]) ++ l) by (by rewrite <- app_assoc).
    apply (IH (seen ++ [x]) b1); try done.
    + by apply Hs1.
    + rewrite Hsz1, Hsz, length_app. simpl. lia.
    + rewrite Hds1, length_app. simpl. case_bool_decide as Hc.
      * destruct Hc as [Hl Hlt]. split; [| done]. intros _. lia.
      * split; [done |]. intros Hle. exfalso. apply Hc. split; [| lia]. apply Hds. lia.
    + intros Hl1. rewrite (Hel1 Hl1), rev_app_distr. simpl. f_equal. apply Hel.
      rewrite Hds1 in Hl1. case_bool_decide as Hc; [by destruct Hc | done].
Qed.

End bucket_order.

(** ** Resizing *)

Section resize.
Import Hashmap HashmapInv FixedHashmapInv HashmapFacts.
Context {Key Mapped Hash : Type} `{EqDecision Key}.
Context (key_less : Key → Key → bool).
Context (hash_call : Hash → Key → Z).
Context (default_hash : Hash).
Context (default_mapped : Mapped).
Implicit Types (m : hashmap Key Mapped Hash).

Lemma to_int_nonneg z : 0 ≤ z < 2 ^ 32 → 0 ≤ FixedHashmap.to_int z → FixedHashmap.to_int z = z.
Proof.
  intros Hz Hpos. destruct (decide (z < 2 ^ 31)) as [Hlt|Hge]; [apply to_int_small; lia |].
  exfalso. unfold FixedHashmap.to_int in Hpos.
  replace (z + 2 ^ 31) with ((z - 2 ^ 31) + 1 * 2 ^ 32) in Hpos by lia.
  rewrite Z_mod_plus_full, Z.mod_small in Hpos by lia. lia.
Qed.

Lemma maybe_rehash_policy m m' :
  Inv hash_call default_hash m → rehashing_ m = false →
  FixedHashmap.get_bucket_count (current_ m) ≠ 0 →
  maybe_rehash default_hash m = Ok m' →
  let n := FixedHashmap.get_bucket_count (current_ m) in
  let s := FixedHashmap.size (current_ m) in
  if bool_decide (n * 3 ≤ s * 4) then
    rehashing_ m' = true ∧ old_ m' = current_ m ∧
    FixedHashmap.get_bucket_count (current_ m') = 2 * n ∧
    FixedHashmap.elements (current_ m') = []
  else if bool_decide (s * 4 < n) && bool_decide (16 < n) then
    rehashing_ m' = true ∧ old_ m' = current_ m ∧
    FixedHashmap.get_bucket_count (current_ m') = 3 * s ∧
    FixedHashmap.elements (current_ m') = []
  else m' = m.
Proof.
  intros Hinv Hre Hn Hmr. simpl. unfold maybe_rehash in Hmr. rewrite Hre in Hmr.
  pose proof (current_bound _ _ _ Hinv) as Hbound.
  pose proof (table_wf_size hash_call _ (current_wf _ _ _ Hinv)) as Hsize.
  assert (Hpos : 0 ≤ FixedHashmap.get_bucket_count (current_ m))
    by (unfold FixedHashmap.get_bucket_count, FixedHashmap.mmap_array_size; lia).
  unfold FixedHashmap.size in *.
  case_bool_decide as Hgrow.
  - destruct (rehash_inv _ _ _ _ Hmr) as (fresh & Hnew & _ & ->).
    destruct (fixed_hashmap_new_inv hash_call _ _ _ Hnew) as (_ & He & _ & _ & Hc & Hc0 & _).
    simpl. split_and!; [done | done | | done].
    rewrite Hc, to_int_nonneg; lia.
  - destruct (bool_decide _ && bool_decide _) eqn:Hshrink.
    + apply andb_true_iff in Hshrink as [Hs1 Hs2].
      apply bool_decide_eq_true in Hs1. apply bool_decide_eq_true in Hs2.
      unfold shrink in Hmr.
      destruct (rehash_inv _ _ _ _ Hmr) as (fresh & Hnew & _ & ->).
      destruct (fixed_hashmap_new_inv hash_call _ _ _ Hnew) as (_ & He & _ & _ & Hc & Hc0 & _).
      simpl. split_and!; [done | done | | done].
      rewrite Hc, to_int_small; lia.
    + by injection Hmr as <-.
Qed.

Lemma move_progressively_idle m :
  rehashing_ m = false → move_progressively key_less hash_call default_hash m = Ok m.
Proof. intros Hre. unfold move_progressively. by rewrite Hre. Qed.

(** A mutating call on a map that is not migrating: the body works on
    [current_] and keeps its slots, then [maybe_rehash] runs once. *)
Lemma idle_call_resize op m m' :
  Inv hash_call default_hash m → rehashing_ m = false → op ≠ op_clear →
  run key_less hash_call default_hash default_mapped op m = Ok m' →
  ∃ m2, Inv hash_call default_hash m2 ∧ rehashing_ m2 = false ∧
        FixedHashmap.elements (old_ m2) = [] ∧
        FixedHashmap.get_bucket_count (old_ m2) = FixedHashmap.get_bucket_count (old_ m) ∧
        FixedHashmap.get_bucket_count (current_ m2)
          = FixedHashmap.get_bucket_count (current_ m) ∧
        FixedHashmap.get_bucket_count (current_ m) ≠ 0 ∧
        maybe_rehash default_hash m2 = Ok m'.
Proof.
  intros Hinv Hre Hop Hr. pose proof (idle_old_empty _ _ _ Hinv Hre) as Hold.
  assert (Hins : ∀ kv it ins m',
            insert key_less hash_call default_hash kv m = Ok (it, ins, m') →
            ∃ m2, Inv hash_call default_hash m2 ∧ rehashing_ m2 = false ∧
                  FixedHashmap.elements (old_ m2) = [] ∧
                  FixedHashmap.get_bucket_count (old_ m2)
                    = FixedHashmap.get_bucket_count (old_ m) ∧
                  FixedHashmap.get_bucket_count (current_ m2)
                    = FixedHashmap.get_bucket_count (current_ m) ∧
                  FixedHashmap.get_bucket_count (current_ m) ≠ 0 ∧
                  maybe_rehash default_hash m2 = Ok m').
  { intros kv it ins m0 Hi. unfold insert in Hi. rewrite move_progressively_idle in Hi by done.
    simpl in Hi. inv_bind Hi as [[it2 ins2] m2] Hbody. simpl in Hi. inv_bind Hi as m3 Hmr.
    injection Hi as <- <- <-.
    destruct (insert_body_inv _ _ _ _ _ _ _ _ Hinv Hbody) as (Hinv2 & Hre2 & Hold2 & _).
    unfold insert_body in Hbody. rewrite Hre in Hbody. simpl in Hbody.
    inv_bind Hbody as [[it1 ins1] c] Hfi. simpl in Hbody. injection Hbody as <- <- <-.
    destruct (insert_inv _ _ _ _ _ _ _ _ (current_wf _ _ _ Hinv) Hfi) as (_ & Hc & _ & Hne & _).
    exists (set_current c m). split_and!; try done; by apply bucket_count_ne_0. }
  assert (Hat : ∀ key v m',
            at_ key_less hash_call default_hash default_mapped key m = Ok (v, m') →
            ∃ m2, Inv hash_call default_hash m2 ∧ rehashing_ m2 = false ∧
                  FixedHashmap.elements (old_ m2) = [] ∧
                  FixedHashmap.get_bucket_count (old_ m2)
                    = FixedHashmap.get_bucket_count (old_ m) ∧
                  FixedHashmap.get_bucket_count (current_ m2)
                    = FixedHashmap.get_bucket_count (current_ m) ∧
                  FixedHashmap.get_bucket_count (current_ m) ≠ 0 ∧
                  maybe_rehash default_hash m2 = Ok m').
  { intros key v m0 Ha. unfold at_ in Ha. rewrite move_progressively_idle in Ha by done.
    simpl in Ha. inv_bind Ha as [v2 m2] Hbody. simpl in Ha. inv_bind Ha as m3 Hmr.
    injection Ha as <- <-.
    destruct (at_body_inv _ _ _ _ _ _ _ _ Hinv Hbody) as (Hinv2 & Hre2 & Hold2 & _).
    unfold at_body in Hbody. rewrite Hre in Hbody. simpl in Hbody.
    inv_bind Hbody as [v1 c] Hfa. simpl in Hbody. injection Hbody as <- <-.
    destruct (at_inv _ _ _ _ _ _ _ (current_wf _ _ _ Hinv) Hfa) as (_ & Hc & _ & Hne & _).
    exists (set_current c m). split_and!; try done; by apply bucket_count_ne_0. }
  destruct op as [kv|kv|key|key|key|]; simpl in Hr; [| | | | | done].
  - inv_bind Hr as [[it ins] m0] Hi. simpl in Hr. injection Hr as <-. by eapply Hins.
  - rewrite Hashmap_emplace_insert in Hr.
    inv_bind Hr as [[it ins] m0] Hi. simpl in Hr. injection Hr as <-. by eapply Hins.
  - inv_bind Hr as [v m0] Ha. simpl in Hr. injection Hr as <-. by eapply Hat.
  - inv_bind Hr as [v m0] Ha. simpl in Hr. injection Hr as <-. by eapply Hat.
  - inv_bind Hr as [n m0] He. simpl in Hr. injection Hr as <-.
    unfold erase in He. rewrite move_progressively_idle in He by done. simpl in He.
    rewrite Hre in He. simpl in He.
    inv_bind He as [n2 m2] Hbody. simpl in He. inv_bind He as m3 Hmr. injection He as <- <-.
    inv_bind Hbody as [n1 c] Hfe. simpl in Hbody. injection Hbody as <- <-.
    destruct (fixed_erase_shrinks hash_call key _ _ _ (current_wf _ _ _ Hinv) Hfe)
      as (Hwc & Hsub & _ & _ & Hc & Hcur & Hne & _ & Hh).
    assert (Hinv2 : Inv hash_call default_hash (mk_hashmap c (old_ m) (rehashing_ m))).
    { apply tables_shrink; try done. apply (old_wf _ _ _ Hinv). }
    exists (set_current c m). split_and!; try done.
Qed.

End resize.

Section bucket_order_theorems.
Import TreeList TreeListInv TreeListFacts RedBlack.
Context {T : Type} `{EqDecision T} (compare : T → T → bool).

(** X26. The order in which a bucket built by insertions is visited.
    The calls [insert(x)] for the elements of a list, made on an empty bucket,
    all return. Up to ten elements the bucket is a list that holds them newest
    first; from eleven on it is a tree, and if [compare] never orders two
    elements both ways, its in-order has no element followed by one that
    [compare] puts before it. *)
Theorem treelist_iteration_order (l : list T) :
  ∃ b, insert_each compare l zeroed = Ok b ∧
       ((length l ≤ 10)%nat → ds_type_ b = k_linked_list ∧ elements b = rev l) ∧
       ((10 < length l)%nat →
          ds_type_ b = k_red_black_tree ∧
          ((∀ x y, compare x y = true → compare y x = false) →
           sorted compare (elements b) = true)).
Proof.
  assert (Hg : grown (@zeroed T)) by (split; [intros _; simpl; lia | done]).
  destruct (insert_each_grown compare l zeroed zeroed_wf Hg) as (b & Hr & _).
  destruct (insert_each_order compare [] l zeroed b zeroed_wf I eq_refl) as (Hwf & Hs & Hds & Hel);
    [simpl; split; [lia | done] | done | done |].
  simpl in Hds, Hel. exists b. split_and!; [done | |].
  - intros Hle. split; [by apply Hds | by apply Hel, Hds].
  - intros Hgt. destruct (ds_type_ b) eqn:Hd.
    { assert (length l ≤ 10)%nat by (by apply Hds). lia. }
    split; [done |]. intros Hasym.
    destruct Hwf as [_ Hshape]. rewrite Hd in Hshape. unfold search_bucket, tree_of in Hs.
    unfold elements. destruct (head_root_ b) as [ch|t]; [done |].
    by apply search_tree_sorted.
Qed.

End bucket_order_theorems.

Section resize_theorems.
Import Hashmap HashmapInv FixedHashmapInv HashmapFacts.
Context {Key Mapped Hash : Type} `{EqDecision Key}.
Context (key_less : Key → Key → bool).
Context (hash_call : Hash → Key → Z).
Context (default_hash : Hash).
Context (default_mapped : Mapped).
Implicit Types (m : hashmap Key Mapped Hash) (key k : Key) (kv : Key * Mapped) (v : Mapped).

(** X27. What [maybe_rehash] decides at the end of [insert], [emplace],
    [at], [operator[]] and [erase] on a reachable map that is not migrating.
    With [n] the slots of [current_] before the call and [s] the [size()]
    after it: if [s] is at least three quarters of [n], a migration starts
    into an empty table of [2 n] slots; otherwise, if [n] is more than [4 s]
    and more than 16, one starts into an empty table of [3 s] slots; otherwise
    the table is kept and no migration starts. When a migration starts, [old_]
    is the former table. *)
Theorem hashmap_resize_policy op m m' :
  reachable key_less hash_call default_hash default_mapped m →
  rehashing_ m = false → op ≠ op_clear →
  run key_less hash_call default_hash default_mapped op m = Ok m' →
  0 < FixedHashmap.get_bucket_count (current_ m) ∧
  if bool_decide (FixedHashmap.get_bucket_count (current_ m) * 3 ≤ size m' * 4) then
    rehashing_ m' = true ∧
    FixedHashmap.get_bucket_count (current_ m')
      = 2 * FixedHashmap.get_bucket_count (current_ m) ∧
    FixedHashmap.elements (current_ m') = [] ∧
    FixedHashmap.get_bucket_count (old_ m') = FixedHashmap.get_bucket_count (current_ m)
  else if bool_decide (size m' * 4 < FixedHashmap.get_bucket_count (current_ m))
          && bool_decide (16 < FixedHashmap.get_bucket_count (current_ m)) then
    rehashing_ m' = true ∧
    FixedHashmap.get_bucket_count (current_ m') = 3 * size m' ∧
    FixedHashmap.elements (current_ m') = [] ∧
    FixedHashmap.get_bucket_count (old_ m') = FixedHashmap.get_bucket_count (current_ m)
  else
    rehashing_ m' = false ∧
    FixedHashmap.get_bucket_count (current_ m') = FixedHashmap.get_bucket_count (current_ m).
Proof.
  intros Hr Hre Hop Hrun.
  pose proof (reachable_Inv key_less hash_call default_hash default_mapped m Hr) as Hinv.
  destruct (idle_call_resize key_less hash_call default_hash default_mapped op m m'
              Hinv Hre Hop Hrun) as (m2 & Hinv2 & Hre2 & Hold2 & Hco & Hcc & Hne & Hmr).
  assert (Hne2 : FixedHashmap.get_bucket_count (current_ m2) ≠ 0) by (by rewrite Hcc).
  destruct (maybe_rehash_inv hash_call default_hash m2 m' Hinv2 (λ _, Hne2) Hmr)
    as (Hinv' & Hp & _).
  assert (Hsize : size m' = FixedHashmap.size (current_ m2)).
  { rewrite (size_contents hash_call default_hash m' Hinv'), Hp. unfold contents.
    rewrite Hold2, app_nil_r. unfold FixedHashmap.size.
    by rewrite (table_wf_size hash_call _ (current_wf _ _ _ Hinv2)). }
  pose proof (maybe_rehash_policy hash_call default_hash m2 m' Hinv2 Hre2 Hne2 Hmr) as Hpol.
  simpl in Hpol. rewrite <- Hsize, Hcc in Hpol.
  split.
  { unfold FixedHashmap.get_bucket_count, FixedHashmap.mmap_array_size in *. lia. }
  case_bool_decide as Hgrow.
  - destruct Hpol as (Hre' & Hold' & Hc' & He'). split_and!; try done. by rewrite Hold'.
  - destruct (bool_decide _ && bool_decide _).
    + destruct Hpol as (Hre' & Hold' & Hc' & He'). split_and!; try done. by rewrite Hold'.
    + subst m'. by split.
Qed.


End resize_theorems.

Section resize_examples.
Import Hashmap HashmapInv FixedHashmapInv Examples.

Lemma hashmap_resize_policy_witness :
  0 < FixedHashmap.get_bucket_count (current_ single_map) ∧
  if bool_decide (FixedHashmap.get_bucket_count (current_ single_map) * 3
                    ≤ size migrating_map * 4) then
    rehashing_ migrating_map = true ∧
    FixedHashmap.get_bucket_count (current_ migrating_map)
      = 2 * FixedHashmap.get_bucket_count (current_ single_map) ∧
    FixedHashmap.elements (current_ migrating_map) = [] ∧
    FixedHashmap.get_bucket_count (old_ migrating_map)
      = FixedHashmap.get_bucket_count (current_ single_map)
  else if bool_decide (size migrating_map * 4 < FixedHashmap.get_bucket_count (current_ single_map))
          && bool_decide (16 < FixedHashmap.get_bucket_count (current_ single_map)) then
    rehashing_ migrating_map = true ∧
    FixedHashmap.get_bucket_count (current_ migrating_map) = 3 * size migrating_map ∧
    FixedHashmap.elements (current_ migrating_map) = [] ∧
    FixedHashmap.get_bucket_count (old_ migrating_map)
      = FixedHashmap.get_bucket_count (current_ single_map)
  else
    rehashing_ migrating_map = false ∧
    FixedHashmap.get_bucket_count (current_ migrating_map)
      = FixedHashmap.get_bucket_count (current_ single_map).
Proof.
  apply (hashmap_resize_policy Z.ltb identity_hash () 0 (op_insert (2, 20)) single_map
           migrating_map); [apply single_map_reachable | reflexivity | discriminate | reflexivity].
Defined.


End resize_examples.

Section lookup_theorems.
Import Hashmap HashmapInv FixedHashmapInv HashmapFacts.
Context {Key Mapped Hash : Type} `{EqDecision Key}.
Context (key_less : Key → Key → bool).
Context (hash_call : Hash → Key → Z).
Context (default_hash : Hash).
Context (default_mapped : Mapped).
Implicit Types (m : hashmap Key Mapped Hash) (key k : Key) (kv : Key * Mapped) (v : Mapped).


End lookup_theorems.

Section bucket_erase_theorems.
Import TreeList TreeListInv.
Context {T : Type}.
Implicit Types (b : tree_list_base T) (it : mixed_node_type).

(** X30. [erase(iterator)] on a well-formed list bucket. For an
    iterator that names an element the call returns; the bucket is then well
    formed and holds the other elements in their order, [size_] is one lower,
    and the iterator returned names the element that followed the erased one,
    or is [end()] if there was none. For [end()] the call returns [end()] and
    changes nothing. *)
Theorem treelist_erase_in_list b it (l1 : list T) (d : T) (l2 : list T) :
  bucket_wf b → ds_type_ b = k_linked_list → names b it l1 d l2 →
  erase end_ b = Ok (end_, b) ∧
  ∃ it' b', erase it b = Ok (it', b') ∧
            bucket_wf b' ∧ elements b' = l1 ++ l2 ∧
            TreeList.size_ b' = TreeList.size_ b - 1 ∧
            match l2 with
            | [] => mixed_node_eq it' end_ = true
            | d' :: l2' => names b' it' l1 d' l2'
            end.
Proof.
  intros Hwf Hds Hn. split; [done |].
  destruct (erase_names b it l1 d l2 Hwf Hn) as (it' & b' & He & Hel & Hwf' & Hsz & _).
  exists it', b'. split_and!; try done.
  destruct it as [tag ptr]. destruct b as [[ch|t] n ds]; unfold names in Hn; simpl in *.
  - destruct tag, ptr as [|i|p]; simpl in Hn; try done.
    destruct Hn as [-> ->]. unfold erase, read_head in He. simpl in He.
    rewrite bool_decide_true in He by (rewrite length_app; simpl; lia).
    rewrite delete_middle in He. injection He as <- <-.
    rewrite lookup_app_r by lia. rewrite Nat.sub_diag.
    destruct l2 as [|d' l2']; simpl; [done |]. unfold names. simpl. done.
  - subst ds. destruct Hwf as [_ Hshape]. simpl in Hshape. subst t.
    destruct tag, ptr; simpl in Hn; try done. destruct Hn as (c & l & r & Hnode & _).
    by rewrite node_at_null in Hnode.
Qed.

End bucket_erase_theorems.

Section lookup_examples.
Import Hashmap HashmapInv FixedHashmapInv Examples.


Lemma treelist_erase_in_list_witness :
  TreeList.erase TreeList.end_ (chain [(4, 40); (1, 10); (7, 70)])
    = Ok (TreeList.end_, chain [(4, 40); (1, 10); (7, 70)]) ∧
  ∃ it' b', TreeList.erase (TreeList.list_iterator (TreeList.list_ref 1))
              (chain [(4, 40); (1, 10); (7, 70)]) = Ok (it', b') ∧
            TreeListInv.bucket_wf b' ∧ TreeList.elements b' = [(4, 40)] ++ [(7, 70)] ∧
            TreeList.size_ b' = TreeList.size_ (chain [(4, 40); (1, 10); (7, 70)]) - 1 ∧
            TreeListInv.names b' it' [(4, 40)] (7, 70) [].
Proof.
  apply (treelist_erase_in_list (chain [(4, 40); (1, 10); (7, 70)])
           (TreeList.list_iterator (TreeList.list_ref 1)) [(4, 40)] (1, 10) [(7, 70)]);
    [apply chain_wf | reflexivity | split; reflexivity].
Defined.

End lookup_examples.
